(** * heat.c: the masked finite-difference diffusion engine

    A shallow embedding of the numerical core of [heat.c] (animation of
    the heat equation in a planar domain): the field initialisers
    [init_gaussian] and [init_julia_set], the gradient
    [compute_gradient], the field-line tracer [draw_field_line], the
    seed candidates and the seeding pass of [draw_wave], the stencil
    step [evolve_wave], the variance [compute_variance] and the
    rescaling [renormalise_field], the Julia schedule
    [set_Julia_parameters], and from [animation] its head and the steps
    it takes between two frames.  Windowing, drawing, text and frame
    capture are left out.

    Conventions.
    - The macros of the configuration ([NX], [NY], [B_COND], [FLOOR],
      [VMAX], [SPEED], [T_IN], [T_OUT], [N_FIELD_LINES], ...) and the
      globals [intstep], [intstep1] are variables of the sections: a
      theorem holds for every configuration that meets its hypotheses.
    - A C [int] is a [Z] (the indices and counters stay far below
      2^31); a [short int] is a [Z] wrapped to 16 bits when it is
      stored.
    - A [double] is an element of a type [T] that carries the interface
      [Arith] (the arithmetic and comparisons of the language).  The
      model is parametric in [T]: a theorem that assumes no law holds
      for every instance, in particular for the IEEE-754 binary64
      instance [b64_arith] built on the kernel's primitive floats.  A
      theorem that needs an algebraic law says which one.
    - An array of row pointers [double *phi[NX]], each row of [NY]
      cells, is a list of rows.  Reading or writing outside an array is
      an error ([OutOfBounds]), as is running a [while] loop out of
      fuel ([OutOfFuel]); the two are kept apart.
    - The [omp parallel for] of [evolve_wave] shares the rows of the
      grid among threads.  [evolve_wave] is the run with one thread,
      cell after cell in row-major order; [evolve_wave_sched] is the
      run under a schedule, an order of the cells in which every row
      goes from left to right and the rows interleave, the update of
      one cell being one step.  With [FLOOR] off no iteration writes
      what another reads, and every schedule returns what [evolve_wave]
      returns; with [FLOOR] on the clamp assigns [phi] inside the loop,
      and the value returned at a cell of status 1 can depend on the
      schedule.
    - A read one past the end of a static array is an error in
      [draw_wave_field_lines]; [draw_wave_field_lines_over] is the same
      pass where that read gives what the memory next to the array
      holds, a parameter.
    - Functions of [sub_wave.c] ([ij_to_xy], [xy_to_ij], [xy_to_pos],
      [xy_in_billiard], [module2]) and of the C library ([exp], [pow],
      [sqrt], [cos], [sin]) are parameters. *)

From Stdlib Require Import ZArith Lia Bool.
From Stdlib Require Import Floats.
From Stdlib Require Import QArith Qcanon Lqa.
From stdpp Require Import base list.

Local Open Scope Z_scope.

(** ** Errors *)

Inductive error : Type :=
| OutOfBounds
| OutOfFuel.

Inductive result (A : Type) : Type :=
| Ok (a : A)
| Err (e : error).

Arguments Ok {A} a.
Arguments Err {A} e.

Definition bind {A B : Type} (m : result A) (k : A -> result B) : result B :=
  match m with
  | Ok a => k a
  | Err e => Err e
  end.

Notation "x <- m ;; k" := (bind m (fun x => k))
  (at level 100, m at next level, right associativity, only parsing).

Definition is_Ok {A : Type} (m : result A) : Prop := exists a, m = Ok a.

(** A run that can fail by an access out of bounds only, never by the
    fuel, and whose result, when there is one, satisfies [P]. *)
Definition safe_or {A : Type} (P : A -> Prop) (m : result A) : Prop :=
  m = Err OutOfBounds \/ exists a, m = Ok a /\ P a.

(** ** Arrays *)

Definition grid (A : Type) : Type := list (list A).

(** [a[i]] *)
Definition rd1 {A : Type} (a : list A) (i : Z) : result A :=
  if 0 <=? i then
    match a !! Z.to_nat i with
    | Some v => Ok v
    | None => Err OutOfBounds
    end
  else Err OutOfBounds.

(** [a[i]] where [i] may be one past the end of a static array: the
    running program reads there what the memory next to the array
    holds, [over].  Any other index outside the array is an error. *)
Definition rd1_over {A : Type} (a : list A) (over : A) (i : Z) : result A :=
  if i =? Z.of_nat (length a) then Ok over else rd1 a i.

(** [a[i] = v] *)
Definition wr1 {A : Type} (a : list A) (i : Z) (v : A) : result (list A) :=
  if (0 <=? i) && (i <? Z.of_nat (length a)) then Ok (<[Z.to_nat i := v]> a)
  else Err OutOfBounds.

(** [g[i][j]] *)
Definition rd {A : Type} (g : grid A) (i j : Z) : result A :=
  row <- rd1 g i ;; rd1 row j.

(** [g[i][j] = v] *)
Definition wr {A : Type} (g : grid A) (i j : Z) (v : A) : result (grid A) :=
  row <- rd1 g i ;;
  row' <- wr1 row j v ;;
  wr1 g i row'.

(** The shape of an array of [nx] rows of [ny] cells. *)
Definition dims {A : Type} (nx ny : Z) (g : grid A) : Prop :=
  length g = Z.to_nat nx /\ Forall (fun row => length row = Z.to_nat ny) g.

(** ** Loops *)

(** [for (i = lo; ...; i++) body], [n] iterations from [lo]. *)
Fixpoint for_nat {S : Type} (n : nat) (lo : Z) (body : Z -> S -> result S) (s : S)
  : result S :=
  match n with
  | O => Ok s
  | Datatypes.S n' => s' <- body lo s ;; for_nat n' (lo + 1) body s'
  end.

(** [for (i = lo; i < hi; i++) body] *)
Definition for_loop {S : Type} (lo hi : Z) (body : Z -> S -> result S) (s : S)
  : result S :=
  for_nat (Z.to_nat (hi - lo)) lo body s.

(** [while (cond) body]: the condition may itself read an array. *)
Fixpoint while_loop {S : Type} (fuel : nat) (cond : S -> result bool)
  (body : S -> result S) (s : S) : result S :=
  c <- cond s ;;
  if c : bool then
    match fuel with
    | O => Err OutOfFuel
    | Datatypes.S fuel' => s' <- body s ;; while_loop fuel' cond body s'
    end
  else Ok s.

(** Row-major order: the cell [(a, b)] is visited before [(i, j)]. *)
Definition before (i j a b : Z) : Prop := a < i \/ (a = i /\ b < j).

(** The body of a loop nest run on the cells of a list, in the order of
    the list. *)
Fixpoint for_cells {S : Type} (cells : list (Z * Z)) (body : Z -> Z -> S -> result S)
  (s : S) : result S :=
  match cells with
  | [] => Ok s
  | (i, j) :: rest => s' <- body i j s ;; for_cells rest body s'
  end.

(** The cells in the order of [for (i...) for (j...)]. *)
Definition row_major (nx ny : Z) : list (Z * Z) :=
  mbind (fun i => pair i <$> seqZ 0 ny) (seqZ 0 nx).

(** Every cell comes before the cells of its row that lie to its right. *)
Fixpoint rows_in_order (cells : list (Z * Z)) : Prop :=
  match cells with
  | [] => True
  | c :: rest => Forall (fun c' => fst c' = fst c -> snd c < snd c') rest
                 /\ rows_in_order rest
  end.

(** ** Arithmetic of [double] *)

(** The operations of the language on [double]: [+ - * /], unary minus,
    [<], [<=] and the conversion [(double) n] of an [int]. *)
Class Arith (T : Type) : Type := {
  fadd : T -> T -> T;
  fsub : T -> T -> T;
  fmul : T -> T -> T;
  fdiv : T -> T -> T;
  fneg : T -> T;
  flt : T -> T -> bool;
  fle : T -> T -> bool;
  of_int : Z -> T
}.

Declare Scope F_scope.
Delimit Scope F_scope with F.
Infix "+" := fadd : F_scope.
Infix "-" := fsub : F_scope.
Infix "*" := fmul : F_scope.
Infix "/" := fdiv : F_scope.
Notation "- x" := (fneg x) : F_scope.
Infix "<?" := flt : F_scope.
Infix "<=?" := fle : F_scope.

(** A decimal literal [m]e[e].  An integer below 2^53 converts exactly
    and IEEE division rounds correctly, so on binary64 [dec 75 (-2)] is
    the double that the compiler reads from [0.75], and [dec 1 (-15)]
    the one it reads from [1.0e-15]. *)
Definition dec {T : Type} `{Arith T} (m e : Z) : T :=
  if e <? 0 then (of_int m / of_int (10 ^ (- e)))%F else of_int (m * 10 ^ e).

(** [#define DPI 6.283185307] *)
Definition DPI {T : Type} `{Arith T} : T := dec 6283185307 (-9).

(** Storing an [int] into a [short int] keeps its low 16 bits. *)
Definition to_short (z : Z) : Z := (z + 32768) mod 65536 - 32768.

(** [B_COND] *)
Inductive bc_policy : Type :=
| BC_DIRICHLET
| BC_PERIODIC
| BC_ABSORBING.

Definition bc_eqb (a b : bc_policy) : bool :=
  match a, b with
  | BC_DIRICHLET, BC_DIRICHLET | BC_PERIODIC, BC_PERIODIC
  | BC_ABSORBING, BC_ABSORBING => true
  | _, _ => false
  end.

(** ** Field initialisers: [init_gaussian], [init_julia_set] *)

Section Init.
Context {T : Type} `{Arith T}.
(** [#define NX], [NY], [T_IN], [T_OUT] *)
Variables (NX NY : Z) (T_IN T_OUT : T).
(** [sub_wave.c]: grid index to coordinates, and the domain classifier
    (which reads the globals [julia_x], [julia_y]). *)
Variable ij_to_xy : Z -> Z -> T * T.
Variable xy_in_billiard : T -> T -> Z.
(** The C library's [exp] and [pow]. *)
Variable c_exp : T -> T.
Variable c_pow : T -> T -> T.

Definition init_gaussian_cell (x y mean amplitude scalex scale2 : T) (i j : Z)
  (st : grid T * grid Z) : result (grid T * grid Z) :=
  let xy := ij_to_xy i j in
  xy_in <- wr (snd st) i j (to_short (xy_in_billiard (fst xy) (snd xy))) ;;
  in_ <- rd xy_in i j ;;
  if in_ =? 1 then
    let dist2 := ((fst xy - x) * (fst xy - x) + (snd xy - y) * (snd xy - y))%F in
    let module := (amplitude * c_exp (- dist2 / scale2))%F in
    let module := if (module <? dec 1 (-15))%F then dec 1 (-15) else module in
    phi <- wr (fst st) i j (mean + module / scalex)%F ;;
    Ok (phi, xy_in)
  else if 2 <=? in_ then
    phi <- wr (fst st) i j (T_IN * c_pow (dec 75 (-2)) (of_int (in_ - 2)))%F ;;
    Ok (phi, xy_in)
  else
    phi <- wr (fst st) i j T_OUT ;;
    Ok (phi, xy_in).

(** [init_gaussian(x, y, mean, amplitude, scalex, phi, xy_in)] *)
Definition init_gaussian (x y mean amplitude scalex : T) (phi : grid T)
  (xy_in : grid Z) : result (grid T * grid Z) :=
  let scale2 := (scalex * scalex)%F in
  for_loop 0 NX (fun i =>
    for_loop 0 NY (fun j =>
      init_gaussian_cell x y mean amplitude scalex scale2 i j)) (phi, xy_in).

Definition init_julia_set_cell (i j : Z) (st : grid T * grid Z)
  : result (grid T * grid Z) :=
  let xy := ij_to_xy i j in
  xy_in <- wr (snd st) i j (to_short (xy_in_billiard (fst xy) (snd xy))) ;;
  in_ <- rd xy_in i j ;;
  if 2 <=? in_ then
    phi <- wr (fst st) i j T_IN ;;
    Ok (phi, xy_in)
  else Ok (fst st, xy_in).

(** [init_julia_set(phi, xy_in)] *)
Definition init_julia_set (phi : grid T) (xy_in : grid Z)
  : result (grid T * grid Z) :=
  for_loop 0 NX (fun i => for_loop 0 NY (fun j => init_julia_set_cell i j))
    (phi, xy_in).

(** The status that both initialisers store at the cell [(i, j)]. *)
Definition new_status (i j : Z) : Z :=
  to_short (xy_in_billiard (fst (ij_to_xy i j)) (snd (ij_to_xy i j))).

(** The temperature that [init_gaussian] stores at a cell of status [s]. *)
Definition initial_temperature (x y mean amplitude scalex : T) (i j s : Z) : T :=
  if s =? 1 then
    let xy := ij_to_xy i j in
    let dist2 := ((fst xy - x) * (fst xy - x) + (snd xy - y) * (snd xy - y))%F in
    let module := (amplitude * c_exp (- dist2 / (scalex * scalex)))%F in
    let module := if (module <? dec 1 (-15))%F then dec 1 (-15) else module in
    (mean + module / scalex)%F
  else if 2 <=? s then (T_IN * c_pow (dec 75 (-2)) (of_int (s - 2)))%F
  else T_OUT.

End Init.

(** ** Gradient: [compute_gradient] *)

Section Gradient.
Context {T : Type} `{Arith T}.
Variables (NX NY : Z) (XMIN XMAX : T).

Definition compute_gradient_cell (dx : T) (phi : grid T) (i j : Z)
  (st : grid T * grid T) : result (grid T * grid T) :=
  let iplus := i + 1 in
  let iplus := if iplus =? NX then NX - 1 else iplus in
  let iminus := i - 1 in
  let iminus := if iminus =? -1 then 0 else iminus in
  let jplus := j + 1 in
  let jplus := if jplus =? NX then NY - 1 else jplus in
  let jminus := j - 1 in
  let jminus := if jminus =? -1 then 0 else jminus in
  a <- rd phi iplus j ;;
  b <- rd phi iminus j ;;
  nablax <- wr (fst st) i j ((a - b) / dx)%F ;;
  c <- rd phi i jplus ;;
  d <- rd phi i jminus ;;
  nablay <- wr (snd st) i j ((c - d) / dx)%F ;;
  Ok (nablax, nablay).

(** [compute_gradient(phi, nablax, nablay)] *)
Definition compute_gradient (phi nablax nablay : grid T)
  : result (grid T * grid T) :=
  let dx := ((XMAX - XMIN) / of_int NX)%F in
  for_loop 0 NX (fun i =>
    for_loop 0 NY (fun j => compute_gradient_cell dx phi i j))
    (nablax, nablay).

End Gradient.

(** ** Field lines: [draw_field_line] and the seeding pass of [draw_wave] *)

Section FieldLines.
Context {T : Type} `{Arith T}.
Variables (NX NY : Z).
(** [#define N_FIELD_LINES], [FIELD_LINE_FACTOR] *)
Variables (N_FIELD_LINES FIELD_LINE_FACTOR : Z).
(** [sub_wave.c]: coordinates to grid index, coordinates to screen
    position, Euclidean norm. *)
Variable xy_to_ij : T -> T -> Z * Z.
Variable xy_to_pos : T -> T -> T * T.
Variable module2 : T -> T -> T.
(** The C library's [sqrt]. *)
Variable c_sqrt : T -> T.

(** The locals of [draw_field_line]; [fl_out] is the line strip sent to
    [glVertex2d], last vertex first. *)
Record fl_state : Type := {
  fl_x1 : T;
  fl_y1 : T;
  fl_i : Z;
  fl_cont : bool;
  fl_out : list (T * T)
}.

(** The index pair after the four guards that follow [xy_to_ij]. *)
Definition clamp_ij (ij : Z * Z) : Z * Z :=
  let i0 := fst ij in
  let i0 := if i0 <? 0 then 0 else i0 in
  let i0 := if i0 >? NX - 1 then NX - 1 else i0 in
  let i1 := snd ij in
  let i1 := if i1 <? 0 then 0 else i1 in
  let i1 := if i1 >? NY - 1 then NY - 1 else i1 in
  (i0, i1).

Definition field_line_step (xy_in : grid Z) (nablax nablay : grid T) (delta : T)
  (st : fl_state) : result fl_state :=
  let ij := clamp_ij (xy_to_ij (fl_x1 st) (fl_y1 st)) in
  nabx <- rd nablax (fst ij) (snd ij) ;;
  naby <- rd nablay (fst ij) (snd ij) ;;
  let norm2 := (nabx * nabx + naby * naby)%F in
  let moved :=
    if (dec 1 (-14) <? norm2)%F then
      let norm2 := if (norm2 <? dec 1 (-9))%F then dec 1 (-9) else norm2 in
      let norm := c_sqrt norm2 in
      ((fl_x1 st + delta * nabx / norm)%F, (fl_y1 st + delta * naby / norm)%F,
       fl_cont st)
    else (fl_x1 st, fl_y1 st, false) in
  s <- rd xy_in (fst ij) (snd ij) ;;
  let cont := if s =? 0 then false else snd moved in
  Ok {| fl_x1 := fst (fst moved); fl_y1 := snd (fst moved);
        fl_i := fl_i st + 1; fl_cont := cont;
        fl_out := xy_to_pos (fst (fst moved)) (snd (fst moved)) :: fl_out st |}.

(** [draw_field_line(x, y, xy_in, nablax, nablay, delta, nsteps)]: the
    vertices of the line strip, in order. *)
Definition draw_field_line (x y : T) (xy_in : grid Z) (nablax nablay : grid T)
  (delta : T) (nsteps : Z) : result (list (T * T)) :=
  st <- while_loop (Z.to_nat nsteps)
          (fun st => Ok (fl_cont st && (fl_i st <? nsteps)))
          (field_line_step xy_in nablax nablay delta)
          {| fl_x1 := x; fl_y1 := y; fl_i := 0; fl_cont := true;
             fl_out := [xy_to_pos x y] |} ;;
  Ok (rev (fl_out st)).

(** The body of the loop that fills the static array [integral]. *)
Definition integral_step (nablax nablay : grid T) (linex liney distance : list T)
  (i : Z) (integral : list T) : result (list T) :=
  x <- rd1 linex i ;;
  y <- rd1 liney i ;;
  let ij := xy_to_ij x y in
  nabx <- rd nablax (fst ij) (snd ij) ;;
  naby <- rd nablay (fst ij) (snd ij) ;;
  d <- rd1 distance i ;;
  let intens := (module2 nabx naby * d)%F in
  if 0 <? i then
    prev <- rd1 integral (i - 1) ;;
    wr1 integral i (prev + intens)%F
  else wr1 integral i intens.

(** [while ((integral[i] <= j*deltaintens)&&(i < N_FIELD_LINES*FIELD_LINE_FACTOR)) i++;] *)
Definition next_seed (integral : list T) (deltaintens : T) (j i : Z) : result Z :=
  while_loop (Z.to_nat (N_FIELD_LINES * FIELD_LINE_FACTOR))
    (fun i => v <- rd1 integral i ;;
              Ok ((v <=? of_int j * deltaintens)%F
                  && (i <? N_FIELD_LINES * FIELD_LINE_FACTOR)))
    (fun i => Ok (i + 1)) i.

(** The locals [i] and [counter] of the seeding loop, with the calls of
    [draw_field_line] made so far: the index of each seed and the line
    drawn from it, last call first. *)
Record seed_state : Type := {
  sd_i : Z;
  sd_counter : Z;
  sd_lines : list (Z * list (T * T))
}.

Definition seed_step (xy_in : grid Z) (nablax nablay : grid T)
  (linex liney integral : list T) (deltaintens : T) (j : Z) (st : seed_state)
  : result seed_state :=
  i <- next_seed integral deltaintens j (sd_i st) ;;
  x <- rd1 linex i ;;
  y <- rd1 liney i ;;
  line <- draw_field_line x y xy_in nablax nablay (dec 2 (-5)) 100000 ;;
  Ok {| sd_i := i; sd_counter := sd_counter st + 1;
        sd_lines := (i, line) :: sd_lines st |}.

(** The block [if (DRAW_FIELD_LINES) { ... }] of [draw_wave], on the
    gradient and on the static arrays [linex], [liney], [distance] and
    [integral]: the new content of [integral], the value of [counter]
    and the calls of [draw_field_line], in order. *)
Definition draw_wave_field_lines (xy_in : grid Z) (nablax nablay : grid T)
  (linex liney distance integral : list T)
  : result (list T * Z * list (Z * list (T * T))) :=
  integral <- for_loop 0 (N_FIELD_LINES * FIELD_LINE_FACTOR)
                (integral_step nablax nablay linex liney distance) integral ;;
  total <- rd1 integral (N_FIELD_LINES * FIELD_LINE_FACTOR - 1) ;;
  let deltaintens := (total / of_int N_FIELD_LINES)%F in
  x <- rd1 linex 0 ;;
  y <- rd1 liney 0 ;;
  line <- draw_field_line x y xy_in nablax nablay (dec 2 (-5)) 100000 ;;
  st <- for_loop 1 (N_FIELD_LINES + 1)
          (seed_step xy_in nablax nablay linex liney integral deltaintens)
          {| sd_i := 0; sd_counter := 0; sd_lines := [(0, line)] |} ;;
  Ok (integral, sd_counter st, rev (sd_lines st)).

(** What the memory holds one past the end of [linex] and of [liney]. *)
Variables (x_over y_over : T).

(** [seed_step], the seed read as the running program reads it. *)
Definition seed_step_over (xy_in : grid Z) (nablax nablay : grid T)
  (linex liney integral : list T) (deltaintens : T) (j : Z) (st : seed_state)
  : result seed_state :=
  i <- next_seed integral deltaintens j (sd_i st) ;;
  x <- rd1_over linex x_over i ;;
  y <- rd1_over liney y_over i ;;
  line <- draw_field_line x y xy_in nablax nablay
            (dec 2 (-5)) 100000 ;;
  Ok {| sd_i := i; sd_counter := sd_counter st + 1;
        sd_lines := (i, line) :: sd_lines st |}.

(** [draw_wave_field_lines] as the running program behaves when a seed
    search ends on the index [N_FIELD_LINES*FIELD_LINE_FACTOR]: the
    reads [linex[i]], [liney[i]] one past the end give what the memory
    holds there, and the pass goes on. *)
Definition draw_wave_field_lines_over (xy_in : grid Z) (nablax nablay : grid T)
  (linex liney distance integral : list T)
  : result (list T * Z * list (Z * list (T * T))) :=
  integral <- for_loop 0 (N_FIELD_LINES * FIELD_LINE_FACTOR)
                (integral_step nablax nablay linex liney distance)
                integral ;;
  total <- rd1 integral (N_FIELD_LINES * FIELD_LINE_FACTOR - 1) ;;
  let deltaintens := (total / of_int N_FIELD_LINES)%F in
  x <- rd1 linex 0 ;;
  y <- rd1 liney 0 ;;
  line <- draw_field_line x y xy_in nablax nablay
            (dec 2 (-5)) 100000 ;;
  st <- for_loop 1 (N_FIELD_LINES + 1)
          (seed_step_over xy_in nablax nablay linex liney integral deltaintens)
          {| sd_i := 0; sd_counter := 0; sd_lines := [(0, line)] |} ;;
  Ok (integral, sd_counter st, rev (sd_lines st)).

End FieldLines.

(** The seeds of a list of lines, taken in order, never go back. *)
Definition seeds_in_order {T : Type} (lines : list (Z * list (T * T))) : Prop :=
  forall (k k' : nat) p q,
    lines !! k = Some p -> lines !! k' = Some q -> (k <= k')%nat -> fst p <= fst q.

(** ** Stencil step: [evolve_wave] *)

Section Evolve.
Context {T : Type} `{Arith T}.
Variables (NX NY : Z).
(** [#define B_COND], [FLOOR], [VMAX], [SPEED] *)
Variable B_COND : bc_policy.
Variable FLOOR : bool.
Variables (VMAX SPEED : T).
(** The globals [intstep], [intstep1]. *)
Variables (intstep intstep1 : T).
(** The local [delta2] is read and never assigned: its value at the cell
    is whatever the stack holds. *)
Variable delta2 : Z -> Z -> T.

(** [(iplus, iminus, jplus, jminus)] *)
Definition neighbours (i j : Z) : Z * Z * Z * Z :=
  match B_COND with
  | BC_DIRICHLET | BC_ABSORBING =>
      let iplus := i + 1 in
      let iplus := if iplus =? NX then NX - 1 else iplus in
      let iminus := i - 1 in
      let iminus := if iminus =? -1 then 0 else iminus in
      let jplus := j + 1 in
      let jplus := if jplus =? NY then NY - 1 else jplus in
      let jminus := j - 1 in
      let jminus := if jminus =? -1 then 0 else jminus in
      (iplus, iminus, jplus, jminus)
  | BC_PERIODIC =>
      let iplus := Z.rem (i + 1) NX in
      let iminus := Z.rem (i - 1) NX in
      let iminus := if iminus <? 0 then iminus + NX else iminus in
      let jplus := Z.rem (j + 1) NY in
      let jminus := Z.rem (j - 1) NY in
      let jminus := if jminus <? 0 then jminus + NY else jminus in
      (iplus, iminus, jplus, jminus)
  end.

(** From the Laplacian to the assignment of [newphi[i][j]]. *)
Definition evolve_store (phi newphi : grid T) (i j : Z) : result (grid T) :=
  let '(iplus, iminus, jplus, jminus) := neighbours i j in
  a <- rd phi iplus j ;;
  b <- rd phi iminus j ;;
  c <- rd phi i jplus ;;
  d <- rd phi i jminus ;;
  x <- rd phi i j ;;
  let delta1 := (a + b + c + d - of_int 4 * x)%F in
  if negb (bc_eqb B_COND BC_ABSORBING) then
    wr newphi i j (x + intstep * (delta1 - SPEED * (a - x)))%F
  else if (0 <? i) && (i <? NX - 1) && (0 <? j) && (j <? NY - 1) then
    wr newphi i j (x - intstep * delta2 i j)%F
  else if i =? NX - 1 then
    p <- rd phi (i - 1) j ;; wr newphi i j (x - intstep1 * (x - p))%F
  else if j =? NY - 1 then
    p <- rd phi i (j - 1) ;; wr newphi i j (x - intstep1 * (x - p))%F
  else if i =? 0 then
    p <- rd phi 1 j ;; wr newphi i j (x - intstep1 * (x - p))%F
  else if j =? 0 then
    p <- rd phi i 1 ;; wr newphi i j (x - intstep1 * (x - p))%F
  else Ok newphi.

(** The value that [evolve_store] assigns (used to state what the step
    computes; the code itself is [evolve_store]). *)
Definition stencil_value (phi : grid T) (i j : Z) : result T :=
  let '(iplus, iminus, jplus, jminus) := neighbours i j in
  a <- rd phi iplus j ;;
  b <- rd phi iminus j ;;
  c <- rd phi i jplus ;;
  d <- rd phi i jminus ;;
  x <- rd phi i j ;;
  let delta1 := (a + b + c + d - of_int 4 * x)%F in
  if negb (bc_eqb B_COND BC_ABSORBING) then
    Ok (x + intstep * (delta1 - SPEED * (a - x)))%F
  else if (0 <? i) && (i <? NX - 1) && (0 <? j) && (j <? NY - 1) then
    Ok (x - intstep * delta2 i j)%F
  else if i =? NX - 1 then
    p <- rd phi (i - 1) j ;; Ok (x - intstep1 * (x - p))%F
  else if j =? NY - 1 then
    p <- rd phi i (j - 1) ;; Ok (x - intstep1 * (x - p))%F
  else if i =? 0 then
    p <- rd phi 1 j ;; Ok (x - intstep1 * (x - p))%F
  else
    p <- rd phi i 1 ;; Ok (x - intstep1 * (x - p))%F.

(** The block [if (FLOOR) { ... }]: it assigns to [phi]. *)
Definition floor_clamp (i j : Z) (phi newphi : grid T) : result (grid T) :=
  if FLOOR then
    v <- rd newphi i j ;;
    phi <- (if (VMAX <? v)%F then wr phi i j VMAX else Ok phi) ;;
    v <- rd newphi i j ;;
    if (v <? - VMAX)%F then wr phi i j (- VMAX)%F else Ok phi
  else Ok phi.

Definition evolve_cell (xy_in : grid Z) (i j : Z) (st : grid T * grid T)
  : result (grid T * grid T) :=
  s <- rd xy_in i j ;;
  if s =? 1 then
    newphi <- evolve_store (fst st) (snd st) i j ;;
    phi <- floor_clamp i j (fst st) newphi ;;
    Ok (phi, newphi)
  else Ok st.

Definition commit_cell (xy_in : grid Z) (newphi : grid T) (i j : Z) (phi : grid T)
  : result (grid T) :=
  s <- rd xy_in i j ;;
  if s =? 1 then v <- rd newphi i j ;; wr phi i j v else Ok phi.

(** [evolve_wave(phi, xy_in)] run by one thread; [newphi] is the content
    of the rows that [malloc] returns.  The first loop nest carries
    [#pragma omp parallel for]: with [FLOOR] off its iterations write
    [newphi[i][j]] only and read [phi] only, and the order of the cells
    is immaterial; with [FLOOR] on the clamp assigns [phi[i][j]], which
    the iterations of the neighbouring cells read, and this definition
    is the run in row-major order, one among those of
    [evolve_wave_sched]. *)
Definition evolve_wave (phi : grid T) (xy_in : grid Z) (newphi : grid T)
  : result (grid T) :=
  st <- for_loop 0 NX (fun i => for_loop 0 NY (fun j => evolve_cell xy_in i j))
          (phi, newphi) ;;
  for_loop 0 NX (fun i => for_loop 0 NY (fun j => commit_cell xy_in (snd st) i j))
    (fst st).

(** An order in which the iterations of [#pragma omp parallel for] can
    reach the cells: the rows are shared among the threads, each row is
    run by one thread from left to right, and the rows interleave in any
    way.  The update of one cell is one step. *)
Definition schedule (cells : list (Z * Z)) : Prop :=
  (forall i j, elem_of (i, j) cells <-> 0 <= i < NX /\ 0 <= j < NY)
  /\ rows_in_order cells.

(** [evolve_wave(phi, xy_in)] when the parallel loop reaches the cells
    in the order [cells]; the loop that copies [newphi] is sequential. *)
Definition evolve_wave_sched (cells : list (Z * Z)) (phi : grid T) (xy_in : grid Z)
  (newphi : grid T) : result (grid T) :=
  st <- for_cells cells
          (evolve_cell xy_in)
          (phi, newphi) ;;
  for_loop 0 NX (fun i => for_loop 0 NY (fun j => commit_cell xy_in (snd st) i j))
    (fst st).

(** [for (j=0; j<NVID; j++) evolve_wave(phi, xy_in);] of [animation]:
    the steps between two frames.  [newphi j] is the content of the
    rows that the [j]-th call gets from [malloc]. *)
Definition animation_evolve (NVID : Z) (newphi : Z -> grid T) (phi : grid T)
  (xy_in : grid Z) : result (grid T) :=
  for_loop 0 NVID (fun j phi => evolve_wave phi xy_in (newphi j)) phi.

(** The update of one cell whose four neighbours hold the same value
    [c] as the cell returns [c]: the Laplacian and the drift vanish. *)
Definition uniform_update_ok (c : T) : Prop :=
  (c + intstep * (c + c + c + c - of_int 4 * c - SPEED * (c - c)) = c)%F.

(** The grid is not empty, and under the absorbing policy every border
    cell has an inward neighbour. *)
Definition grid_size_ok : Prop :=
  0 < NX /\ 0 < NY /\ (B_COND = BC_ABSORBING -> 1 < NX /\ 1 < NY).

(** The inward neighbour toward which a border cell relaxes under the
    absorbing policy. *)
Definition inward (i j : Z) : Z * Z :=
  if i =? NX - 1 then (i - 1, j)
  else if j =? NY - 1 then (i, j - 1)
  else if i =? 0 then (1, j)
  else (i, 1).

End Evolve.

(** ** Variance: [compute_variance] *)

Section Variance.
Context {T : Type} `{Arith T}.
Variables (NX NY : Z).

Definition variance_cell (phi : grid T) (xy_in : grid Z) (i j : Z) (st : Z * T)
  : result (Z * T) :=
  s <- rd xy_in i j ;;
  if s =? 0 then Ok st
  else v <- rd phi i j ;; Ok (fst st + 1, (snd st + v * v)%F).

(** [compute_variance(phi, xy_in)] *)
Definition compute_variance (phi : grid T) (xy_in : grid Z) : result T :=
  st <- for_loop 1 NX (fun i => for_loop 1 NY (fun j => variance_cell phi xy_in i j))
          (0, of_int 0) ;;
  let n := if fst st =? 0 then 1 else fst st in
  Ok (snd st / of_int n)%F.


(** Modelled from the spec, for comparison with [compute_variance]: the
    mean of the squared value over all cells of the grid whose status
    is not 0, the count defaulting to 1. *)
Definition variance_over_grid (phi : grid T) (xy_in : grid Z) : result T :=
  st <- for_loop 0 NX (fun i => for_loop 0 NY (fun j => variance_cell phi xy_in i j))
          (0, of_int 0) ;;
  let n := if fst st =? 0 then 1 else fst st in
  Ok (snd st / of_int n)%F.

End Variance.

(** ** Rescaling: [renormalise_field] *)

Section Renormalise.
Context {T : Type} `{Arith T}.
Variables (NX NY : Z).
(** The C library's [sqrt]. *)
Variable c_sqrt : T -> T.

Definition renormalise_cell (stdv : T) (xy_in : grid Z) (i j : Z) (phi : grid T)
  : result (grid T) :=
  s <- rd xy_in i j ;;
  if s =? 0 then Ok phi
  else v <- rd phi i j ;; wr phi i j (v / stdv)%F.

(** [renormalise_field(phi, xy_in, variance)] *)
Definition renormalise_field (phi : grid T) (xy_in : grid Z) (variance : T)
  : result (grid T) :=
  let stdv := c_sqrt variance in
  for_loop 1 NX (fun i => for_loop 1 NY (fun j => renormalise_cell stdv xy_in i j))
    phi.

End Renormalise.

(** ** Seed candidates: the block [if ((first)&&(DRAW_FIELD_LINES))] of [draw_wave] *)

Section Candidates.
Context {T : Type} `{Arith T}.
(** [#define DRAW_FIELD_LINES], [N_FIELD_LINES], [FIELD_LINE_FACTOR] *)
Variable DRAW_FIELD_LINES : bool.
Variables (N_FIELD_LINES FIELD_LINE_FACTOR : Z).
(** [sub_wave.c]: Euclidean norm. *)
Variable module2 : T -> T -> T.
(** The C library's [sqrt], [cos] and [sin]. *)
Variables (c_sqrt c_cos c_sin : T -> T).

(** The locals [x1], [y1], [x2], [y2] and the static arrays [linex],
    [liney], [distance]. *)
Record cand_state : Type := {
  cd_x1 : T;
  cd_y1 : T;
  cd_x2 : T;
  cd_y2 : T;
  cd_linex : list T;
  cd_liney : list T;
  cd_distance : list T
}.

Definition candidate_step (dangle : T) (i : Z) (st : cand_state) : result cand_state :=
  let angle := (of_int i * dangle)%F in
  let x2 := (c_sqrt (dec 358 (-2)) * c_cos angle)%F in
  let y2 := (c_sqrt (dec 118 (-2)) * c_sin angle)%F in
  linex <- wr1 (cd_linex st) i x2 ;;
  liney <- wr1 (cd_liney st) i y2 ;;
  distance <- wr1 (cd_distance st) (i - 1)
                (module2 (x2 - cd_x1 st) (y2 - cd_y1 st))%F ;;
  Ok {| cd_x1 := x2; cd_y1 := y2; cd_x2 := x2; cd_y2 := y2;
        cd_linex := linex; cd_liney := liney; cd_distance := distance |}.

(** The block, on the static flag [first] and the static arrays.  [x2]
    and [y2] are locals that the block reads after its loop and that no
    statement before the loop assigns: [x2_0], [y2_0] are what the stack
    holds there.  The result is the new value of [first] and the
    arrays. *)
Definition draw_wave_candidates (first : bool) (x2_0 y2_0 : T)
  (linex liney distance : list T) : result (bool * (list T * list T * list T)) :=
  if first && DRAW_FIELD_LINES then
    let x1 := c_sqrt (dec 358 (-2)) in
    let y1 := of_int 0 in
    linex <- wr1 linex 0 x1 ;;
    liney <- wr1 liney 0 y1 ;;
    let dangle := (DPI / of_int (N_FIELD_LINES * FIELD_LINE_FACTOR))%F in
    st <- for_loop 1 (N_FIELD_LINES * FIELD_LINE_FACTOR) (candidate_step dangle)
            {| cd_x1 := x1; cd_y1 := y1; cd_x2 := x2_0; cd_y2 := y2_0;
               cd_linex := linex; cd_liney := liney; cd_distance := distance |} ;;
    distance <- wr1 (cd_distance st) (N_FIELD_LINES * FIELD_LINE_FACTOR - 1)
                  (module2 (cd_x2 st - c_sqrt (dec 358 (-2))) (cd_y2 st))%F ;;
    Ok (false, (cd_linex st, cd_liney st, distance))
  else Ok (first, (linex, liney, distance)).

(** The point that the block stores as the candidate of index [k]:
    [(sqrt(3.58), 0.0)] for the first, then the points of the ellipse of
    half-axes [sqrt(3.58)] and [sqrt(1.18)] at the angles [k*dangle]. *)
Definition candidate_x (k : Z) : T :=
  if k =? 0 then c_sqrt (dec 358 (-2))
  else (c_sqrt (dec 358 (-2))
        * c_cos (of_int k * (DPI / of_int (N_FIELD_LINES * FIELD_LINE_FACTOR))))%F.

Definition candidate_y (k : Z) : T :=
  if k =? 0 then of_int 0
  else (c_sqrt (dec 118 (-2))
        * c_sin (of_int k * (DPI / of_int (N_FIELD_LINES * FIELD_LINE_FACTOR))))%F.

End Candidates.

(** ** Start of the run: [set_Julia_parameters] and the head of [animation] *)

Section Animation.
Context {T : Type} `{Arith T}.
(** [#define NX], [NY], [T_IN], [T_OUT], [XMIN], [XMAX], [DT],
    [VISCOSITY], [NSTEPS] *)
Variables (NX NY : Z) (T_IN T_OUT XMIN XMAX DT VISCOSITY : T) (NSTEPS : Z).
Variable ij_to_xy : Z -> Z -> T * T.
(** [sub_wave.c]: the domain classifier, as a function of the values
    that the globals [julia_x], [julia_y] hold when it is called. *)
Variable xy_in_billiard : T -> T -> T -> T -> Z.
(** The C library's [exp], [pow], [cos] and [sin]. *)
Variables (c_exp : T -> T) (c_pow : T -> T -> T) (c_cos c_sin : T -> T).

(** [set_Julia_parameters(time, phi, xy_in)]: the new values of the
    globals [julia_x], [julia_y], and the arrays. *)
Definition set_Julia_parameters (time : Z) (phi : grid T) (xy_in : grid Z)
  : result (T * T * (grid T * grid Z)) :=
  let radius := dec 15 (-2) in
  let jangle := (of_int time * DPI / of_int NSTEPS)%F in
  let cosj := c_cos jangle in
  let sinj := c_sin jangle in
  let julia_x := (- dec 9 (-1) + radius * cosj)%F in
  let julia_y := (radius * sinj)%F in
  st <- init_julia_set NX NY T_IN ij_to_xy (xy_in_billiard julia_x julia_y)
          phi xy_in ;;
  Ok (julia_x, julia_y, st).

(** What [animation] has set up when it reaches its first drawing. *)
Record run_state : Type := {
  rs_intstep : T;
  rs_intstep1 : T;
  rs_julia_x : T;
  rs_julia_y : T;
  rs_phi : grid T;
  rs_xy_in : grid Z
}.

(** The head of [animation], from the computation of [dx] to the call
    [init_gaussian(-1.0, 0.0, 0.1, 0.0, 0.01, phi, xy_in)]; [phi] and
    [xy_in] are the content of the rows that [malloc] returns. *)
Definition animation_init (phi : grid T) (xy_in : grid Z) : result run_state :=
  let dx := ((XMAX - XMIN) / of_int NX)%F in
  let intstep := (DT / (dx * dx * VISCOSITY))%F in
  let intstep1 := (DT / (dx * VISCOSITY))%F in
  r <- set_Julia_parameters 0 phi xy_in ;;
  let julia_x := fst (fst r) in
  let julia_y := snd (fst r) in
  st <- init_gaussian NX NY T_IN T_OUT ij_to_xy (xy_in_billiard julia_x julia_y)
          c_exp c_pow (- of_int 1)%F (of_int 0) (dec 1 (-1)) (of_int 0) (dec 1 (-2))
          (fst (snd r)) (snd (snd r)) ;;
  Ok {| rs_intstep := intstep; rs_intstep1 := intstep1;
        rs_julia_x := julia_x; rs_julia_y := julia_y;
        rs_phi := fst st; rs_xy_in := snd st |}.

End Animation.

(** ** Quantities of the field *)

Section Heat.
Context {T : Type} `{Arith T}.

(** [f 0 + ... + f (n-1)] *)
Fixpoint sum_to (n : nat) (f : Z -> T) : T :=
  match n with
  | O => of_int 0
  | Datatypes.S n' => (sum_to n' f + f (Z.of_nat n'))%F
  end.

(** The value of a cell, 0 outside the array. *)
Definition cell (g : grid T) (i j : Z) : T :=
  match rd g i j with
  | Ok v => v
  | Err _ => of_int 0
  end.

(** The sum of the field over the grid.  No function of the program
    computes it: it is the quantity that the periodic step is shown to
    conserve. *)
Definition total_heat (NX NY : Z) (phi : grid T) : T :=
  sum_to (Z.to_nat NX) (fun i => sum_to (Z.to_nat NY) (fun j => cell phi i j)).

(** The right-hand side of the update of [evolve_wave] at a cell, under
    the Dirichlet and the periodic policies: the five-point Laplacian
    [delta1] less the drift. *)
Definition update_rate (NX NY : Z) (B_COND : bc_policy) (SPEED : T)
  (phi : grid T) (i j : Z) : T :=
  let '(iplus, iminus, jplus, jminus) := neighbours NX NY B_COND i j in
  (cell phi iplus j + cell phi iminus j + cell phi i jplus + cell phi i jminus
   - of_int 4 * cell phi i j - SPEED * (cell phi iplus j - cell phi i j))%F.

End Heat.

(** ** Two instances of the arithmetic *)

(** IEEE-754 binary64, round to nearest even: the kernel's floats. *)
Definition b64_of_int (z : Z) : float :=
  if z <? 0 then PrimFloat.opp (PrimFloat.of_uint63 (Uint63.of_Z (- z)))
  else PrimFloat.of_uint63 (Uint63.of_Z z).

#[export] Instance b64_arith : Arith float := {|
  fadd := PrimFloat.add;
  fsub := PrimFloat.sub;
  fmul := PrimFloat.mul;
  fdiv := PrimFloat.div;
  fneg := PrimFloat.opp;
  flt := PrimFloat.ltb;
  fle := PrimFloat.leb;
  of_int := b64_of_int
|}.

(** The integer that a float is, when it is one. *)
Definition b64_to_int (f : float) : option Z :=
  match Prim2SF f with
  | S754_zero _ => Some 0
  | S754_finite s m e =>
      let sign := if s then (-1) else 1 in
      if e <? 0 then
        if Zpos m mod 2 ^ (- e) =? 0 then Some (sign * (Zpos m / 2 ^ (- e)))
        else None
      else Some (sign * (Zpos m * 2 ^ e))
  | _ => None
  end.

(** [pow] at an integral exponent, by repeated multiplication; at other
    exponents it is left undefined (a NaN).  The products are exact for
    [pow(0.75, k)], [0 <= k <= 33], the values that [init_gaussian]
    asks for at the first shells. *)
Definition b64_pow (b e : float) : float :=
  match b64_to_int e with
  | Some k =>
      let p := Nat.iter (Z.to_nat (Z.abs k)) (PrimFloat.mul b) 1%float in
      if k <? 0 then PrimFloat.div 1%float p else p
  | None => PrimFloat.nan
  end.

(** Exact rational arithmetic. *)
#[export] Instance Qc_arith : Arith Qc := {|
  fadd := Qcplus;
  fsub := Qcminus;
  fmul := Qcmult;
  fdiv := Qcdiv;
  fneg := Qcopp;
  flt := fun x y => match (x ?= y)%Qc with Lt => true | _ => false end;
  fle := fun x y => match (x ?= y)%Qc with Gt => false | _ => true end;
  of_int := fun z => Q2Qc (inject_Z z)
|}.

(** The laws of exact arithmetic that the proofs below use; they hold in
    every commutative ring, and on binary64 only away from rounding,
    overflow and NaN. *)
Class ExactArith (T : Type) `{Arith T} : Prop := {
  ea_ring : ring_theory (of_int 0) (of_int 1) fadd fmul fsub fneg (@eq T);
  ea_of_int_add : forall a b : Z, of_int (a + b) = (of_int a + of_int b)%F
}.

(** The laws of division that the proofs on [renormalise_field] use;
    they hold in every field of characteristic zero. *)
Class ExactField (T : Type) `{Arith T} : Prop := {
  ef_div_mul : forall a b : T, b <> of_int 0 -> (a / b * b)%F = a;
  ef_mul_div : forall a b : T, b <> of_int 0 -> (a * b / b)%F = a;
  ef_of_int_pos : forall n : Z, 0 < n -> (of_int n : T) <> of_int 0
}.

(** A double that is neither an infinity nor a NaN. *)
Definition b64_finite (f : float) : bool :=
  match Prim2SF f with
  | S754_zero _ | S754_finite _ _ _ => true
  | _ => false
  end.

(** A double that is a NaN. *)
Definition b64_nan (f : float) : bool :=
  match Prim2SF f with
  | S754_nan => true
  | _ => false
  end.

(** ** Sample data for the worked instances

    The theorems quantify over the functions of [sub_wave.c] and of the
    C library; the worked instances need some, on binary64. *)


(** [(int) f]: truncation toward zero. *)
Definition b64_trunc (f : float) : Z :=
  match Prim2SF f with
  | S754_finite s m e =>
      let a := if e <? 0 then Zpos m / 2 ^ (- e) else Zpos m * 2 ^ e in
      if s then - a else a
  | _ => 0
  end.

(** An approximation of [exp], by twenty squarings. *)
Definition b64_exp (x : float) : float :=
  Nat.iter 20 (fun y => (y * y)%float) (1 + x / 1048576)%float.

(** Modelled from the spec: the affine map between the grid and the
    rectangle [XMIN, XMAX] x [YMIN, YMAX] = [-2, 2] x [-1.125, 1.125],
    in both directions ([ij_to_xy] and [xy_to_ij] of [sub_wave.c]). *)
Definition sample_ij_to_xy (nx ny i j : Z) : float * float :=
  ((-2) + b64_of_int i * (2 - (-2)) / b64_of_int nx,
   (-1.125) + b64_of_int j * (1.125 - (-1.125)) / b64_of_int ny)%float.

Definition sample_xy_to_ij (nx ny : Z) (x y : float) : Z * Z :=
  (b64_trunc ((x - (-2)) / (2 - (-2)) * b64_of_int nx)%float,
   b64_trunc ((y - (-1.125)) / (1.125 - (-1.125)) * b64_of_int ny)%float).

(** Modelled from the spec: the magnitude of a vector ([module2]). *)
Definition sample_module2 (x y : float) : float :=
  PrimFloat.sqrt (x * x + y * y)%float.

(** A classifier with one quadrant of each kind: outside, interior,
    first shell, second shell. *)
Definition sample_classifier (x y : float) : Z :=
  if (x <? 0)%float then (if (y <? 0)%float then 0 else 1)
  else (if (y <? 0)%float then 2 else 3).

(** The configured constants, as [animation] computes them: the grid
    spacing [dx], [intstep = DT/(dx*dx*VISCOSITY)],
    [intstep1 = DT/(dx*VISCOSITY)], and the value that
    [init_gaussian(-1.0, 0.0, 0.1, 0.0, 0.01, ...)] gives every interior
    cell, [mean + 1.0e-15/scalex]. *)
Definition b64_dx : float := ((of_int 2 - of_int (-2)) / of_int 1280)%F.
Definition b64_intstep : float := (dec 4 (-6) / (b64_dx * b64_dx * of_int 10))%F.
Definition b64_intstep1 : float := (dec 4 (-6) / (b64_dx * of_int 10))%F.
Definition b64_interior : float := (dec 1 (-1) + dec 1 (-15) / dec 1 (-2))%F.

Definition field_2x2 : grid float := [[5; 6]; [7; 8]]%float.
Definition status_zero_2x2 : grid Z := [[0; 0]; [0; 0]].

(** A 2 x 2 status grid with an outside cell, two interior cells and a
    boundary cell. *)
Definition status_2x2 : grid Z := [[1; 2]; [0; 1]].

(** A 3 x 3 status grid: interior cells around a boundary cell, one
    outside corner. *)
Definition status_3x3 : grid Z := [[1; 1; 0]; [1; 2; 1]; [1; 1; 1]].

Definition field_3x3 : grid float :=
  [[1; 2; 3]; [4; 5; 6]; [7; 8; 9]]%float.

Definition interior_2x2 : grid Z := [[1; 1]; [1; 1]].
Definition interior_3x3 : grid Z := [[1; 1; 1]; [1; 1; 1]; [1; 1; 1]].
Definition outside_3x3 : grid Z := [[0; 0; 0]; [0; 0; 0]; [0; 0; 0]].

(** A single hot cell in the middle of a cold 3 x 3 grid. *)
Definition hot_centre_3x3 : grid float :=
  [[0; 0; 0]; [0; 1; 0]; [0; 0; 0]]%float.

(** Approximations of [cos] and [sin] by their Taylor polynomials of
    degree 4 and 5. *)
Definition sample_cos (x : float) : float :=
  (1 - x * x / 2 + x * x * x * x / 24)%float.

Definition sample_sin (x : float) : float :=
  (x - x * x * x / 6 + x * x * x * x * x / 120)%float.

(** A classifier that depends on the Julia parameter: the quadrants of
    [sample_classifier], centred on [(julia_x, julia_y)]. *)
Definition sample_julia_classifier (julia_x julia_y x y : float) : Z :=
  sample_classifier (x - julia_x)%float (y - julia_y)%float.

(** The square root of a rational, exact on the squares. *)
Definition Qc_sqrt (v : Qc) : Qc :=
  Q2Qc (Z.sqrt (Qnum v) # Pos.sqrt (Qden v)).

(** A 3 x 3 status grid whose row 0 and column 0 lie outside the
    domain. *)
Definition status_inner_3x3 : grid Z := [[0; 0; 0]; [0; 1; 2]; [0; 1; 1]].

(** Rational fields on the 3 x 3 grid: squares that sum to 100 on the
    four cells of row and column 1 and above, a hot cell in the middle,
    and a field that rises by 1 from each row to the next. *)
Definition squares_3x3 : grid Qc :=
  [[of_int 3; of_int 3; of_int 3];
   [of_int 3; of_int 1; of_int 5];
   [of_int 3; of_int 5; of_int 7]].

Definition hot_centre_Qc : grid Qc :=
  [[of_int 0; of_int 0; of_int 0];
   [of_int 0; of_int 1; of_int 0];
   [of_int 0; of_int 0; of_int 0]].

Definition rising_3x3 : grid Qc :=
  [[of_int 0; of_int 0; of_int 0];
   [of_int 1; of_int 1; of_int 1];
   [of_int 2; of_int 2; of_int 2]].

(** A NaN in the middle of the 3 x 3 grid. *)
Definition nan_centre_3x3 : grid float :=
  [[1; 2; 3]; [4; nan; 6]; [7; 8; 9]]%float.

(** One interior cell in the middle of a boundary. *)
Definition status_centre_3x3 : grid Z := [[2; 2; 2]; [2; 1; 2]; [2; 2; 2]].

(** Status 1 at the corners and in the middle of a 3 x 3 grid, boundary
    cells between them. *)
Definition status_chequer_3x3 : grid Z := [[1; 2; 1]; [2; 1; 2]; [1; 2; 1]].

(** Three threads, one for each row of a 3 x 3 grid, taking turns. *)
Definition interleaved_3x3 : list (Z * Z) :=
  [(1, 0); (0, 0); (2, 0); (2, 1); (0, 1); (1, 1); (1, 2); (0, 2); (2, 2)].

(** ** Basic facts on arrays and loops *)

Section VectorFacts.
Context {A : Type}.
Implicit Types (a : list A) (v : A).

Lemma rd1_Ok a i v : rd1 a i = Ok v <-> 0 <= i /\ a !! Z.to_nat i = Some v.
Proof.
  unfold rd1. destruct (Z.leb_spec 0 i).
  - destruct (a !! Z.to_nat i) eqn:E; split; intros H0.
    + inversion H0; subst. auto.
    + destruct H0 as [_ H0]. congruence.
    + discriminate.
    + destruct H0 as [_ H0]. discriminate.
  - split; [discriminate | lia].
Qed.

Lemma rd1_in a i : 0 <= i < Z.of_nat (length a) -> is_Ok (rd1 a i).
Proof.
  intros Hi. unfold rd1.
  destruct (Z.leb_spec 0 i); [| lia].
  destruct (lookup_lt_is_Some_2 a (Z.to_nat i)) as [v Hv]; [lia |].
  rewrite Hv. by exists v.
Qed.

Lemma rd1_out a i : ~ (0 <= i < Z.of_nat (length a)) -> rd1 a i = Err OutOfBounds.
Proof.
  intros Hi. unfold rd1.
  destruct (Z.leb_spec 0 i); [| done].
  rewrite (lookup_ge_None_2 a (Z.to_nat i)); [done | lia].
Qed.

Lemma wr1_Ok a i v a' :
  wr1 a i v = Ok a' <-> 0 <= i < Z.of_nat (length a) /\ a' = <[Z.to_nat i := v]> a.
Proof.
  unfold wr1.
  destruct (Z.leb_spec 0 i), (Z.ltb_spec i (Z.of_nat (length a))); simpl;
    split; intros H1; try discriminate; try lia.
  - inversion H1. split; [lia | done].
  - destruct H1 as [_ ->]. done.
Qed.

Lemma wr1_in a i v : 0 <= i < Z.of_nat (length a) -> is_Ok (wr1 a i v).
Proof.
  intros Hi. exists (<[Z.to_nat i := v]> a). apply wr1_Ok. done.
Qed.

Lemma wr1_length a i v a' : wr1 a i v = Ok a' -> length a' = length a.
Proof. intros [_ ->]%wr1_Ok. apply length_insert. Qed.

Lemma rd1_wr1_same a i v a' : wr1 a i v = Ok a' -> rd1 a' i = Ok v.
Proof.
  intros [Hi ->]%wr1_Ok. apply rd1_Ok. split; [lia |].
  apply list_lookup_insert_eq. lia.
Qed.

Lemma rd1_wr1_other a i v a' k : wr1 a i v = Ok a' -> k <> i -> rd1 a' k = rd1 a k.
Proof.
  intros [Hi ->]%wr1_Ok Hk. unfold rd1.
  destruct (Z.leb_spec 0 k); [| done].
  rewrite list_lookup_insert_ne; [done | lia].
Qed.

Lemma rd1_replicate_inv n v i x : rd1 (replicate n v) i = Ok x -> x = v.
Proof. intros [_ Hx]%rd1_Ok. by apply lookup_replicate in Hx as [-> _]. Qed.

Lemma rd1_err a i e : rd1 a i = Err e -> e = OutOfBounds.
Proof. unfold rd1. repeat case_match; congruence. Qed.

Lemma wr1_err a i v e : wr1 a i v = Err e -> e = OutOfBounds.
Proof. unfold wr1. case_match; congruence. Qed.

End VectorFacts.

Section GridFacts.
Context {A : Type}.
Implicit Types (g : grid A) (v : A).

Lemma dims_length g nx ny : dims nx ny g -> length g = Z.to_nat nx.
Proof. by intros [? _]. Qed.

Lemma dims_row g nx ny i row :
  dims nx ny g -> rd1 g i = Ok row -> length row = Z.to_nat ny.
Proof.
  intros [_ Hrows] [_ Hrow]%rd1_Ok.
  rewrite Forall_lookup in Hrows. by apply (Hrows _ _ Hrow).
Qed.

Lemma rd_in g nx ny i j :
  dims nx ny g -> 0 <= i < nx -> 0 <= j < ny -> is_Ok (rd g i j).
Proof.
  intros Hd Hi Hj. unfold rd.
  destruct (rd1_in g i) as [row Hrow]; [rewrite (dims_length _ _ _ Hd); lia |].
  rewrite Hrow. simpl. apply rd1_in.
  rewrite (dims_row _ _ _ _ _ Hd Hrow). lia.
Qed.

Lemma rd_out g nx ny i j :
  dims nx ny g -> ~ (0 <= i < nx /\ 0 <= j < ny) -> rd g i j = Err OutOfBounds.
Proof.
  intros Hd Hij. unfold rd.
  destruct (rd1 g i) as [row | e] eqn:Hrow; simpl.
  - apply rd1_out. rewrite (dims_row _ _ _ _ _ Hd Hrow).
    apply rd1_Ok in Hrow as [Hi Hrow]. apply lookup_lt_Some in Hrow.
    rewrite (dims_length _ _ _ Hd) in Hrow. lia.
  - unfold rd1 in Hrow. repeat case_match; by simplify_eq.
Qed.

Lemma rd_Ok_range g nx ny i j v :
  dims nx ny g -> rd g i j = Ok v -> 0 <= i < nx /\ 0 <= j < ny.
Proof.
  intros Hd Hv.
  destruct (decide (0 <= i < nx /\ 0 <= j < ny)) as [|Hn]; [done |].
  rewrite (rd_out _ _ _ _ _ Hd Hn) in Hv. discriminate.
Qed.

Lemma wr_in g nx ny i j v :
  dims nx ny g -> 0 <= i < nx -> 0 <= j < ny -> is_Ok (wr g i j v).
Proof.
  intros Hd Hi Hj. unfold wr.
  destruct (rd1_in g i) as [row Hrow]; [rewrite (dims_length _ _ _ Hd); lia |].
  rewrite Hrow. simpl.
  destruct (wr1_in row j v) as [row' Hrow'];
    [rewrite (dims_row _ _ _ _ _ Hd Hrow); lia |].
  rewrite Hrow'. simpl. apply wr1_in. rewrite (dims_length _ _ _ Hd). lia.
Qed.

Lemma wr_inv g i j v g' :
  wr g i j v = Ok g' ->
  exists row row', rd1 g i = Ok row /\ wr1 row j v = Ok row' /\ wr1 g i row' = Ok g'.
Proof.
  unfold wr. intros H.
  destruct (rd1 g i) as [row |] eqn:E1; [| discriminate]. simpl in H.
  destruct (wr1 row j v) as [row' |] eqn:E2; [| discriminate]. simpl in H.
  by exists row, row'.
Qed.

Lemma wr_dims g nx ny i j v g' :
  dims nx ny g -> wr g i j v = Ok g' -> dims nx ny g'.
Proof.
  intros Hd (row & row' & Hr & Hw & Hg)%wr_inv.
  pose proof (dims_row _ _ _ _ _ Hd Hr) as Hlen.
  destruct Hd as [Hl Hrows].
  apply wr1_Ok in Hg as [Hi ->]. split.
  - by rewrite length_insert.
  - apply Forall_insert; [done |]. by rewrite (wr1_length _ _ _ _ Hw).
Qed.

Lemma rd_wr_same g i j v g' : wr g i j v = Ok g' -> rd g' i j = Ok v.
Proof.
  intros (row & row' & Hr & Hw & Hg)%wr_inv. unfold rd.
  rewrite (rd1_wr1_same _ _ _ _ Hg). simpl. by apply (rd1_wr1_same row).
Qed.

Lemma rd_wr_other g i j v g' i' j' :
  wr g i j v = Ok g' -> (i', j') <> (i, j) -> rd g' i' j' = rd g i' j'.
Proof.
  intros (row & row' & Hr & Hw & Hg)%wr_inv Hne. unfold rd.
  destruct (decide (i' = i)) as [-> | Hi].
  - rewrite (rd1_wr1_same _ _ _ _ Hg), Hr. simpl.
    apply (rd1_wr1_other row j v); [done | congruence].
  - by rewrite (rd1_wr1_other _ _ _ _ _ Hg Hi).
Qed.

(** Two arrays of the same shape with the same cells are equal. *)
Lemma grid_ext g g' nx ny :
  dims nx ny g -> dims nx ny g' ->
  (forall i j, 0 <= i < nx -> 0 <= j < ny -> rd g' i j = rd g i j) ->
  g' = g.
Proof.
  intros Hd Hd' Hcells. apply list_eq. intros i.
  destruct (decide (i < length g)%nat) as [Hi | Hi].
  - destruct (lookup_lt_is_Some_2 g i Hi) as [row Hrow].
    destruct (lookup_lt_is_Some_2 g' i) as [row' Hrow'].
    { rewrite (dims_length _ _ _ Hd'), <- (dims_length _ _ _ Hd). done. }
    rewrite Hrow, Hrow'. f_equal.
    assert (Hr : rd1 g (Z.of_nat i) = Ok row).
    { apply rd1_Ok. rewrite Nat2Z.id. split; [lia | done]. }
    assert (Hr' : rd1 g' (Z.of_nat i) = Ok row').
    { apply rd1_Ok. rewrite Nat2Z.id. split; [lia | done]. }
    pose proof (dims_row _ _ _ _ _ Hd Hr) as Hlen.
    pose proof (dims_row _ _ _ _ _ Hd' Hr') as Hlen'.
    apply list_eq. intros j.
    destruct (decide (j < length row)%nat) as [Hj | Hj].
    + specialize (Hcells (Z.of_nat i) (Z.of_nat j)).
      unfold rd in Hcells. rewrite Hr, Hr' in Hcells. simpl in Hcells.
      unfold rd1 in Hcells.
      destruct (Z.leb_spec 0 (Z.of_nat j)); [| lia].
      rewrite Nat2Z.id in Hcells.
      rewrite (dims_length _ _ _ Hd) in Hi.
      destruct (lookup_lt_is_Some_2 row j Hj) as [x Hx].
      destruct (lookup_lt_is_Some_2 row' j) as [x' Hx']; [lia |].
      rewrite Hx, Hx' in Hcells |- *.
      assert (Ok x' = Ok x) as [= ->] by (apply Hcells; lia). done.
    + rewrite (lookup_ge_None_2 row j), (lookup_ge_None_2 row' j); [done | lia | lia].
  - rewrite (lookup_ge_None_2 g i), (lookup_ge_None_2 g' i); [done | | lia].
    rewrite (dims_length _ _ _ Hd'), <- (dims_length _ _ _ Hd). lia.
Qed.

Lemma dims_replicate nx ny v :
  0 <= nx -> 0 <= ny ->
  dims nx ny (replicate (Z.to_nat nx) (replicate (Z.to_nat ny) v)).
Proof.
  intros Hx Hy. split.
  - apply length_replicate.
  - apply Forall_replicate, length_replicate.
Qed.

Lemma rd_replicate nx ny v i j :
  0 <= i < nx -> 0 <= j < ny ->
  rd (replicate (Z.to_nat nx) (replicate (Z.to_nat ny) v)) i j = Ok v.
Proof.
  intros Hi Hj. unfold rd.
  assert (H1 : rd1 (replicate (Z.to_nat nx) (replicate (Z.to_nat ny) v)) i
               = Ok (replicate (Z.to_nat ny) v)).
  { apply rd1_Ok. split; [lia |]. apply lookup_replicate. split; [done | lia]. }
  rewrite H1. simpl. apply rd1_Ok. split; [lia |].
  apply lookup_replicate. split; [done | lia].
Qed.

Lemma rd_err g i j e : rd g i j = Err e -> e = OutOfBounds.
Proof.
  unfold rd. destruct (rd1 g i) eqn:E; simpl.
  - apply rd1_err.
  - intros [= <-]. by apply rd1_err in E.
Qed.

Lemma wr_err g i j v e : wr g i j v = Err e -> e = OutOfBounds.
Proof.
  unfold wr. destruct (rd1 g i) as [row |] eqn:E; simpl.
  - destruct (wr1 row j v) eqn:E'; simpl.
    + apply wr1_err.
    + intros [= <-]. by apply wr1_err in E'.
  - intros [= <-]. by apply rd1_err in E.
Qed.

End GridFacts.

Section LoopFacts.
Context {S : Type}.
Implicit Types (body : Z -> S -> result S) (s : S).

Lemma for_nat_inv (Inv : Z -> S -> Prop) n lo body s :
  Inv lo s ->
  (forall i s0, lo <= i < lo + Z.of_nat n -> Inv i s0 ->
     exists s1, body i s0 = Ok s1 /\ Inv (i + 1) s1) ->
  exists s', for_nat n lo body s = Ok s' /\ Inv (lo + Z.of_nat n) s'.
Proof.
  revert lo s. induction n as [| n IH]; intros lo s H0 Hstep.
  - exists s. split; [done |]. replace (lo + Z.of_nat 0) with lo by lia. exact H0.
  - destruct (Hstep lo s) as (s1 & Hb & H1); [lia | done |].
    destruct (IH (lo + 1) s1) as (s' & Hs' & HI); [done | |].
    + intros i s0 Hi. apply Hstep. lia.
    + exists s'. simpl. rewrite Hb. simpl. split; [done |].
      replace (lo + Z.of_nat (Datatypes.S n)) with (lo + 1 + Z.of_nat n) by lia.
      exact HI.
Qed.

(** The invariant rule of a [for] loop: the body keeps the invariant and
    does not fail, so the loop ends and the invariant holds at [hi]. *)
Lemma for_loop_inv (Inv : Z -> S -> Prop) lo hi body s :
  lo <= hi ->
  Inv lo s ->
  (forall i s0, lo <= i < hi -> Inv i s0 ->
     exists s1, body i s0 = Ok s1 /\ Inv (i + 1) s1) ->
  exists s', for_loop lo hi body s = Ok s' /\ Inv hi s'.
Proof.
  intros Hle H0 Hstep. unfold for_loop.
  destruct (for_nat_inv Inv (Z.to_nat (hi - lo)) lo body s) as (s' & Hs' & HI);
    [done | | ].
  - intros i s0 Hi. apply Hstep. lia.
  - exists s'. split; [done |].
    replace (lo + Z.of_nat (Z.to_nat (hi - lo))) with hi in HI by lia. exact HI.
Qed.

Lemma for_nat_err n lo body s k e :
  lo <= k < lo + Z.of_nat n ->
  (forall s0, body k s0 = Err e) ->
  (forall i s0 e', lo <= i < k -> body i s0 = Err e' -> e' = e) ->
  for_nat n lo body s = Err e.
Proof.
  revert lo s. induction n as [| n IH]; intros lo s Hk Hfail Hbefore; [lia |].
  simpl. destruct (decide (k = lo)) as [-> | Hne].
  - by rewrite Hfail.
  - destruct (body lo s) as [s1 | e'] eqn:Hb; simpl.
    + apply IH; [lia | done |]. intros i s0 e' Hi. apply Hbefore. lia.
    + f_equal. apply (Hbefore lo s); [lia | done].
Qed.

(** An iteration whose body fails in every state makes the loop fail,
    with the same error when the iterations before it can fail in no
    other way. *)
Lemma for_loop_err lo hi body s k e :
  lo <= k < hi ->
  (forall s0, body k s0 = Err e) ->
  (forall i s0 e', lo <= i < k -> body i s0 = Err e' -> e' = e) ->
  for_loop lo hi body s = Err e.
Proof.
  intros Hk Hfail Hbefore. unfold for_loop.
  apply (for_nat_err _ _ _ _ k); [lia | done | done].
Qed.

Lemma for_nat_ext n lo body body' s :
  (forall i s0, lo <= i < lo + Z.of_nat n -> body i s0 = body' i s0) ->
  for_nat n lo body s = for_nat n lo body' s.
Proof.
  revert lo s. induction n as [| n IH]; intros lo s Heq; [done |].
  simpl. rewrite Heq by lia. destruct (body' lo s); simpl; [| done].
  apply IH. intros i s0 Hi. apply Heq. lia.
Qed.

Lemma for_loop_ext lo hi body body' s :
  (forall i s0, lo <= i < hi -> body i s0 = body' i s0) ->
  for_loop lo hi body s = for_loop lo hi body' s.
Proof.
  intros Heq. unfold for_loop. apply for_nat_ext.
  intros i s0 Hi. apply Heq. lia.
Qed.

(** The rule of a [while] loop with a variant: the fuel covers the
    variant, so the loop ends by its condition and never by the fuel. *)
Lemma while_loop_inv (Inv : S -> Prop) (variant : S -> nat) fuel
  (cond : S -> result bool) (step : S -> result S) s :
  Inv s ->
  (variant s <= fuel)%nat ->
  (forall s0, Inv s0 ->
     exists c, cond s0 = Ok c
       /\ (c = true -> exists s1, step s0 = Ok s1 /\ Inv s1
                                  /\ (variant s1 < variant s0)%nat)) ->
  exists s', while_loop fuel cond step s = Ok s' /\ Inv s' /\ cond s' = Ok false.
Proof.
  intros H0 Hfuel Hstep. revert s H0 Hfuel.
  induction fuel as [| fuel IH]; intros s H0 Hfuel.
  - destruct (Hstep s H0) as (c & Hc & Hbody). simpl. rewrite Hc. simpl.
    destruct c.
    + destruct Hbody as (s1 & _ & _ & Hlt); [done | lia].
    + by exists s.
  - destruct (Hstep s H0) as (c & Hc & Hbody). simpl. rewrite Hc. simpl.
    destruct c.
    + destruct Hbody as (s1 & Hb & H1 & Hlt); [done |]. rewrite Hb. simpl.
      apply IH; [done | lia].
    + by exists s.
Qed.

Lemma for_loop_first_err lo hi body s e :
  lo < hi -> body lo s = Err e -> for_loop lo hi body s = Err e.
Proof.
  intros Hlt Hb. unfold for_loop.
  destruct (Z.to_nat (hi - lo)) as [| n] eqn:E; [lia |].
  simpl. by rewrite Hb.
Qed.

End LoopFacts.

(** ** Runs that fail by an access out of bounds only *)

Section SafeFacts.

Lemma safe_or_Ok {A : Type} (P : A -> Prop) (a : A) : P a -> safe_or P (Ok a).
Proof. intros HP. right. by exists a. Qed.

Lemma safe_or_mono {A : Type} (P Q : A -> Prop) (m : result A) :
  safe_or P m -> (forall a, P a -> Q a) -> safe_or Q m.
Proof.
  intros [-> | (a & -> & HP)] HPQ; [by left |]. right. exists a. auto.
Qed.

Lemma safe_or_bind {A B : Type} (P : A -> Prop) (Q : B -> Prop)
  (m : result A) (k : A -> result B) :
  safe_or P m -> (forall a, P a -> safe_or Q (k a)) -> safe_or Q (bind m k).
Proof.
  intros [-> | (a & -> & HP)] Hk; [by left |]. simpl. by apply Hk.
Qed.

Lemma safe_or_rd1 {A : Type} (a : list A) i : safe_or (fun _ => True) (rd1 a i).
Proof.
  destruct (rd1 a i) as [v | e] eqn:E.
  - by apply safe_or_Ok.
  - left. f_equal. by apply rd1_err in E.
Qed.

Lemma safe_or_wr1 {A : Type} (a : list A) i v :
  safe_or (fun a' => length a' = length a) (wr1 a i v).
Proof.
  destruct (wr1 a i v) as [a' | e] eqn:E.
  - apply safe_or_Ok. by apply wr1_length in E.
  - left. f_equal. by apply wr1_err in E.
Qed.

Lemma safe_or_rd {A : Type} (g : grid A) i j : safe_or (fun _ => True) (rd g i j).
Proof.
  destruct (rd g i j) as [v | e] eqn:E.
  - by apply safe_or_Ok.
  - left. f_equal. by apply rd_err in E.
Qed.

Lemma for_nat_safe {S : Type} (Inv : Z -> S -> Prop) n lo
  (body : Z -> S -> result S) s :
  Inv lo s ->
  (forall i s0, lo <= i < lo + Z.of_nat n -> Inv i s0 ->
     safe_or (Inv (i + 1)) (body i s0)) ->
  safe_or (Inv (lo + Z.of_nat n)) (for_nat n lo body s).
Proof.
  revert lo s. induction n as [| n IH]; intros lo s H0 Hstep.
  - apply safe_or_Ok. by replace (lo + Z.of_nat 0) with lo by lia.
  - simpl. apply (safe_or_bind (Inv (lo + 1))).
    + apply Hstep; [lia | done].
    + intros s1 H1.
      replace (lo + Z.of_nat (Datatypes.S n)) with (lo + 1 + Z.of_nat n) by lia.
      apply IH; [done |]. intros i s0 Hi. apply Hstep. lia.
Qed.

Lemma for_loop_safe {S : Type} (Inv : Z -> S -> Prop) lo hi
  (body : Z -> S -> result S) s :
  lo <= hi ->
  Inv lo s ->
  (forall i s0, lo <= i < hi -> Inv i s0 -> safe_or (Inv (i + 1)) (body i s0)) ->
  safe_or (Inv hi) (for_loop lo hi body s).
Proof.
  intros Hle H0 Hstep. unfold for_loop.
  replace hi with (lo + Z.of_nat (Z.to_nat (hi - lo))) at 1 by lia.
  apply for_nat_safe; [done |]. intros i s0 Hi. apply Hstep. lia.
Qed.

(** A [while] loop whose variant the fuel covers does not stop on the
    fuel, even when its condition or its body can fail. *)
Lemma while_loop_safe {S : Type} (Inv : S -> Prop) (variant : S -> nat) fuel
  (cond : S -> result bool) (step : S -> result S) s :
  Inv s ->
  (variant s <= fuel)%nat ->
  (forall s0, Inv s0 ->
     safe_or (fun c => c = true ->
                (0 < variant s0)%nat
                /\ safe_or (fun s1 => Inv s1 /\ (variant s1 < variant s0)%nat)
                     (step s0)) (cond s0)) ->
  safe_or Inv (while_loop fuel cond step s).
Proof.
  intros H0 Hfuel Hstep. revert s H0 Hfuel.
  induction fuel as [| fuel IH]; intros s H0 Hfuel; simpl.
  - destruct (Hstep s H0) as [-> | (c & -> & Hc)]; [by left |]. simpl.
    destruct c; [| by apply safe_or_Ok].
    destruct (Hc eq_refl) as [Hpos _]. lia.
  - destruct (Hstep s H0) as [-> | (c & -> & Hc)]; [by left |]. simpl.
    destruct c; [| by apply safe_or_Ok].
    destruct (Hc eq_refl) as [_ Hs].
    apply (safe_or_bind (fun s1 => Inv s1 /\ (variant s1 < variant s)%nat));
      [done |].
    intros s1 [H1 Hlt]. apply IH; [done | lia].
Qed.

End SafeFacts.

(** A read, in a run that is shown to fail by its accesses only: the
    read either fails out of bounds or gives a value [x]. *)
Tactic Notation "safe_read" ident(x) :=
  apply (safe_or_bind (fun _ => True));
  [first [apply safe_or_rd | apply safe_or_rd1] | intros x _].

(** ** Facts on nested loops over the grid *)

Section GridLoop.
Context {S : Type}.

(** The invariant rule for [for (i...) for (j...) body]. *)
Lemma grid_loop_inv (Inv : Z -> Z -> S -> Prop) (li lj nx ny : Z)
  (body : Z -> Z -> S -> result S) (s : S) :
  li <= nx -> lj <= ny ->
  Inv li lj s ->
  (forall i j s0, li <= i < nx -> lj <= j < ny -> Inv i j s0 ->
     exists s1, body i j s0 = Ok s1 /\ Inv i (j + 1) s1) ->
  (forall i s0, li <= i < nx -> Inv i ny s0 -> Inv (i + 1) lj s0) ->
  exists s', for_loop li nx (fun i => for_loop lj ny (fun j => body i j)) s = Ok s'
             /\ Inv nx lj s'.
Proof.
  intros Hi Hj H0 Hcell Hrow.
  apply (for_loop_inv (fun i s0 => Inv i lj s0)); [done | done |].
  intros i s0 Hir HI.
  destruct (for_loop_inv (fun j s1 => Inv i j s1) lj ny (fun j => body i j) s0)
    as (s1 & Hs1 & HI1); [done | done | |].
  - intros j s1 Hjr. by apply Hcell.
  - exists s1. split; [done |]. by apply Hrow.
Qed.

(** The same for a property of the state that no cell depends on. *)
Lemma grid_loop_pres (P : S -> Prop) (li lj nx ny : Z)
  (body : Z -> Z -> S -> result S) (s : S) :
  li <= nx -> lj <= ny ->
  P s ->
  (forall i j s0, li <= i < nx -> lj <= j < ny -> P s0 ->
     exists s1, body i j s0 = Ok s1 /\ P s1) ->
  exists s', for_loop li nx (fun i => for_loop lj ny (fun j => body i j)) s = Ok s'
             /\ P s'.
Proof.
  intros Hi Hj H0 Hcell.
  apply (grid_loop_inv (fun _ _ s0 => P s0)); auto.
Qed.

End GridLoop.

(** ** Facts on the stencil step *)

Section EvolveFacts.
Context {T : Type} `{Arith T}.
Variables (NX NY : Z).
Variable B_COND : bc_policy.
Variable FLOOR : bool.
Variables (VMAX SPEED : T).
Variables (intstep intstep1 : T).
Variable delta2 : Z -> Z -> T.

Local Abbreviation grid_size_ok := (grid_size_ok NX NY B_COND).
Local Abbreviation neighbours := (neighbours NX NY B_COND).
Local Abbreviation stencil_value :=
  (stencil_value NX NY B_COND SPEED intstep intstep1 delta2).
Local Abbreviation evolve_store :=
  (evolve_store NX NY B_COND SPEED intstep intstep1 delta2).
Local Abbreviation floor_clamp := (floor_clamp FLOOR VMAX).
Local Abbreviation evolve_cell :=
  (evolve_cell NX NY B_COND FLOOR VMAX SPEED intstep intstep1 delta2).
Local Abbreviation evolve_wave :=
  (evolve_wave NX NY B_COND FLOOR VMAX SPEED intstep intstep1 delta2).

Lemma neighbours_range i j iplus iminus jplus jminus :
  0 <= i < NX -> 0 <= j < NY ->
  neighbours i j = (iplus, iminus, jplus, jminus) ->
  0 <= iplus < NX /\ 0 <= iminus < NX /\ 0 <= jplus < NY /\ 0 <= jminus < NY.
Proof.
  intros Hi Hj. unfold neighbours.
  destruct B_COND.
  - intros [= <- <- <- <-]. repeat case_match; lia.
  - intros [= <- <- <- <-].
    pose proof (Z.rem_bound_pos (i + 1) NX ltac:(lia) ltac:(lia)).
    pose proof (Z.rem_bound_pos (j + 1) NY ltac:(lia) ltac:(lia)).
    assert (Hr : forall k n, 0 <= k < n -> 0 <= (if Z.rem (k - 1) n <? 0
                 then Z.rem (k - 1) n + n else Z.rem (k - 1) n) < n).
    { intros k n Hk. destruct (decide (k = 0)) as [-> | Hk0].
      - pose proof (Z.rem_bound_pos_neg (0 - 1) n ltac:(lia) ltac:(lia)).
        case_match; lia.
      - pose proof (Z.rem_bound_pos (k - 1) n ltac:(lia) ltac:(lia)).
        case_match; lia. }
    pose proof (Hr i NX Hi). pose proof (Hr j NY Hj). lia.
  - intros [= <- <- <- <-]. repeat case_match; lia.
Qed.

Lemma stencil_value_in (phi : grid T) i j :
  grid_size_ok -> dims NX NY phi -> 0 <= i < NX -> 0 <= j < NY ->
  is_Ok (stencil_value phi i j).
Proof.
  intros (Hx & Hy & Habs) Hd Hi Hj. unfold stencil_value.
  destruct (neighbours i j) as [[[iplus iminus] jplus] jminus] eqn:Hn.
  destruct (neighbours_range _ _ _ _ _ _ Hi Hj Hn) as (Hip & Him & Hjp & Hjm).
  destruct (rd_in phi NX NY iplus j Hd Hip Hj) as [a ->].
  destruct (rd_in phi NX NY iminus j Hd Him Hj) as [b ->].
  destruct (rd_in phi NX NY i jplus Hd Hi Hjp) as [c ->].
  destruct (rd_in phi NX NY i jminus Hd Hi Hjm) as [d ->].
  destruct (rd_in phi NX NY i j Hd Hi Hj) as [x ->]. simpl.
  destruct B_COND; simpl; try by eexists.
  destruct Habs as [Hx1 Hy1]; [done |].
  repeat case_match; try (by eexists);
    match goal with
    | |- is_Ok (bind (rd phi ?k ?l) _) =>
        destruct (rd_in phi NX NY k l Hd ltac:(lia) ltac:(lia)) as [p ->];
        by eexists
    end.
Qed.

(** [evolve_store] assigns [stencil_value] to [newphi[i][j]]. *)
Lemma evolve_store_value (phi newphi : grid T) i j :
  0 <= i < NX -> 0 <= j < NY ->
  evolve_store phi newphi i j = (v <- stencil_value phi i j ;; wr newphi i j v).
Proof.
  intros Hi Hj. unfold evolve_store, stencil_value.
  destruct (neighbours i j) as [[[iplus iminus] jplus] jminus].
  destruct (rd phi iplus j); [simpl | done].
  destruct (rd phi iminus j); [simpl | done].
  destruct (rd phi i jplus); [simpl | done].
  destruct (rd phi i jminus); [simpl | done].
  destruct (rd phi i j); [simpl | done].
  destruct (negb (bc_eqb B_COND BC_ABSORBING)); [done |].
  destruct ((0 <? i) && (i <? NX - 1) && (0 <? j) && (j <? NY - 1)) eqn:Hb; [done |].
  destruct (i =? NX - 1) eqn:E1; [by destruct (rd phi (i - 1) j) |].
  destruct (j =? NY - 1) eqn:E2; [by destruct (rd phi i (j - 1)) |].
  destruct (i =? 0) eqn:E3; [by destruct (rd phi 1 j) |].
  destruct (j =? 0) eqn:E4; [by destruct (rd phi i 1) |].
  rewrite !andb_false_iff, !Z.ltb_ge in Hb. lia.
Qed.

Lemma floor_clamp_step (phi newphi : grid T) i j :
  dims NX NY phi -> dims NX NY newphi -> 0 <= i < NX -> 0 <= j < NY ->
  exists phi', floor_clamp i j phi newphi = Ok phi'
    /\ dims NX NY phi'
    /\ (forall a b, (a, b) <> (i, j) -> rd phi' a b = rd phi a b)
    /\ (FLOOR = false -> phi' = phi).
Proof.
  intros Hd Hdn Hi Hj. unfold floor_clamp.
  destruct FLOOR; [| by exists phi].
  destruct (rd_in newphi NX NY i j Hdn Hi Hj) as [v ->]. simpl.
  assert (Hup : exists phi1, (if (VMAX <? v)%F then wr phi i j VMAX else Ok phi) = Ok phi1
            /\ dims NX NY phi1
            /\ (forall a b, (a, b) <> (i, j) -> rd phi1 a b = rd phi a b)).
  { destruct (VMAX <? v)%F.
    - destruct (wr_in phi NX NY i j VMAX Hd Hi Hj) as [phi1 Hw].
      exists phi1. split; [done |]. split; [by apply (wr_dims phi NX NY i j VMAX) |].
      intros a b Hab. by apply (rd_wr_other phi i j VMAX).
    - by exists phi. }
  destruct Hup as (phi1 & -> & Hd1 & Hf1). simpl.
  destruct (v <? - VMAX)%F.
  - destruct (wr_in phi1 NX NY i j (- VMAX)%F Hd1 Hi Hj) as [phi2 Hw].
    exists phi2. split; [done |].
    split; [by apply (wr_dims phi1 NX NY i j (- VMAX)%F) |].
    split; [| done]. intros a b Hab.
    rewrite (rd_wr_other phi1 i j (- VMAX)%F phi2 a b Hw Hab). by apply Hf1.
  - exists phi1. split; [done |]. split; [done |]. split; [done |].
    intros ?; discriminate.
Qed.

(** One cell of the first pass. *)
Lemma evolve_cell_step (xy_in : grid Z) (phi newphi : grid T) i j :
  grid_size_ok ->
  dims NX NY xy_in -> dims NX NY phi -> dims NX NY newphi ->
  0 <= i < NX -> 0 <= j < NY ->
  exists phi' newphi',
    evolve_cell xy_in i j (phi, newphi) = Ok (phi', newphi')
    /\ dims NX NY phi' /\ dims NX NY newphi'
    /\ (forall a b, (a, b) <> (i, j) ->
          rd phi' a b = rd phi a b /\ rd newphi' a b = rd newphi a b)
    /\ (rd xy_in i j <> Ok 1 -> phi' = phi /\ newphi' = newphi)
    /\ (FLOOR = false -> phi' = phi)
    /\ (rd xy_in i j = Ok 1 -> rd newphi' i j = stencil_value phi i j).
Proof.
  intros Hsz Hds Hd Hdn Hi Hj. unfold evolve_cell.
  destruct (rd_in xy_in NX NY i j Hds Hi Hj) as [s Hs]. rewrite Hs. simpl.
  destruct (Z.eqb_spec s 1) as [-> | Hs1].
  - rewrite (evolve_store_value phi newphi i j Hi Hj).
    destruct (stencil_value_in phi i j Hsz Hd Hi Hj) as [v Hv]. rewrite Hv. simpl.
    destruct (wr_in newphi NX NY i j v Hdn Hi Hj) as [newphi' Hw]. rewrite Hw. simpl.
    pose proof (wr_dims newphi NX NY i j v newphi' Hdn Hw) as Hdn'.
    destruct (floor_clamp_step phi newphi' i j Hd Hdn' Hi Hj)
      as (phi' & -> & Hd' & Hf & Hfl). simpl.
    exists phi', newphi'. split_and!; try done.
    + intros a b Hab. split; [by apply Hf | by apply (rd_wr_other newphi i j v)].
    + intros _. by apply (rd_wr_same newphi i j v).
  - exists phi, newphi. split_and!; try done. intros [= ?]. done.
Qed.

Lemma commit_cell_step (xy_in : grid Z) (newphi phi : grid T) i j :
  dims NX NY xy_in -> dims NX NY newphi -> dims NX NY phi ->
  0 <= i < NX -> 0 <= j < NY ->
  exists phi', commit_cell xy_in newphi i j phi = Ok phi'
    /\ dims NX NY phi'
    /\ (forall a b, (a, b) <> (i, j) -> rd phi' a b = rd phi a b)
    /\ (rd xy_in i j <> Ok 1 -> phi' = phi)
    /\ (rd xy_in i j = Ok 1 -> rd phi' i j = rd newphi i j).
Proof.
  intros Hds Hdn Hd Hi Hj. unfold commit_cell.
  destruct (rd_in xy_in NX NY i j Hds Hi Hj) as [s Hs]. rewrite Hs. simpl.
  destruct (Z.eqb_spec s 1) as [-> | Hs1].
  - destruct (rd_in newphi NX NY i j Hdn Hi Hj) as [v Hv]. rewrite Hv. simpl.
    destruct (wr_in phi NX NY i j v Hd Hi Hj) as [phi' Hw]. exists phi'.
    split_and!; try done.
    + by apply (wr_dims phi NX NY i j v).
    + intros a b Hab. by apply (rd_wr_other phi i j v).
    + intros _. by apply (rd_wr_same phi i j v).
  - exists phi. split_and!; try done. intros [= ?]. done.
Qed.

(** The first pass, whatever [FLOOR]: it ends, and touches [phi] at
    cells of status 1 only. *)
Lemma first_pass_frame (xy_in : grid Z) (phi newphi : grid T) :
  grid_size_ok ->
  dims NX NY xy_in -> dims NX NY phi -> dims NX NY newphi ->
  exists st,
    for_loop 0 NX (fun i => for_loop 0 NY (fun j => evolve_cell xy_in i j))
      (phi, newphi) = Ok st
    /\ dims NX NY (fst st) /\ dims NX NY (snd st)
    /\ (forall a b, rd xy_in a b <> Ok 1 -> rd (fst st) a b = rd phi a b).
Proof.
  intros Hsz Hds Hd Hdn.
  pose proof Hsz as (Hx & Hy & _).
  apply (grid_loop_pres (fun st : grid T * grid T =>
           dims NX NY (fst st) /\ dims NX NY (snd st)
           /\ (forall a b, rd xy_in a b <> Ok 1 -> rd (fst st) a b = rd phi a b)));
    [lia | lia | done |].
  intros i j [p n] Hi Hj (Hp & Hn & Hfr). simpl in *.
  destruct (evolve_cell_step xy_in p n i j Hsz Hds Hp Hn Hi Hj)
    as (p' & n' & -> & Hp' & Hn' & Hoth & Hskip & _ & _).
  exists (p', n'). simpl. split_and!; try done.
  intros a b Hab. destruct (decide ((a, b) = (i, j))) as [[= -> ->] | Hne].
  - destruct (Hskip Hab) as [-> _]. by apply Hfr.
  - destruct (Hoth a b Hne) as [-> _]. by apply Hfr.
Qed.

(** The second pass copies [newphi] into [phi] at the cells of status 1
    and leaves the others. *)
Lemma commit_pass_values (xy_in : grid Z) (newphi phi : grid T) :
  0 < NX -> 0 < NY ->
  dims NX NY xy_in -> dims NX NY newphi -> dims NX NY phi ->
  exists phi',
    for_loop 0 NX (fun i => for_loop 0 NY (fun j => commit_cell xy_in newphi i j))
      phi = Ok phi'
    /\ dims NX NY phi'
    /\ (forall a b, rd xy_in a b = Ok 1 -> rd phi' a b = rd newphi a b)
    /\ (forall a b, rd xy_in a b <> Ok 1 -> rd phi' a b = rd phi a b).
Proof.
  intros Hx Hy Hds Hdn Hd.
  destruct (grid_loop_inv (fun i j p =>
      dims NX NY p
      /\ (forall a b, rd xy_in a b = Ok 1 -> before i j a b ->
            rd p a b = rd newphi a b)
      /\ (forall a b, rd xy_in a b <> Ok 1 \/ ~ before i j a b ->
            rd p a b = rd phi a b))
    0 0 NX NY (fun i j => commit_cell xy_in newphi i j) phi)
    as (phi' & Hrun & Hd' & Hin & Hout); [lia | lia | | | |].
  - split_and!; [done | | done].
    intros a b Hs Hb. apply (rd_Ok_range _ _ _ _ _ _ Hds) in Hs.
    unfold before in Hb. lia.
  - intros i j p Hi Hj (Hp & Hin & Hout).
    destruct (commit_cell_step xy_in newphi p i j Hds Hdn Hp Hi Hj)
      as (p' & -> & Hp' & Hoth & Hskip & Hset).
    exists p'. split_and!; try done.
    + intros a b Hs Hb. destruct (decide ((a, b) = (i, j))) as [[= -> ->] | Hne].
      * by apply Hset.
      * rewrite (Hoth a b Hne). apply Hin; [done |].
        unfold before in *. assert (~ (a = i /\ b = j)) by (intros [-> ->]; done). lia.
    + intros a b Hs. destruct (decide ((a, b) = (i, j))) as [[= -> ->] | Hne].
      * destruct Hs as [Hs | Hs]; [| unfold before in Hs; lia].
        rewrite (Hskip Hs). apply Hout. by left.
      * rewrite (Hoth a b Hne). apply Hout.
        destruct Hs as [Hs | Hs]; [by left | right].
        unfold before in *. lia.
  - intros i p Hi (Hp & Hin & Hout). split_and!; try done.
    + intros a b Hs Hb. apply Hin; [done |].
      apply (rd_Ok_range _ _ _ _ _ _ Hds) in Hs. unfold before in *. lia.
    + intros a b Hs. apply Hout.
      destruct Hs as [Hs | Hs]; [by left | right]. unfold before in *. lia.
  - exists phi'. split_and!; try done.
    + intros a b Hs. apply Hin; [done |].
      apply (rd_Ok_range _ _ _ _ _ _ Hds) in Hs. unfold before. lia.
    + intros a b Hs. apply Hout. by left.
Qed.

(** With [FLOOR] off the first pass leaves [phi] alone and fills
    [newphi] with the stencil values of the cells of status 1. *)
Lemma first_pass_values (xy_in : grid Z) (phi newphi : grid T) :
  FLOOR = false ->
  grid_size_ok ->
  dims NX NY xy_in -> dims NX NY phi -> dims NX NY newphi ->
  exists newphi',
    for_loop 0 NX (fun i => for_loop 0 NY (fun j => evolve_cell xy_in i j))
      (phi, newphi) = Ok (phi, newphi')
    /\ dims NX NY newphi'
    /\ (forall a b, rd xy_in a b = Ok 1 -> rd newphi' a b = stencil_value phi a b).
Proof.
  intros Hfl Hsz Hds Hd Hdn. pose proof Hsz as (Hx & Hy & _).
  destruct (grid_loop_inv (fun i j (st : grid T * grid T) =>
      fst st = phi /\ dims NX NY (snd st)
      /\ (forall a b, rd xy_in a b = Ok 1 -> before i j a b ->
            rd (snd st) a b = stencil_value phi a b))
    0 0 NX NY (fun i j => evolve_cell xy_in i j) (phi, newphi))
    as ([p n] & Hrun & Hp & Hn & Hval); [lia | lia | | | |].
  - split_and!; [done | done |].
    intros a b Hs Hb. apply (rd_Ok_range _ _ _ _ _ _ Hds) in Hs.
    unfold before in Hb. lia.
  - intros i j [p n] Hi Hj (Hp & Hn & Hval). simpl in *. subst p.
    destruct (evolve_cell_step xy_in phi n i j Hsz Hds Hd Hn Hi Hj)
      as (p' & n' & -> & Hp' & Hn' & Hoth & Hskip & Hsame & Hset).
    exists (p', n'). simpl. split_and!; [done | by apply Hsame | done |].
    intros a b Hs Hb. destruct (decide ((a, b) = (i, j))) as [[= -> ->] | Hne].
    + by apply Hset.
    + destruct (Hoth a b Hne) as [_ ->]. apply Hval; [done |].
      unfold before in *. assert (~ (a = i /\ b = j)) by (intros [-> ->]; done). lia.
  - intros i [p n] Hi (Hp & Hn & Hval). split_and!; try done.
    intros a b Hs Hb. apply Hval; [done |].
    apply (rd_Ok_range _ _ _ _ _ _ Hds) in Hs. unfold before in *. lia.
  - simpl in *. subst p. exists n. split_and!; try done.
    intros a b Hs. apply Hval; [done |].
    apply (rd_Ok_range _ _ _ _ _ _ Hds) in Hs. unfold before. lia.
Qed.

(** What one step computes when [FLOOR] is off: the stencil value of
    the old field at every cell of status 1, the old value elsewhere. *)
Lemma evolve_wave_values (xy_in : grid Z) (phi newphi : grid T) :
  FLOOR = false ->
  grid_size_ok ->
  dims NX NY xy_in -> dims NX NY phi -> dims NX NY newphi ->
  exists phi',
    evolve_wave phi xy_in newphi = Ok phi'
    /\ dims NX NY phi'
    /\ (forall a b, rd xy_in a b = Ok 1 -> rd phi' a b = stencil_value phi a b)
    /\ (forall a b, rd xy_in a b <> Ok 1 -> rd phi' a b = rd phi a b).
Proof.
  intros Hfl Hsz Hds Hd Hdn. pose proof Hsz as (Hx & Hy & _).
  destruct (first_pass_values xy_in phi newphi Hfl Hsz Hds Hd Hdn)
    as (newphi' & Hrun & Hdn' & Hval).
  destruct (commit_pass_values xy_in newphi' phi Hx Hy Hds Hdn' Hd)
    as (phi' & Hrun' & Hd' & Hin & Hout).
  exists phi'. unfold evolve_wave. rewrite Hrun. simpl.
  split_and!; try done. intros a b Hs. rewrite (Hin a b Hs). by apply Hval.
Qed.

(** With the clamp off, every cell of status 1 is updated from the field
    as it was before the call: the stencil reads a snapshot, and the
    order in which the cells are visited does not matter. *)
Theorem evolve_wave_reads_snapshot (xy_in : grid Z) (phi newphi : grid T) :
  FLOOR = false ->
  grid_size_ok ->
  dims NX NY xy_in -> dims NX NY phi -> dims NX NY newphi ->
  exists phi',
    evolve_wave phi xy_in newphi = Ok phi'
    /\ (forall a b, rd xy_in a b = Ok 1 -> rd phi' a b = stencil_value phi a b).
Proof.
  intros Hfl Hsz Hds Hd Hdn.
  destruct (evolve_wave_values xy_in phi newphi Hfl Hsz Hds Hd Hdn)
    as (phi' & Hrun & _ & Hin & _).
  by exists phi'.
Qed.

(** C2. For every field and status grid, whatever the boundary policy
    and the [FLOOR] switch, one call of [evolve_wave] returns, and every
    cell whose status is not 1 (status 0, status 2 and above) holds the
    value it held before the call. *)
Theorem evolve_wave_frame (xy_in : grid Z) (phi newphi : grid T) :
  grid_size_ok ->
  dims NX NY xy_in -> dims NX NY phi -> dims NX NY newphi ->
  exists phi',
    evolve_wave phi xy_in newphi = Ok phi'
    /\ dims NX NY phi'
    /\ (forall a b s, rd xy_in a b = Ok s -> s <> 1 -> rd phi' a b = rd phi a b).
Proof.
  intros Hsz Hds Hd Hdn. pose proof Hsz as (Hx & Hy & _).
  destruct (first_pass_frame xy_in phi newphi Hsz Hds Hd Hdn)
    as ([p n] & Hrun & Hp & Hn & Hfr). simpl in *.
  destruct (commit_pass_values xy_in n p Hx Hy Hds Hn Hp)
    as (phi' & Hrun' & Hd' & _ & Hout).
  exists phi'. unfold evolve_wave. rewrite Hrun. simpl.
  split_and!; try done.
  intros a b s Hs Hs1.
  assert (Hne : rd xy_in a b <> Ok 1) by (rewrite Hs; intros [= ?]; done).
  rewrite (Hout a b Hne). by apply Hfr.
Qed.

End EvolveFacts.

Section UniformStep.
Context {T : Type} `{Arith T}.
Variables (NX NY : Z).
Variables (VMAX SPEED : T).
Variables (intstep intstep1 : T).
Variable delta2 : Z -> Z -> T.

Local Abbreviation uniform_update_ok := (uniform_update_ok SPEED intstep).

Lemma stencil_value_uniform (phi : grid T) (c : T) i j :
  uniform_update_ok c ->
  (forall a b, 0 <= a < NX -> 0 <= b < NY -> rd phi a b = Ok c) ->
  0 <= i < NX -> 0 <= j < NY ->
  stencil_value NX NY BC_DIRICHLET SPEED intstep intstep1 delta2 phi i j = Ok c.
Proof.
  intros Hupd Hc Hi Hj. unfold stencil_value.
  destruct (neighbours NX NY BC_DIRICHLET i j)
    as [[[iplus iminus] jplus] jminus] eqn:Hn.
  destruct (neighbours_range _ _ _ _ _ _ _ _ _ Hi Hj Hn) as (Hip & Him & Hjp & Hjm).
  rewrite !Hc by done. simpl. f_equal. exact Hupd.
Qed.

(** A uniform field is a fixed point of the Dirichlet step as soon as
    the update of one cell is: the clamped neighbours of every cell,
    edges and corners included, are cells of the grid. *)
Lemma evolve_wave_uniform (xy_in : grid Z) (phi newphi : grid T) (c : T) :
  uniform_update_ok c ->
  0 < NX -> 0 < NY ->
  dims NX NY xy_in -> dims NX NY phi -> dims NX NY newphi ->
  (forall a b, 0 <= a < NX -> 0 <= b < NY -> rd phi a b = Ok c) ->
  evolve_wave NX NY BC_DIRICHLET false VMAX SPEED intstep intstep1 delta2
    phi xy_in newphi = Ok phi.
Proof.
  intros Hupd Hx Hy Hds Hd Hdn Hc.
  destruct (evolve_wave_values NX NY BC_DIRICHLET false VMAX SPEED intstep intstep1
              delta2 xy_in phi newphi) as (phi' & -> & Hd' & Hin & Hout);
    [done | by split_and! | done | done | done |].
  f_equal. apply (grid_ext phi phi' NX NY Hd Hd').
  intros i j Hi Hj.
  destruct (rd_in xy_in NX NY i j Hds Hi Hj) as [s Hs].
  destruct (decide (s = 1)) as [-> | Hs1].
  - rewrite (Hin i j Hs), (Hc i j Hi Hj). by apply stencil_value_uniform.
  - apply Hout. rewrite Hs. intros [= ?]. done.
Qed.

End UniformStep.

Section UniformField.
Context {T : Type} `{Arith T} `{!ExactArith T}.
Variables (NX NY : Z).
Variables (VMAX SPEED : T).
Variables (intstep intstep1 : T).
Variable delta2 : Z -> Z -> T.

Add Ring exact_ring : ea_ring.

Lemma of_int_4 (x : T) : (of_int 4 * x = x + x + x + x)%F.
Proof.
  change 4 with (1 + (1 + (1 + 1))). rewrite !ea_of_int_add. ring.
Qed.


End UniformField.

Section UniformConverse.
Context {T : Type} `{Arith T}.
Variables (NX NY : Z).
Variables (VMAX SPEED : T).
Variables (intstep intstep1 : T).
Variable delta2 : Z -> Z -> T.


End UniformConverse.


Section AbsorbingStep.
Context {T : Type} `{Arith T}.
Variables (NX NY : Z).
Variables (VMAX SPEED : T).
Variables (intstep intstep1 : T).
Variable delta2 : Z -> Z -> T.

(** Inside the grid the absorbing branch reads the local [delta2] and
    no neighbour. *)
Local Abbreviation inward := (inward NX NY).

Lemma stencil_value_absorbing_bulk (phi : grid T) i j x :
  dims NX NY phi -> 0 < i < NX - 1 -> 0 < j < NY - 1 ->
  rd phi i j = Ok x ->
  stencil_value NX NY BC_ABSORBING SPEED intstep intstep1 delta2 phi i j
  = Ok (x - intstep * delta2 i j)%F.
Proof.
  intros Hd Hi Hj Hx. unfold stencil_value.
  destruct (neighbours NX NY BC_ABSORBING i j)
    as [[[iplus iminus] jplus] jminus] eqn:Hn.
  destruct (neighbours_range NX NY BC_ABSORBING i j _ _ _ _
              ltac:(lia) ltac:(lia) Hn) as (Hip & Him & Hjp & Hjm).
  destruct (rd_in phi NX NY iplus j Hd Hip ltac:(lia)) as [a ->].
  destruct (rd_in phi NX NY iminus j Hd Him ltac:(lia)) as [b ->].
  destruct (rd_in phi NX NY i jplus Hd ltac:(lia) Hjp) as [c ->].
  destruct (rd_in phi NX NY i jminus Hd ltac:(lia) Hjm) as [d ->].
  rewrite Hx. simpl.
  destruct (Z.ltb_spec 0 i), (Z.ltb_spec i (NX - 1)), (Z.ltb_spec 0 j),
    (Z.ltb_spec j (NY - 1)); try lia. done.
Qed.

Lemma stencil_value_absorbing_border (phi : grid T) i j x p :
  dims NX NY phi -> 0 <= i < NX -> 0 <= j < NY ->
  ~ (0 < i < NX - 1 /\ 0 < j < NY - 1) ->
  rd phi i j = Ok x ->
  rd phi (fst (inward i j)) (snd (inward i j)) = Ok p ->
  stencil_value NX NY BC_ABSORBING SPEED intstep intstep1 delta2 phi i j
  = Ok (x - intstep1 * (x - p))%F.
Proof.
  intros Hd Hi Hj Hb Hx Hp. unfold stencil_value.
  destruct (neighbours NX NY BC_ABSORBING i j)
    as [[[iplus iminus] jplus] jminus] eqn:Hn.
  destruct (neighbours_range NX NY BC_ABSORBING i j _ _ _ _ Hi Hj Hn)
    as (Hip & Him & Hjp & Hjm).
  destruct (rd_in phi NX NY iplus j Hd Hip Hj) as [a ->].
  destruct (rd_in phi NX NY iminus j Hd Him Hj) as [b ->].
  destruct (rd_in phi NX NY i jplus Hd Hi Hjp) as [c ->].
  destruct (rd_in phi NX NY i jminus Hd Hi Hjm) as [d ->].
  rewrite Hx. simpl. unfold inward in Hp.
  destruct ((0 <? i) && (i <? NX - 1) && (0 <? j) && (j <? NY - 1)) eqn:Hbulk.
  { rewrite !andb_true_iff, !Z.ltb_lt in Hbulk. lia. }
  destruct (i =? NX - 1); [simpl in Hp; by rewrite Hp |].
  destruct (j =? NY - 1); [simpl in Hp; by rewrite Hp |].
  destruct (i =? 0); simpl in Hp; by rewrite Hp.
Qed.

(** What one step does under the absorbing policy (clamp off).  A cell
    of status 1 on the border relaxes toward its inward neighbour with
    the step [intstep1]; a cell of status 1 inside the grid becomes
    [x - intstep * delta2], where [delta2] is a local that the function
    never assigns: the Laplacian [delta1] is computed and not used. *)
Theorem evolve_wave_absorbing (xy_in : grid Z) (phi newphi : grid T) :
  1 < NX -> 1 < NY ->
  dims NX NY xy_in -> dims NX NY phi -> dims NX NY newphi ->
  exists phi',
    evolve_wave NX NY BC_ABSORBING false VMAX SPEED intstep intstep1 delta2
      phi xy_in newphi = Ok phi'
    /\ (forall i j x, 0 < i < NX - 1 -> 0 < j < NY - 1 ->
          rd xy_in i j = Ok 1 -> rd phi i j = Ok x ->
          rd phi' i j = Ok (x - intstep * delta2 i j)%F)
    /\ (forall i j x p, 0 <= i < NX -> 0 <= j < NY ->
          ~ (0 < i < NX - 1 /\ 0 < j < NY - 1) ->
          rd xy_in i j = Ok 1 -> rd phi i j = Ok x ->
          rd phi (fst (inward i j)) (snd (inward i j)) = Ok p ->
          rd phi' i j = Ok (x - intstep1 * (x - p))%F).
Proof.
  intros Hx Hy Hds Hd Hdn.
  destruct (evolve_wave_values NX NY BC_ABSORBING false VMAX SPEED intstep intstep1
              delta2 xy_in phi newphi) as (phi' & -> & Hd' & Hin & Hout);
    [done | unfold grid_size_ok; split_and!; (lia || done) | done | done | done |].
  exists phi'. split_and!; [done | |].
  - intros i j x Hi Hj Hs Hv. rewrite (Hin i j Hs).
    by apply stencil_value_absorbing_bulk.
  - intros i j x p Hi Hj Hb Hs Hv Hp. rewrite (Hin i j Hs).
    by apply stencil_value_absorbing_border.
Qed.

End AbsorbingStep.

(** ** The schedules of the parallel loop *)

Section CellLoop.
Context {S : Type}.

Lemma for_cells_app (l1 l2 : list (Z * Z)) (body : Z -> Z -> S -> result S) s :
  for_cells (l1 ++ l2) body s = (s' <- for_cells l1 body s ;; for_cells l2 body s').
Proof.
  revert s. induction l1 as [| [i j] l1 IH]; intros s; [done |].
  simpl. destruct (body i j s) as [s1 |]; [simpl | done]. apply IH.
Qed.

Lemma for_nat_cells n lo i (body : Z -> Z -> S -> result S) s :
  for_nat n lo (fun j => body i j) s
  = for_cells (pair i <$> seqZ lo (Z.of_nat n)) body s.
Proof.
  revert lo s. induction n as [| n IH]; intros lo s; [done |].
  rewrite (seqZ_cons lo) by lia.
  replace (Z.pred (Z.of_nat (Datatypes.S n))) with (Z.of_nat n) by lia.
  replace (Z.succ lo) with (lo + 1) by lia.
  simpl. destruct (body i lo s) as [s1 |]; [simpl | done]. apply IH.
Qed.

Lemma seqZ_to_nat m n : seqZ m (Z.of_nat (Z.to_nat n)) = seqZ m n.
Proof. unfold seqZ. by rewrite Nat2Z.id. Qed.

Lemma for_nat_rows n lo ny (body : Z -> Z -> S -> result S) s :
  for_nat n lo (fun i => for_loop 0 ny (fun j => body i j)) s
  = for_cells (mbind (fun i => pair i <$> seqZ 0 ny) (seqZ lo (Z.of_nat n))) body s.
Proof.
  revert lo s. induction n as [| n IH]; intros lo s; [done |].
  rewrite (seqZ_cons lo) by lia.
  replace (Z.pred (Z.of_nat (Datatypes.S n))) with (Z.of_nat n) by lia.
  replace (Z.succ lo) with (lo + 1) by lia.
  rewrite bind_cons, for_cells_app. simpl.
  unfold for_loop at 1. rewrite for_nat_cells.
  replace (ny - 0) with ny by lia. rewrite seqZ_to_nat.
  destruct (for_cells _ body s) as [s1 |]; [simpl | done]. apply IH.
Qed.

(** The loop nest is the run on the cells in row-major order. *)
Lemma grid_loop_cells nx ny (body : Z -> Z -> S -> result S) s :
  for_loop 0 nx (fun i => for_loop 0 ny (fun j => body i j)) s
  = for_cells (row_major nx ny) body s.
Proof.
  unfold for_loop at 1, row_major. rewrite for_nat_rows.
  replace (nx - 0) with nx by lia. by rewrite seqZ_to_nat.
Qed.

(** The invariant rule: the invariant is on the cells already run. *)
Lemma for_cells_inv (Inv : list (Z * Z) -> S -> Prop) (cells : list (Z * Z))
  (body : Z -> Z -> S -> result S) (s : S) :
  Inv [] s ->
  (forall pre i j post s0, cells = pre ++ (i, j) :: post -> Inv pre s0 ->
     exists s1, body i j s0 = Ok s1 /\ Inv (pre ++ [(i, j)]) s1) ->
  exists s', for_cells cells body s = Ok s' /\ Inv cells s'.
Proof.
  intros H0 Hstep.
  assert (Hgen : forall rest pre s0, cells = pre ++ rest -> Inv pre s0 ->
            exists s', for_cells rest body s0 = Ok s' /\ Inv cells s').
  { induction rest as [| [i j] rest IH]; intros pre s0 Hc HI.
    - exists s0. split; [done |]. by rewrite Hc, app_nil_r.
    - destruct (Hstep pre i j rest s0 Hc HI) as (s1 & Hs1 & HI1).
      simpl. rewrite Hs1. simpl. apply (IH (pre ++ [(i, j)])); [| done].
      by rewrite <- app_assoc. }
  by apply (Hgen cells []).
Qed.

End CellLoop.

Section OrderFacts.

Lemma rows_in_order_app (l1 l2 : list (Z * Z)) :
  rows_in_order l1 -> rows_in_order l2 ->
  (forall c1 c2, elem_of c1 l1 -> elem_of c2 l2 -> fst c2 = fst c1 -> snd c1 < snd c2) ->
  rows_in_order (l1 ++ l2).
Proof.
  induction l1 as [| c l1 IH]; intros H1 H2 Hx; [done |].
  destruct H1 as [Hc H1]. simpl. split.
  - apply Forall_app. split; [done |].
    apply Forall_forall. intros c2 Hc2. apply Hx; [by left | done].
  - apply IH; [done | done |]. intros c1 c2 Hc1. apply Hx. by right.
Qed.

(** In an ordered list, what comes before a cell in its row lies to its
    left, and the cell does not come again. *)
Lemma rows_in_order_before (pre post : list (Z * Z)) i j j' :
  rows_in_order (pre ++ (i, j) :: post) -> elem_of (i, j') pre -> j' < j.
Proof.
  induction pre as [| c pre IH]; intros Ho Hin; [by apply elem_of_nil in Hin |].
  destruct Ho as [Hc Ho]. apply elem_of_cons in Hin as [<- | Hin]; [| by apply IH].
  rewrite Forall_forall in Hc.
  apply (Hc (i, j)); [| done]. apply elem_of_app. right. by left.
Qed.

Lemma rows_in_order_once (pre post : list (Z * Z)) i j :
  rows_in_order (pre ++ (i, j) :: post) -> ~ elem_of (i, j) post.
Proof.
  induction pre as [| c pre IH]; intros Ho Hin.
  - destruct Ho as [Hc _]. rewrite Forall_forall in Hc.
    specialize (Hc (i, j) Hin eq_refl). simpl in Hc. lia.
  - destruct Ho as [_ Ho]. by apply IH.
Qed.

Lemma rows_in_order_row i lo n :
  rows_in_order (pair i <$> seqZ lo (Z.of_nat n)).
Proof.
  revert lo. induction n as [| n IH]; intros lo; [done |].
  rewrite (seqZ_cons lo) by lia.
  replace (Z.pred (Z.of_nat (Datatypes.S n))) with (Z.of_nat n) by lia.
  simpl. split; [| apply IH].
  apply Forall_fmap, Forall_forall. intros j Hj%elem_of_seqZ _. simpl. lia.
Qed.

Lemma rows_in_order_rows ny lo n :
  rows_in_order (mbind (fun i => pair i <$> seqZ 0 ny) (seqZ lo (Z.of_nat n))).
Proof.
  revert lo. induction n as [| n IH]; intros lo; [done |].
  rewrite (seqZ_cons lo) by lia.
  replace (Z.pred (Z.of_nat (Datatypes.S n))) with (Z.of_nat n) by lia.
  rewrite bind_cons. apply rows_in_order_app.
  - rewrite <- seqZ_to_nat. apply rows_in_order_row.
  - apply IH.
  - intros c1 c2 Hc1 Hc2 Hf. exfalso.
    apply list_elem_of_fmap in Hc1 as (j1 & -> & _).
    apply list_elem_of_bind in Hc2 as (i2 & Hc2 & Hi2%elem_of_seqZ).
    apply list_elem_of_fmap in Hc2 as (j2 & -> & _). simpl in Hf. lia.
Qed.

Lemma elem_of_row_major nx ny i j :
  elem_of (i, j) (row_major nx ny) <-> 0 <= i < nx /\ 0 <= j < ny.
Proof.
  unfold row_major. rewrite list_elem_of_bind. split.
  - intros (i' & Hj & Hi%elem_of_seqZ).
    apply list_elem_of_fmap in Hj as (j' & [= -> ->] & Hj%elem_of_seqZ). lia.
  - intros [Hi Hj]. exists i. split; [| apply elem_of_seqZ; lia].
    apply list_elem_of_fmap. exists j. split; [done |]. apply elem_of_seqZ. lia.
Qed.

(** The order of the sequential loops is one of the schedules. *)
Lemma row_major_schedule nx ny : schedule nx ny (row_major nx ny).
Proof.
  split; [intros i j; apply elem_of_row_major |].
  unfold row_major. rewrite <- (seqZ_to_nat 0 nx). apply rows_in_order_rows.
Qed.

End OrderFacts.

Section ScheduleFacts.
Context {T : Type} `{Arith T}.
Variables (NX NY : Z).
Variable B_COND : bc_policy.
Variable FLOOR : bool.
Variables (VMAX SPEED : T).
Variables (intstep intstep1 : T).
Variable delta2 : Z -> Z -> T.

Local Abbreviation grid_size_ok := (grid_size_ok NX NY B_COND).
Local Abbreviation neighbours := (neighbours NX NY B_COND).
Local Abbreviation stencil_value :=
  (stencil_value NX NY B_COND SPEED intstep intstep1 delta2).
Local Abbreviation evolve_cell :=
  (evolve_cell NX NY B_COND FLOOR VMAX SPEED intstep intstep1 delta2).
Local Abbreviation evolve_wave :=
  (evolve_wave NX NY B_COND FLOOR VMAX SPEED intstep intstep1 delta2).
Local Abbreviation evolve_wave_sched :=
  (evolve_wave_sched NX NY B_COND FLOOR VMAX SPEED intstep intstep1 delta2).
Local Abbreviation schedule := (schedule NX NY).

(** [evolve_wave] is the run under the schedule of the sequential
    loops. *)
Lemma evolve_wave_row_major (phi : grid T) (xy_in : grid Z) (newphi : grid T) :
  evolve_wave phi xy_in newphi = evolve_wave_sched (row_major NX NY) phi xy_in newphi.
Proof.
  unfold evolve_wave, evolve_wave_sched. by rewrite grid_loop_cells.
Qed.

(** The update of a cell reads the cell and its four neighbours, and
    nothing else: under the absorbing policy the inward neighbour of a
    border cell is one of the four. *)
Lemma stencil_value_reads (phi psi : grid T) i j iplus iminus jplus jminus :
  grid_size_ok -> 0 <= i < NX -> 0 <= j < NY ->
  neighbours i j = (iplus, iminus, jplus, jminus) ->
  rd psi iplus j = rd phi iplus j ->
  rd psi iminus j = rd phi iminus j ->
  rd psi i jplus = rd phi i jplus ->
  rd psi i jminus = rd phi i jminus ->
  rd psi i j = rd phi i j ->
  stencil_value psi i j = stencil_value phi i j.
Proof.
  intros (Hx & Hy & Habs) Hi Hj Hn Hip Him Hjp Hjm Hc.
  unfold stencil_value. rewrite Hn, Hip, Him, Hjp, Hjm, Hc.
  destruct B_COND eqn:Hbc; simpl; try done.
  destruct Habs as [Hx1 Hy1]; [done |].
  unfold neighbours in Hn. simpl in Hn.
  injection Hn as <- <- <- <-.
  assert (E1 : i = NX - 1 -> rd psi (i - 1) j = rd phi (i - 1) j).
  { intros Hi1. destruct (Z.eqb_spec (i - 1) (-1)); [lia | done]. }
  assert (E2 : j = NY - 1 -> rd psi i (j - 1) = rd phi i (j - 1)).
  { intros Hj1. destruct (Z.eqb_spec (j - 1) (-1)); [lia | done]. }
  assert (E3 : i = 0 -> rd psi 1 j = rd phi 1 j).
  { intros ->. destruct (Z.eqb_spec (0 + 1) NX); [lia | done]. }
  assert (E4 : j = 0 -> rd psi i 1 = rd phi i 1).
  { intros ->. destruct (Z.eqb_spec (0 + 1) NY); [lia | done]. }
  destruct (rd phi _ j); [simpl | done].
  destruct (rd phi _ j); [simpl | done].
  destruct (rd phi i _); [simpl | done].
  destruct (rd phi i _); [simpl | done].
  destruct (rd phi i j); [simpl | done].
  destruct ((0 <? i) && (i <? NX - 1) && (0 <? j) && (j <? NY - 1)) eqn:Hbulk; [done |].
  destruct (Z.eqb_spec i (NX - 1)); [by rewrite E1 |].
  destruct (Z.eqb_spec j (NY - 1)); [by rewrite E2 |].
  destruct (Z.eqb_spec i 0); [by rewrite E3 |].
  rewrite E4; [done |].
  rewrite !andb_false_iff, !Z.ltb_ge in Hbulk. lia.
Qed.

(** The first pass under a schedule, whatever [FLOOR]: it returns, and
    assigns [phi] at cells of status 1 only. *)
Lemma first_pass_sched_frame (cells : list (Z * Z)) (xy_in : grid Z)
  (phi newphi : grid T) :
  grid_size_ok -> schedule cells ->
  dims NX NY xy_in -> dims NX NY phi -> dims NX NY newphi ->
  exists st,
    for_cells cells (evolve_cell xy_in) (phi, newphi) = Ok st
    /\ dims NX NY (fst st) /\ dims NX NY (snd st)
    /\ (forall a b, rd xy_in a b <> Ok 1 -> rd (fst st) a b = rd phi a b).
Proof.
  intros Hsz [Hall _] Hds Hd Hdn.
  apply (for_cells_inv (fun (_ : list (Z * Z)) (st : grid T * grid T) =>
           dims NX NY (fst st) /\ dims NX NY (snd st)
           /\ (forall a b, rd xy_in a b <> Ok 1 -> rd (fst st) a b = rd phi a b)));
    [done |].
  intros pre i j post [p n] Hc (Hp & Hn & Hfr). simpl in *.
  assert (Hij : 0 <= i < NX /\ 0 <= j < NY).
  { apply Hall. rewrite Hc. apply elem_of_app. right. by left. }
  destruct Hij as [Hi Hj].
  destruct (evolve_cell_step NX NY B_COND FLOOR VMAX SPEED intstep intstep1 delta2
              xy_in p n i j Hsz Hds Hp Hn Hi Hj)
    as (p' & n' & -> & Hp' & Hn' & Hoth & Hskip & _ & _).
  exists (p', n'). simpl. split_and!; try done.
  intros a b Hab. destruct (decide ((a, b) = (i, j))) as [[= -> ->] | Hne].
  - destruct (Hskip Hab) as [-> _]. by apply Hfr.
  - destruct (Hoth a b Hne) as [-> _]. by apply Hfr.
Qed.

(** With [FLOOR] off the first pass leaves [phi] alone under every
    schedule and fills [newphi] with the stencil values of the cells of
    status 1. *)
Lemma first_pass_sched_values (cells : list (Z * Z)) (xy_in : grid Z)
  (phi newphi : grid T) :
  FLOOR = false ->
  grid_size_ok -> schedule cells ->
  dims NX NY xy_in -> dims NX NY phi -> dims NX NY newphi ->
  exists newphi',
    for_cells cells (evolve_cell xy_in) (phi, newphi) = Ok (phi, newphi')
    /\ dims NX NY newphi'
    /\ (forall a b, rd xy_in a b = Ok 1 -> rd newphi' a b = stencil_value phi a b).
Proof.
  intros Hfl Hsz [Hall _] Hds Hd Hdn.
  destruct (for_cells_inv (fun (pre : list (Z * Z)) (st : grid T * grid T) =>
      fst st = phi /\ dims NX NY (snd st)
      /\ (forall a b, rd xy_in a b = Ok 1 -> elem_of (a, b) pre ->
            rd (snd st) a b = stencil_value phi a b))
    cells (evolve_cell xy_in) (phi, newphi))
    as ([p n] & Hrun & Hp & Hn & Hval).
  - split_and!; [done | done |]. intros a b _ Hin. by apply elem_of_nil in Hin.
  - intros pre i j post [p n] Hc (Hp & Hn & Hval). simpl in *. subst p.
    assert (Hij : 0 <= i < NX /\ 0 <= j < NY).
    { apply Hall. rewrite Hc. apply elem_of_app. right. by left. }
    destruct Hij as [Hi Hj].
    destruct (evolve_cell_step NX NY B_COND FLOOR VMAX SPEED intstep intstep1 delta2
                xy_in phi n i j Hsz Hds Hd Hn Hi Hj)
      as (p' & n' & -> & Hp' & Hn' & Hoth & Hskip & Hsame & Hset).
    exists (p', n'). simpl. split_and!; [done | by apply Hsame | done |].
    intros a b Hs Hin. destruct (decide ((a, b) = (i, j))) as [[= -> ->] | Hne].
    + by apply Hset.
    + destruct (Hoth a b Hne) as [_ ->]. apply Hval; [done |].
      apply elem_of_app in Hin as [Hin | Hin%list_elem_of_singleton]; done.
  - simpl in *. subst p. exists n. split_and!; try done.
    intros a b Hs. apply Hval; [done |]. apply Hall.
    by apply (rd_Ok_range _ _ _ _ _ _ Hds) in Hs.
Qed.

(** With the clamp off the parallel loop has no race: no iteration
    writes what another reads, and under every schedule the step returns
    what the sequential loops return. *)
Theorem evolve_wave_sched_floor_off (cells : list (Z * Z)) (xy_in : grid Z)
  (phi newphi : grid T) :
  FLOOR = false ->
  grid_size_ok -> schedule cells ->
  dims NX NY xy_in -> dims NX NY phi -> dims NX NY newphi ->
  exists phi',
    evolve_wave_sched cells phi xy_in newphi = Ok phi'
    /\ evolve_wave phi xy_in newphi = Ok phi'.
Proof.
  intros Hfl Hsz Hsch Hds Hd Hdn. pose proof Hsz as (Hx & Hy & _).
  destruct (first_pass_sched_values cells xy_in phi newphi Hfl Hsz Hsch Hds Hd Hdn)
    as (n & Hrun & Hn & Hval).
  destruct (commit_pass_values NX NY xy_in n phi Hx Hy Hds Hn Hd)
    as (phi' & Hrun' & Hd' & Hin & Hout).
  exists phi'. unfold evolve_wave_sched. rewrite Hrun. simpl. split; [done |].
  destruct (evolve_wave_values NX NY B_COND FLOOR VMAX SPEED intstep intstep1 delta2
              xy_in phi newphi Hfl Hsz Hds Hd Hdn)
    as (phi'' & -> & Hd'' & Hin'' & Hout'').
  f_equal. apply (grid_ext phi' phi'' NX NY Hd' Hd'').
  intros i j Hi Hj.
  destruct (rd_in xy_in NX NY i j Hds Hi Hj) as [s Hs].
  destruct (decide (s = 1)) as [-> | Hs1].
  - by rewrite (Hin'' i j Hs), (Hin i j Hs), (Hval i j Hs).
  - assert (Hne : rd xy_in i j <> Ok 1) by (rewrite Hs; intros [= ?]; done).
    by rewrite (Hout'' i j Hne), (Hout i j Hne).
Qed.

(** Whatever [FLOOR], the boundary policy and the schedule of the
    parallel loop, a cell of status 1 whose stencil reads no cell that
    can be assigned before the cell is reached comes back with its
    stencil value on the field as it was, unclamped: the [FLOOR] block
    assigns to [phi], and the copy of [newphi] overwrites it.  The
    cells that the stencil reads in the rows above and below are asked
    not to have status 1, so that no iteration assigns them; the two it
    reads in its own row, to have no status 1 or to lie to the right,
    where the row has not been yet. *)
Theorem evolve_wave_sched_unclamped (cells : list (Z * Z)) (xy_in : grid Z)
  (phi newphi : grid T) i j iplus iminus jplus jminus :
  grid_size_ok -> schedule cells ->
  dims NX NY xy_in -> dims NX NY phi -> dims NX NY newphi ->
  rd xy_in i j = Ok 1 ->
  neighbours i j = (iplus, iminus, jplus, jminus) ->
  (rd xy_in iplus j <> Ok 1 \/ iplus = i) ->
  (rd xy_in iminus j <> Ok 1 \/ iminus = i) ->
  (rd xy_in i jplus <> Ok 1 \/ j <= jplus) ->
  (rd xy_in i jminus <> Ok 1 \/ j <= jminus) ->
  exists phi',
    evolve_wave_sched cells phi xy_in newphi = Ok phi'
    /\ rd phi' i j = stencil_value phi i j.
Proof.
  intros Hsz [Hall Hord] Hds Hd Hdn Hs Hn Hqp Hqm Hqjp Hqjm.
  pose proof Hsz as (Hx & Hy & _).
  destruct (rd_Ok_range _ _ _ _ _ _ Hds Hs) as [Hi Hj].
  destruct (for_cells_inv (fun (pre : list (Z * Z)) (st : grid T * grid T) =>
      dims NX NY (fst st) /\ dims NX NY (snd st)
      /\ (forall a b, rd xy_in a b <> Ok 1 -> rd (fst st) a b = rd phi a b)
      /\ (forall a b, ~ elem_of (a, b) pre -> rd (fst st) a b = rd phi a b)
      /\ (elem_of (i, j) pre -> rd (snd st) i j = stencil_value phi i j))
    cells (evolve_cell xy_in) (phi, newphi))
    as ([p n] & Hrun & Hp & Hnn & _ & _ & Hval).
  - split_and!; try done. intros Hin. by apply elem_of_nil in Hin.
  - intros pre a0 b0 post [p n] Hc (Hp & Hnn & Hfr & Hun & Hval). simpl in *.
    assert (Hab0 : 0 <= a0 < NX /\ 0 <= b0 < NY).
    { apply Hall. rewrite Hc. apply elem_of_app. right. by left. }
    destruct Hab0 as [Ha0 Hb0].
    destruct (evolve_cell_step NX NY B_COND FLOOR VMAX SPEED intstep intstep1 delta2
                xy_in p n a0 b0 Hsz Hds Hp Hnn Ha0 Hb0)
      as (p' & n' & -> & Hp' & Hn' & Hoth & Hskip & _ & Hset).
    exists (p', n'). simpl. split_and!; [done | done | done | | |].
    + intros a b Hab. destruct (decide ((a, b) = (a0, b0))) as [[= -> ->] | Hne].
      * destruct (Hskip Hab) as [-> _]. by apply Hfr.
      * destruct (Hoth a b Hne) as [-> _]. by apply Hfr.
    + intros a b Hab.
      assert (Hne : (a, b) <> (a0, b0)).
      { intros [= -> ->]. apply Hab. apply elem_of_app. right. by left. }
      destruct (Hoth a b Hne) as [-> _]. apply Hun.
      intros Hin. apply Hab. apply elem_of_app. by left.
    + intros Hin. destruct (decide ((i, j) = (a0, b0))) as [[= <- <-] | Hne].
      * rewrite (Hset Hs). rewrite Hc in Hord.
        assert (Hright : forall b, j <= b -> ~ elem_of (i, b) pre).
        { intros b Hb Hpre.
          pose proof (rows_in_order_before pre post i j b Hord Hpre). lia. }
        apply (stencil_value_reads phi p i j iplus iminus jplus jminus);
          try done.
        -- destruct Hqp as [Hq | ->]; [by apply Hfr |].
           apply Hun, Hright. lia.
        -- destruct Hqm as [Hq | ->]; [by apply Hfr |].
           apply Hun, Hright. lia.
        -- destruct Hqjp as [Hq | Hq]; [by apply Hfr |].
           by apply Hun, Hright.
        -- destruct Hqjm as [Hq | Hq]; [by apply Hfr |].
           by apply Hun, Hright.
        -- apply Hun, Hright. lia.
      * destruct (Hoth i j Hne) as [_ ->]. apply Hval.
        apply elem_of_app in Hin as [Hin | Hin%list_elem_of_singleton]; done.
  - simpl in *.
    destruct (commit_pass_values NX NY xy_in n p Hx Hy Hds Hnn Hp)
      as (phi' & Hrun' & _ & Hin & _).
    exists phi'. unfold evolve_wave_sched. rewrite Hrun. simpl. split; [done |].
    rewrite (Hin i j Hs). apply Hval. by apply Hall.
Qed.

End ScheduleFacts.

(** ** Facts on loops that fill two arrays cell by cell *)

Section GridFill.
Context {A B : Type}.
Variables (NX NY : Z).
Variable body : Z -> Z -> grid A * grid B -> result (grid A * grid B).
(** What the visit of a cell establishes, from the value the first
    array held there to the values both arrays hold after it. *)
Variable Q : Z -> Z -> result A -> result A -> result B -> Prop.

Hypothesis body_cell : forall i j p x,
  dims NX NY p -> dims NX NY x -> 0 <= i < NX -> 0 <= j < NY ->
  exists p' x', body i j (p, x) = Ok (p', x')
    /\ dims NX NY p' /\ dims NX NY x'
    /\ (forall a b, (a, b) <> (i, j) ->
          rd p' a b = rd p a b /\ rd x' a b = rd x a b)
    /\ Q i j (rd p i j) (rd p' i j) (rd x' i j).

Lemma grid_fill (p0 : grid A) (x0 : grid B) :
  0 <= NX -> 0 <= NY -> dims NX NY p0 -> dims NX NY x0 ->
  exists p' x',
    for_loop 0 NX (fun i => for_loop 0 NY (fun j => body i j)) (p0, x0)
    = Ok (p', x')
    /\ dims NX NY p' /\ dims NX NY x'
    /\ (forall a b, 0 <= a < NX -> 0 <= b < NY ->
          Q a b (rd p0 a b) (rd p' a b) (rd x' a b)).
Proof.
  intros Hx Hy Hp0 Hx0.
  destruct (grid_loop_inv (fun i j (st : grid A * grid B) =>
      dims NX NY (fst st) /\ dims NX NY (snd st)
      /\ (forall a b, 0 <= a < NX -> 0 <= b < NY ->
            (before i j a b -> Q a b (rd p0 a b) (rd (fst st) a b) (rd (snd st) a b))
            /\ (~ before i j a b -> rd (fst st) a b = rd p0 a b)))
    0 0 NX NY body (p0, x0))
    as ([p' x'] & Hrun & Hp' & Hx' & Hall); [done | done | | | |].
  - split_and!; [done | done |]. intros a b Ha Hb. split; [| done].
    unfold before. lia.
  - intros i j [p x] Hi Hj (Hp & Hxx & Hall). simpl in *.
    destruct (body_cell i j p x Hp Hxx Hi Hj)
      as (p' & x' & -> & Hp' & Hx' & Hoth & HQ).
    exists (p', x'). simpl. split_and!; try done.
    intros a b Ha Hb. destruct (decide ((a, b) = (i, j))) as [[= -> ->] | Hne].
    + split; [| unfold before; lia]. intros _.
      destruct (Hall i j Hi Hj) as [_ Hold].
      rewrite <- Hold; [done | unfold before; lia].
    + destruct (Hoth a b Hne) as [-> ->]. destruct (Hall a b Ha Hb) as [H1 H2].
      assert (~ (a = i /\ b = j)) by (intros [-> ->]; done).
      split; intros Hbf; [apply H1 | apply H2]; unfold before in *; lia.
  - intros i [p x] Hi (Hp & Hxx & Hall). split_and!; try done.
    intros a b Ha Hb. destruct (Hall a b Ha Hb) as [H1 H2].
    split; intros Hbf; [apply H1 | apply H2]; unfold before in *; lia.
  - simpl in *. exists p', x'. split_and!; try done.
    intros a b Ha Hb. apply Hall; [done | done |]. unfold before. lia.
Qed.

End GridFill.

(** ** Facts on the initialisers *)

Section InitFacts.
Context {T : Type} `{Arith T}.
Variables (NX NY : Z) (T_IN T_OUT : T).
Variable ij_to_xy : Z -> Z -> T * T.
Variable xy_in_billiard : T -> T -> Z.
Variable c_exp : T -> T.
Variable c_pow : T -> T -> T.

Local Abbreviation new_status := (new_status ij_to_xy xy_in_billiard).
Local Abbreviation initial_temperature :=
  (initial_temperature T_IN T_OUT ij_to_xy c_exp c_pow).

Lemma init_julia_set_cell_step (phi : grid T) (xy_in : grid Z) i j :
  dims NX NY phi -> dims NX NY xy_in -> 0 <= i < NX -> 0 <= j < NY ->
  exists phi' xy_in',
    init_julia_set_cell T_IN ij_to_xy xy_in_billiard i j (phi, xy_in)
    = Ok (phi', xy_in')
    /\ dims NX NY phi' /\ dims NX NY xy_in'
    /\ (forall a b, (a, b) <> (i, j) ->
          rd phi' a b = rd phi a b /\ rd xy_in' a b = rd xy_in a b)
    /\ (rd xy_in' i j = Ok (new_status i j)
        /\ (2 <= new_status i j -> rd phi' i j = Ok T_IN)
        /\ (new_status i j < 2 -> rd phi' i j = rd phi i j)).
Proof.
  intros Hd Hds Hi Hj. unfold init_julia_set_cell. simpl.
  fold (new_status i j).
  destruct (wr_in xy_in NX NY i j (new_status i j) Hds Hi Hj) as [xy_in' Hw].
  rewrite Hw. simpl. rewrite (rd_wr_same _ _ _ _ _ Hw). simpl.
  pose proof (wr_dims _ _ _ _ _ _ _ Hds Hw) as Hds'.
  destruct (Z.leb_spec 2 (new_status i j)) as [Hs | Hs].
  - destruct (wr_in phi NX NY i j T_IN Hd Hi Hj) as [phi' Hw']. rewrite Hw'. simpl.
    exists phi', xy_in'. split_and!; try done.
    + by apply (wr_dims phi NX NY i j T_IN).
    + intros a b Hab. split.
      * by apply (rd_wr_other phi i j T_IN).
      * by apply (rd_wr_other xy_in i j (new_status i j)).
    + by apply (rd_wr_same _ _ _ _ _ Hw).
    + intros _. by apply (rd_wr_same _ _ _ _ _ Hw').
    + lia.
  - exists phi, xy_in'. split_and!; try done.
    + intros a b Hab. split; [done |].
      by apply (rd_wr_other xy_in i j (new_status i j)).
    + by apply (rd_wr_same _ _ _ _ _ Hw).
    + lia.
Qed.

(** [init_julia_set] returns; it stores the new status of every cell,
    writes [T_IN] where that status is 2 or more, and leaves the field
    where it is below 2. *)
Lemma init_julia_set_cells (phi : grid T) (xy_in : grid Z) :
  0 <= NX -> 0 <= NY -> dims NX NY phi -> dims NX NY xy_in ->
  exists phi' xy_in',
    init_julia_set NX NY T_IN ij_to_xy xy_in_billiard phi xy_in = Ok (phi', xy_in')
    /\ dims NX NY phi' /\ dims NX NY xy_in'
    /\ (forall a b, 0 <= a < NX -> 0 <= b < NY ->
          rd xy_in' a b = Ok (new_status a b)
          /\ (2 <= new_status a b -> rd phi' a b = Ok T_IN)
          /\ (new_status a b < 2 -> rd phi' a b = rd phi a b)).
Proof.
  intros Hx Hy Hd Hds. unfold init_julia_set.
  apply (grid_fill NX NY _
    (fun a b old new st =>
       st = Ok (new_status a b)
       /\ (2 <= new_status a b -> new = Ok T_IN)
       /\ (new_status a b < 2 -> new = old))); try done.
  intros i j p x Hp Hxx Hi Hj.
  by apply init_julia_set_cell_step.
Qed.

Lemma init_gaussian_cell_step x y mean amplitude scalex
  (phi : grid T) (xy_in : grid Z) i j :
  dims NX NY phi -> dims NX NY xy_in -> 0 <= i < NX -> 0 <= j < NY ->
  exists phi' xy_in',
    init_gaussian_cell T_IN T_OUT ij_to_xy xy_in_billiard c_exp c_pow
      x y mean amplitude scalex (scalex * scalex)%F i j (phi, xy_in)
    = Ok (phi', xy_in')
    /\ dims NX NY phi' /\ dims NX NY xy_in'
    /\ (forall a b, (a, b) <> (i, j) ->
          rd phi' a b = rd phi a b /\ rd xy_in' a b = rd xy_in a b)
    /\ (rd xy_in' i j = Ok (new_status i j)
        /\ rd phi' i j
           = Ok (initial_temperature x y mean amplitude scalex i j (new_status i j))).
Proof.
  intros Hd Hds Hi Hj. unfold init_gaussian_cell. simpl.
  fold (new_status i j).
  destruct (wr_in xy_in NX NY i j (new_status i j) Hds Hi Hj) as [xy_in' Hw].
  rewrite Hw. simpl. rewrite (rd_wr_same _ _ _ _ _ Hw). simpl.
  pose proof (wr_dims _ _ _ _ _ _ _ Hds Hw) as Hds'.
  assert (Hstore : forall v, exists phi', wr phi i j v = Ok phi'
            /\ dims NX NY phi'
            /\ (forall a b, (a, b) <> (i, j) ->
                  rd phi' a b = rd phi a b /\ rd xy_in' a b = rd xy_in a b)
            /\ rd phi' i j = Ok v).
  { intros v. destruct (wr_in phi NX NY i j v Hd Hi Hj) as [phi' Hw'].
    exists phi'. split_and!; try done.
    - by apply (wr_dims phi NX NY i j v).
    - intros a b Hab. split.
      + by apply (rd_wr_other phi i j v).
      + by apply (rd_wr_other xy_in i j (new_status i j)).
    - by apply (rd_wr_same _ _ _ _ _ Hw'). }
  unfold initial_temperature.
  destruct (new_status i j =? 1); [| destruct (2 <=? new_status i j)];
    match goal with
    | |- context [wr phi i j ?v] =>
        destruct (Hstore v) as (phi' & -> & Hd' & Hoth & Hv); simpl;
        exists phi', xy_in'; split_and!; try done;
        by apply (rd_wr_same _ _ _ _ _ Hw)
    end.
Qed.

(** [init_gaussian] returns; it stores the new status and the initial
    temperature of every cell. *)
Lemma init_gaussian_cells x y mean amplitude scalex
  (phi : grid T) (xy_in : grid Z) :
  0 <= NX -> 0 <= NY -> dims NX NY phi -> dims NX NY xy_in ->
  exists phi' xy_in',
    init_gaussian NX NY T_IN T_OUT ij_to_xy xy_in_billiard c_exp c_pow
      x y mean amplitude scalex phi xy_in = Ok (phi', xy_in')
    /\ dims NX NY phi' /\ dims NX NY xy_in'
    /\ (forall a b, 0 <= a < NX -> 0 <= b < NY ->
          rd xy_in' a b = Ok (new_status a b)
          /\ rd phi' a b
             = Ok (initial_temperature x y mean amplitude scalex a b
                     (new_status a b))).
Proof.
  intros Hx Hy Hd Hds. unfold init_gaussian.
  apply (grid_fill NX NY _
    (fun a b (old new : result T) st =>
       st = Ok (new_status a b)
       /\ new = Ok (initial_temperature x y mean amplitude scalex a b
                      (new_status a b)))); try done.
  intros i j p xx Hp Hxx Hi Hj.
  by apply init_gaussian_cell_step.
Qed.

(** C10. [init_julia_set] returns; it stores the recomputed status of
    every cell of the grid, and every cell whose new status is below 2
    (outside, 0, or interior, 1) holds the field value it held before
    the call: the temperature is overwritten only where the new status
    is 2 or more. *)
Theorem init_julia_set_keeps_field (phi : grid T) (xy_in : grid Z) :
  0 <= NX -> 0 <= NY -> dims NX NY phi -> dims NX NY xy_in ->
  exists phi' xy_in',
    init_julia_set NX NY T_IN ij_to_xy xy_in_billiard phi xy_in = Ok (phi', xy_in')
    /\ (forall a b, 0 <= a < NX -> 0 <= b < NY ->
          rd xy_in' a b = Ok (new_status a b))
    /\ (forall a b s, 0 <= a < NX -> 0 <= b < NY ->
          rd xy_in' a b = Ok s -> s < 2 -> rd phi' a b = rd phi a b).
Proof.
  intros Hx Hy Hd Hds.
  destruct (init_julia_set_cells phi xy_in Hx Hy Hd Hds)
    as (phi' & xy_in' & Hrun & _ & _ & Hall).
  exists phi', xy_in'. split_and!; [done | |].
  - intros a b Ha Hb. by apply Hall.
  - intros a b s Ha Hb Hs Hlt. destruct (Hall a b Ha Hb) as (Hst & _ & Hkeep).
    apply Hkeep. congruence.
Qed.

(** C5, as the code has it. Both initialisers return. [init_gaussian]
    gives a cell of status [s >= 2] the temperature
    [T_IN * pow(0.75, s - 2)]; [init_julia_set] gives it [T_IN] itself,
    whatever the depth [s - 2]. *)
Theorem graded_boundary_temperature x y mean amplitude scalex
  (phi : grid T) (xy_in : grid Z) :
  0 <= NX -> 0 <= NY -> dims NX NY phi -> dims NX NY xy_in ->
  (exists phi' xy_in',
     init_gaussian NX NY T_IN T_OUT ij_to_xy xy_in_billiard c_exp c_pow
       x y mean amplitude scalex phi xy_in = Ok (phi', xy_in')
     /\ (forall a b s, 0 <= a < NX -> 0 <= b < NY ->
           rd xy_in' a b = Ok s -> 2 <= s ->
           rd phi' a b = Ok (T_IN * c_pow (dec 75 (-2)) (of_int (s - 2)))%F))
  /\ (exists phi' xy_in',
        init_julia_set NX NY T_IN ij_to_xy xy_in_billiard phi xy_in
        = Ok (phi', xy_in')
        /\ (forall a b s, 0 <= a < NX -> 0 <= b < NY ->
              rd xy_in' a b = Ok s -> 2 <= s -> rd phi' a b = Ok T_IN)).
Proof.
  intros Hx Hy Hd Hds. split.
  - destruct (init_gaussian_cells x y mean amplitude scalex phi xy_in Hx Hy Hd Hds)
      as (phi' & xy_in' & Hrun & _ & _ & Hall).
    exists phi', xy_in'. split; [done |].
    intros a b s Ha Hb Hs Hge. destruct (Hall a b Ha Hb) as [Hst ->].
    assert (new_status a b = s) as -> by congruence.
    unfold initial_temperature.
    destruct (Z.eqb_spec s 1); [lia |].
    destruct (Z.leb_spec 2 s); [done | lia].
  - destruct (init_julia_set_cells phi xy_in Hx Hy Hd Hds)
      as (phi' & xy_in' & Hrun & _ & _ & Hall).
    exists phi', xy_in'. split; [done |].
    intros a b s Ha Hb Hs Hge. destruct (Hall a b Ha Hb) as (Hst & Hset & _).
    apply Hset. congruence.
Qed.

End InitFacts.

(** ** Facts on the gradient *)

Section GradientFacts.
Context {T : Type} `{Arith T}.
Variables (NX NY : Z) (XMIN XMAX : T).

(** An access outside an array is the only way a cell can fail. *)
Lemma compute_gradient_cell_err dx (phi : grid T) i j st e :
  compute_gradient_cell NX NY dx phi i j st = Err e -> e = OutOfBounds.
Proof.
  unfold compute_gradient_cell.
  repeat match goal with
  | |- bind ?m _ = Err _ -> _ =>
      let E := fresh "E" in
      destruct m eqn:E; simpl;
      [| intros [= <-];
         first [ by apply rd_err in E | by apply wr_err in E ] ]
  end.
  discriminate.
Qed.

(** In the last column the upper neighbour is compared with [NX], not
    [NY]: unless the grid is square the index stays [NY], one past the
    end of the row. *)
Lemma compute_gradient_cell_top dx (phi : grid T) i st :
  0 < NY -> NX <> NY -> dims NX NY phi ->
  compute_gradient_cell NX NY dx phi i (NY - 1) st = Err OutOfBounds.
Proof.
  intros Hy Hne Hd.
  destruct (compute_gradient_cell NX NY dx phi i (NY - 1) st) as [st' | e] eqn:E.
  - exfalso. revert E. unfold compute_gradient_cell.
    replace (NY - 1 + 1) with NY by lia.
    destruct (Z.eqb_spec NY NX) as [? | _]; [congruence |].
    destruct (rd phi _ (NY - 1)); [simpl | discriminate].
    destruct (rd phi _ (NY - 1)); [simpl | discriminate].
    destruct (wr st.1 i (NY - 1) _); [simpl | discriminate].
    rewrite (rd_out phi NX NY i NY Hd); [discriminate | lia].
  - f_equal. by apply compute_gradient_cell_err in E.
Qed.

(** C3. On a grid that is not square (the configured one is 1280 by
    720), [compute_gradient] reads [phi[i][NY]], outside the row,
    whatever the field: the neighbour index is not clamped at the upper
    edge, and no gradient is returned. *)
Theorem compute_gradient_out_of_bounds (phi nablax nablay : grid T) :
  0 < NX -> 0 < NY -> NX <> NY -> dims NX NY phi ->
  compute_gradient NX NY XMIN XMAX phi nablax nablay = Err OutOfBounds.
Proof.
  intros Hx Hy Hne Hd. unfold compute_gradient.
  apply (for_loop_err 0 NX _ _ 0); [lia | | lia].
  intros st. apply (for_loop_err 0 NY _ _ (NY - 1)); [lia | |].
  - intros st'. by apply compute_gradient_cell_top.
  - intros j st' e _. apply compute_gradient_cell_err.
Qed.

End GradientFacts.

Section SquareGrid.
Context {T : Type} `{Arith T} `{!ExactArith T}.
(** A square grid, [NX = NY = N]. *)
Variables (N : Z) (XMIN XMAX : T).
Hypothesis div_zero : forall x : T, (of_int 0 / x)%F = of_int 0.

Add Ring exact_ring_sq : ea_ring.

Lemma difference_quotient_zero (c dx : T) : ((c - c) / dx)%F = of_int 0.
Proof. replace (c - c)%F with (of_int 0 : T) by ring. apply div_zero. Qed.

Lemma compute_gradient_cell_square dx (phi : grid T) (c : T)
  (nablax nablay : grid T) i j :
  dims N N phi ->
  (forall a b, 0 <= a < N -> 0 <= b < N -> rd phi a b = Ok c) ->
  dims N N nablax -> dims N N nablay -> 0 <= i < N -> 0 <= j < N ->
  exists nablax' nablay',
    compute_gradient_cell N N dx phi i j (nablax, nablay) = Ok (nablax', nablay')
    /\ dims N N nablax' /\ dims N N nablay'
    /\ (forall a b, (a, b) <> (i, j) ->
          rd nablax' a b = rd nablax a b /\ rd nablay' a b = rd nablay a b)
    /\ (rd nablax' i j = Ok (of_int 0) /\ rd nablay' i j = Ok (of_int 0)).
Proof.
  intros Hd Hc Hdx Hdy Hi Hj. unfold compute_gradient_cell. simpl.
  rewrite !Hc by (repeat case_match; lia). simpl.
  rewrite !difference_quotient_zero.
  destruct (wr_in nablax N N i j (of_int 0) Hdx Hi Hj) as [nablax' Hwx].
  destruct (wr_in nablay N N i j (of_int 0) Hdy Hi Hj) as [nablay' Hwy].
  rewrite Hwx. simpl. rewrite Hwy. simpl.
  exists nablax', nablay'. split_and!; try done.
  - by apply (wr_dims nablax N N i j (of_int 0)).
  - by apply (wr_dims nablay N N i j (of_int 0)).
  - intros a b Hab. split.
    + by apply (rd_wr_other nablax i j (of_int 0)).
    + by apply (rd_wr_other nablay i j (of_int 0)).
  - by apply (rd_wr_same nablax i j (of_int 0)).
  - by apply (rd_wr_same nablay i j (of_int 0)).
Qed.

(** On a square grid, where comparing with [NX] is comparing with [NY],
    the gradient of a constant field is computed without leaving the
    arrays and is zero at every cell (exact arithmetic). *)
Theorem compute_gradient_constant_square (phi nablax nablay : grid T) (c : T) :
  0 <= N ->
  dims N N phi -> dims N N nablax -> dims N N nablay ->
  (forall a b, 0 <= a < N -> 0 <= b < N -> rd phi a b = Ok c) ->
  exists nablax' nablay',
    compute_gradient N N XMIN XMAX phi nablax nablay = Ok (nablax', nablay')
    /\ (forall a b, 0 <= a < N -> 0 <= b < N ->
          rd nablax' a b = Ok (of_int 0) /\ rd nablay' a b = Ok (of_int 0)).
Proof.
  intros HN Hd Hdx Hdy Hc. unfold compute_gradient.
  destruct (grid_fill N N
              (fun i j => compute_gradient_cell N N
                            ((XMAX - XMIN) / of_int N)%F phi i j)
              (fun a b (old new : result T) (newy : result T) =>
                 new = Ok (of_int 0) /\ newy = Ok (of_int 0))
              ltac:(intros i j p x Hp Hx Hi Hj;
                    by apply (compute_gradient_cell_square _ phi c))
              nablax nablay HN HN Hdx Hdy)
    as (nablax' & nablay' & Hrun & _ & _ & Hall).
  by exists nablax', nablay'.
Qed.

End SquareGrid.

(** ** Facts on the variance *)

Section VarianceFacts.
Context {T : Type} `{Arith T}.
Variables (NX NY : Z).

(** The first row and the first column of the field are never read. *)
Theorem compute_variance_ignores_first_row_and_column
  (phi phi' : grid T) (xy_in : grid Z) :
  (forall i j, 1 <= i -> 1 <= j -> rd phi' i j = rd phi i j) ->
  compute_variance NX NY phi' xy_in = compute_variance NX NY phi xy_in.
Proof.
  intros Hsame. unfold compute_variance. f_equal.
  apply for_loop_ext. intros i st Hi.
  apply for_loop_ext. intros j st' Hj.
  unfold variance_cell. by rewrite Hsame by lia.
Qed.

(** When no visited cell belongs to the domain, the count defaults to 1
    and the variance is 0/1: there is no division by a zero count. *)
Theorem compute_variance_empty_domain (phi : grid T) (xy_in : grid Z) :
  1 <= NX -> 1 <= NY ->
  (forall i j, 1 <= i < NX -> 1 <= j < NY -> rd xy_in i j = Ok 0) ->
  compute_variance NX NY phi xy_in = Ok (of_int 0 / of_int 1)%F.
Proof.
  intros Hx Hy Hout. unfold compute_variance.
  destruct (grid_loop_pres (fun st : Z * T => st = (0, of_int 0)) 1 1 NX NY
              (fun i j => variance_cell phi xy_in i j) (0, of_int 0))
    as (st & -> & ->); [lia | lia | done | | done].
  intros i j st Hi Hj ->. exists (0, of_int 0). split; [| done].
  unfold variance_cell. by rewrite (Hout i j Hi Hj).
Qed.

End VarianceFacts.

(** ** Facts on the field lines *)

Section FieldLineFacts.
Context {T : Type} `{Arith T}.
Variables (NX NY : Z).
Variables (N_FIELD_LINES FIELD_LINE_FACTOR : Z).
Variable xy_to_ij : T -> T -> Z * Z.
Variable xy_to_pos : T -> T -> T * T.
Variable module2 : T -> T -> T.
Variable c_sqrt : T -> T.

Local Abbreviation clamp_ij := (clamp_ij NX NY).
Local Abbreviation field_line_step :=
  (field_line_step NX NY xy_to_ij xy_to_pos c_sqrt).
Local Abbreviation draw_field_line :=
  (draw_field_line NX NY xy_to_ij xy_to_pos c_sqrt).

(** The four guards bring any index pair into the grid. *)
Lemma clamp_ij_range (ij : Z * Z) :
  0 < NX -> 0 < NY ->
  0 <= fst (clamp_ij ij) <= NX - 1 /\ 0 <= snd (clamp_ij ij) <= NY - 1.
Proof.
  intros Hx Hy. unfold clamp_ij. simpl.
  repeat match goal with
  | |- context [?a <? ?b] => destruct (Z.ltb_spec a b)
  | |- context [?a >? ?b] => rewrite (Z.gtb_ltb a b)
  end; lia.
Qed.

Lemma field_line_step_ok (xy_in : grid Z) (nablax nablay : grid T) delta st :
  0 < NX -> 0 < NY ->
  dims NX NY xy_in -> dims NX NY nablax -> dims NX NY nablay ->
  exists st', field_line_step xy_in nablax nablay delta st = Ok st'
              /\ fl_i st' = fl_i st + 1.
Proof.
  intros Hx Hy Hds Hdx Hdy. unfold field_line_step.
  destruct (clamp_ij_range (xy_to_ij (fl_x1 st) (fl_y1 st)) Hx Hy) as [Hi Hj].
  set (ij := clamp_ij (xy_to_ij (fl_x1 st) (fl_y1 st))) in *.
  destruct (rd_in nablax NX NY (fst ij) (snd ij) Hdx ltac:(lia) ltac:(lia)) as [nabx ->].
  destruct (rd_in nablay NX NY (fst ij) (snd ij) Hdy ltac:(lia) ltac:(lia)) as [naby ->].
  destruct (rd_in xy_in NX NY (fst ij) (snd ij) Hds ltac:(lia) ltac:(lia)) as [s ->].
  simpl. eexists. split; [reflexivity | reflexivity].
Qed.

(** The trace returns: every read of the gradient and of the status
    grid is inside the arrays, and the step budget bounds the loop. *)
Lemma draw_field_line_ok (x y : T) (xy_in : grid Z) (nablax nablay : grid T)
  (delta : T) (nsteps : Z) :
  0 < NX -> 0 < NY ->
  dims NX NY xy_in -> dims NX NY nablax -> dims NX NY nablay ->
  is_Ok (draw_field_line x y xy_in nablax nablay delta nsteps).
Proof.
  intros Hx Hy Hds Hdx Hdy. unfold draw_field_line.
  destruct (while_loop_inv (fun _ => True)
              (fun st => Z.to_nat (nsteps - fl_i st)) (Z.to_nat nsteps)
              (fun st => Ok (fl_cont st && (fl_i st <? nsteps)))
              (field_line_step xy_in nablax nablay delta)
              {| fl_x1 := x; fl_y1 := y; fl_i := 0; fl_cont := true;
                 fl_out := [xy_to_pos x y] |}) as (st' & -> & _ & _).
  - done.
  - simpl. lia.
  - intros st _. eexists. split; [reflexivity |].
    intros [_ Hlt%Z.ltb_lt]%andb_true_iff.
    destruct (field_line_step_ok xy_in nablax nablay delta st Hx Hy Hds Hdx Hdy)
      as (st' & Hst' & Hi).
    exists st'. split_and!; [done | done |]. rewrite Hi. lia.
  - simpl. by eexists.
Qed.

(** C9. Whatever the starting point [(x, y)], the gradient, the step
    [delta] and the budget [nsteps], and whatever index pair
    [xy_to_ij] returns (the position may have left the plotted
    rectangle), the pair used to read [nablax], [nablay] and [xy_in]
    lies in [0, NX-1] x [0, NY-1], and the trace returns its line strip:
    no read is out of bounds. *)
Theorem draw_field_line_in_bounds (x y : T) (xy_in : grid Z)
  (nablax nablay : grid T) (delta : T) (nsteps : Z) :
  0 < NX -> 0 < NY ->
  dims NX NY xy_in -> dims NX NY nablax -> dims NX NY nablay ->
  (forall ij, 0 <= fst (clamp_ij ij) <= NX - 1 /\ 0 <= snd (clamp_ij ij) <= NY - 1)
  /\ exists line, draw_field_line x y xy_in nablax nablay delta nsteps = Ok line.
Proof.
  intros Hx Hy Hds Hdx Hdy. split.
  - intros ij. by apply clamp_ij_range.
  - by apply draw_field_line_ok.
Qed.

Lemma field_line_step_safe (xy_in : grid Z) (nablax nablay : grid T) delta st :
  safe_or (fun st' => fl_i st' = fl_i st + 1)
    (field_line_step xy_in nablax nablay delta st).
Proof.
  unfold field_line_step. cbv zeta.
  safe_read nabx.
  safe_read naby.
  safe_read s.
  by apply safe_or_Ok.
Qed.

(** Whatever the arrays, the trace stops by its condition, or by an
    access out of bounds: the step budget covers the loop. *)
Lemma draw_field_line_safe (x y : T) (xy_in : grid Z) (nablax nablay : grid T)
  (delta : T) (nsteps : Z) :
  safe_or (fun _ => True) (draw_field_line x y xy_in nablax nablay delta nsteps).
Proof.
  unfold draw_field_line.
  apply (safe_or_bind (fun _ => True)); [| intros st _; by apply safe_or_Ok].
  apply (while_loop_safe (fun _ => True)
           (fun st => Z.to_nat (nsteps - fl_i st))); [done | simpl; lia |].
  intros st _. apply safe_or_Ok.
  intros [_ Hlt%Z.ltb_lt]%andb_true_iff. split; [lia |].
  apply (safe_or_mono (fun st' => fl_i st' = fl_i st + 1));
    [apply field_line_step_safe |].
  intros st' Hst'. split; [done |]. rewrite Hst'. lia.
Qed.

Lemma next_seed_safe (a : list T) (deltaintens : T) (j i : Z) :
  0 <= i ->
  safe_or (fun i' => i <= i')
    (next_seed N_FIELD_LINES FIELD_LINE_FACTOR a deltaintens j i).
Proof.
  intros Hi. unfold next_seed.
  apply (while_loop_safe (fun i' => i <= i')
           (fun i' => Z.to_nat (N_FIELD_LINES * FIELD_LINE_FACTOR - i')));
    [lia | lia |].
  intros i' Hi'.
  safe_read v.
  apply safe_or_Ok. intros [_ Hlt%Z.ltb_lt]%andb_true_iff. split; [lia |].
  apply safe_or_Ok. split; lia.
Qed.

Lemma seed_step_safe (xy_in : grid Z) (nablax nablay : grid T)
  (linex liney integral : list T) (deltaintens : T) (j : Z) (st : seed_state) :
  0 <= sd_i st ->
  safe_or (fun st' => 0 <= sd_i st'
                      /\ sd_counter st' = sd_counter st + 1
                      /\ length (sd_lines st') = Datatypes.S (length (sd_lines st)))
    (seed_step NX NY N_FIELD_LINES FIELD_LINE_FACTOR xy_to_ij xy_to_pos c_sqrt
       xy_in nablax nablay linex liney integral deltaintens j st).
Proof.
  intros Hi. unfold seed_step.
  apply (safe_or_bind (fun i' => sd_i st <= i')); [by apply next_seed_safe |].
  intros i' Hi'.
  safe_read x.
  safe_read y.
  apply (safe_or_bind (fun _ => True)); [apply draw_field_line_safe |].
  intros line _. apply safe_or_Ok. simpl. split_and!; [lia | done | done].
Qed.

Lemma integral_step_safe (nablax nablay : grid T) (linex liney distance : list T)
  (i : Z) (a : list T) :
  safe_or (fun _ => True)
    (integral_step xy_to_ij module2 nablax nablay linex liney distance i a).
Proof.
  unfold integral_step. cbv zeta.
  safe_read x.
  safe_read y.
  safe_read nabx.
  safe_read naby.
  safe_read d.
  destruct (0 <? i).
  - safe_read prev.
    apply (safe_or_mono (fun a' => length a' = length a)); [apply safe_or_wr1 | done].
  - apply (safe_or_mono (fun a' => length a' = length a)); [apply safe_or_wr1 | done].
Qed.

(** The seeding pass draws the mandatory line and one line for each of
    the [N_FIELD_LINES] targets, whatever the gradient and the static
    arrays: it never runs out of fuel, and unless an array is read out
    of bounds it returns with [counter = N_FIELD_LINES] after
    [N_FIELD_LINES + 1] calls of [draw_field_line]. *)
Theorem draw_wave_field_lines_count (xy_in : grid Z) (nablax nablay : grid T)
  (linex liney distance integral : list T) :
  0 <= N_FIELD_LINES ->
  safe_or (fun r => snd (fst r) = N_FIELD_LINES
                    /\ length (snd r) = Z.to_nat (N_FIELD_LINES + 1))
    (draw_wave_field_lines NX NY N_FIELD_LINES FIELD_LINE_FACTOR xy_to_ij
       xy_to_pos module2 c_sqrt xy_in nablax nablay linex liney distance
       integral).
Proof.
  intros HN. unfold draw_wave_field_lines.
  apply (safe_or_bind (fun _ => True)).
  { destruct (Z.le_gt_cases 0 (N_FIELD_LINES * FIELD_LINE_FACTOR)) as [HM | HM].
    - apply (for_loop_safe (fun _ _ => True)); [done | done |].
      intros i a _ _. apply integral_step_safe.
    - unfold for_loop.
      replace (Z.to_nat (N_FIELD_LINES * FIELD_LINE_FACTOR - 0)) with 0%nat by lia.
      by apply safe_or_Ok. }
  intros integral' _.
  safe_read total.
  cbv zeta.
  safe_read x.
  safe_read y.
  apply (safe_or_bind (fun _ => True)); [apply draw_field_line_safe |].
  intros line _.
  apply (safe_or_bind (fun st => 0 <= sd_i st
                                 /\ sd_counter st = N_FIELD_LINES + 1 - 1
                                 /\ length (sd_lines st)
                                    = Z.to_nat (N_FIELD_LINES + 1))).
  - apply (for_loop_safe (fun j st => 0 <= sd_i st /\ sd_counter st = j - 1
                                      /\ length (sd_lines st) = Z.to_nat j));
      [lia | simpl; split_and!; done |].
    intros j st Hj (Hi & Hc & Hl).
    apply (safe_or_mono _ _ _ (seed_step_safe xy_in nablax nablay linex liney
                                 integral' _ j st Hi)).
    intros st' (Hi' & Hc' & Hl'). split_and!; [done | lia | lia].
  - intros st (_ & Hc & Hl). apply safe_or_Ok. simpl.
    split; [lia |]. by rewrite length_rev.
Qed.

Section ZeroFlux.
(** The gradient vanishes on the grid, as it does for a constant field,
    and the seed candidates map into the grid. *)
Variables (xy_in : grid Z) (nablax nablay : grid T).
Variables (linex liney distance integral : list T).

Local Abbreviation M := (N_FIELD_LINES * FIELD_LINE_FACTOR).
Local Abbreviation zero := (of_int 0).

Hypothesis N_pos : 0 < N_FIELD_LINES.
Hypothesis F_pos : 0 < FIELD_LINE_FACTOR.
Hypothesis NX_pos : 0 < NX.
Hypothesis NY_pos : 0 < NY.
Hypothesis xy_in_dims : dims NX NY xy_in.
Hypothesis nablax_dims : dims NX NY nablax.
Hypothesis nablay_dims : dims NX NY nablay.
Hypothesis linex_length : length linex = Z.to_nat M.
Hypothesis liney_length : length liney = Z.to_nat M.
Hypothesis distance_length : length distance = Z.to_nat M.
Hypothesis integral_length : length integral = Z.to_nat (M + 1).
Hypothesis candidates_in_grid : forall i x y,
  rd1 linex i = Ok x -> rd1 liney i = Ok y ->
  0 <= fst (xy_to_ij x y) < NX /\ 0 <= snd (xy_to_ij x y) < NY.
Hypothesis nablax_zero : forall a b,
  0 <= a < NX -> 0 <= b < NY -> rd nablax a b = Ok zero.
Hypothesis nablay_zero : forall a b,
  0 <= a < NX -> 0 <= b < NY -> rd nablay a b = Ok zero.
(** The arithmetic at zero: exact in every ring, and true of binary64
    for finite arc lengths. *)
Hypothesis flux_zero : forall i d,
  rd1 distance i = Ok d -> (module2 zero zero * d)%F = zero.
Hypothesis add_zero : (zero + zero)%F = zero.
Hypothesis le_first_target :
  (zero <=? of_int 1 * (zero / of_int N_FIELD_LINES))%F = true.

Lemma M_pos : 0 < M.
Proof. lia. Qed.

Lemma integral_zero :
  exists integral',
    for_loop 0 M
      (integral_step xy_to_ij module2 nablax nablay linex liney distance)
      integral = Ok integral'
    /\ length integral' = Z.to_nat (M + 1)
    /\ (forall k, 0 <= k < M -> rd1 integral' k = Ok zero).
Proof.
  pose proof M_pos as HM.
  apply (for_loop_inv (fun i (a : list T) =>
           length a = Z.to_nat (M + 1)
           /\ (forall k, 0 <= k < i -> rd1 a k = Ok zero))); [lia | |].
  - split; [done |]. intros k Hk. lia.
  - intros i a Hi (Hlen & Hprev). unfold integral_step.
    destruct (rd1_in linex i) as [x Hx]; [lia |]. rewrite Hx. simpl.
    destruct (rd1_in liney i) as [y Hy]; [lia |]. rewrite Hy. simpl.
    destruct (candidates_in_grid i x y Hx Hy) as [Ha Hb].
    rewrite (nablax_zero _ _ Ha Hb), (nablay_zero _ _ Ha Hb). simpl.
    destruct (rd1_in distance i) as [d Hd]; [lia |]. rewrite Hd. simpl.
    rewrite (flux_zero i d Hd).
    assert (Hw : forall v, exists a', wr1 a i v = Ok a'
              /\ length a' = Z.to_nat (M + 1)
              /\ (forall k, k <> i -> rd1 a' k = rd1 a k)
              /\ rd1 a' i = Ok v).
    { intros v. destruct (wr1_in a i v) as [a' Ha']; [lia |].
      exists a'. split_and!; [done | | |].
      - by rewrite (wr1_length _ _ _ _ Ha').
      - intros k Hk. by apply (rd1_wr1_other a i v).
      - by apply (rd1_wr1_same a i v). }
    destruct (Z.ltb_spec 0 i) as [Hi0 | Hi0].
    + rewrite (Hprev (i - 1)) by lia. simpl. rewrite add_zero.
      destruct (Hw zero) as (a' & -> & Hlen' & Hoth & Hnew).
      exists a'. split_and!; [done | done |].
      intros k Hk. destruct (decide (k = i)) as [-> | Hne]; [done |].
      rewrite (Hoth k Hne). apply Hprev. lia.
    + destruct (Hw zero) as (a' & -> & Hlen' & Hoth & Hnew).
      exists a'. split_and!; [done | done |].
      intros k Hk. destruct (decide (k = i)) as [-> | Hne]; [done |].
      rewrite (Hoth k Hne). apply Hprev. lia.
Qed.

(** When no entry from [i] on exceeds the target, the search stops at
    the guard [i < N_FIELD_LINES*FIELD_LINE_FACTOR], on the index one
    past the last candidate. *)
Lemma next_seed_exhausts (a : list T) (deltaintens : T) (j i : Z) :
  length a = Z.to_nat (M + 1) ->
  0 <= i <= M ->
  (forall k v, i <= k < M -> rd1 a k = Ok v ->
     (v <=? of_int j * deltaintens)%F = true) ->
  next_seed N_FIELD_LINES FIELD_LINE_FACTOR a deltaintens j i = Ok M.
Proof.
  intros Hlen Hi Hle. pose proof M_pos as HM. unfold next_seed.
  destruct (while_loop_inv (fun i' => i <= i' <= M)
              (fun i' => Z.to_nat (M - i')) (Z.to_nat M)
              (fun i' => v <- rd1 a i' ;;
                 Ok ((v <=? of_int j * deltaintens)%F && (i' <? M)))
              (fun i' => Ok (i' + 1)) i) as (i' & -> & Hi' & Hstop).
  - lia.
  - lia.
  - intros i' Hi'. destruct (rd1_in a i') as [v Hv]; [lia |].
    rewrite Hv. simpl. eexists. split; [reflexivity |].
    intros [_ Hlt%Z.ltb_lt]%andb_true_iff.
    exists (i' + 1). split; [done |]. split; lia.
  - f_equal. destruct (decide (i' = M)) as [-> | Hne]; [done |].
    exfalso. destruct (rd1_in a i') as [v Hv]; [lia |].
    rewrite Hv in Hstop. simpl in Hstop.
    rewrite (Hle i' v) in Hstop by (done || lia).
    destruct (Z.ltb_spec i' M); [discriminate | lia].
Qed.

(** C6. The seeding pass on a gradient that vanishes everywhere: the
    cumulative integral is zero at every candidate, no candidate
    exceeds the first target, the search for the first seed after the
    mandatory one ends on the index
    [N_FIELD_LINES*FIELD_LINE_FACTOR], and [linex] is read one past
    its end.  No list of lines is produced. *)
Theorem draw_wave_field_lines_seed_past_end :
  draw_wave_field_lines NX NY N_FIELD_LINES FIELD_LINE_FACTOR xy_to_ij xy_to_pos
    module2 c_sqrt xy_in nablax nablay linex liney distance integral
  = Err OutOfBounds.
Proof.
  pose proof M_pos as HM. unfold draw_wave_field_lines.
  destruct integral_zero as (integral' & -> & Hlen & Hz). simpl.
  rewrite (Hz (M - 1)) by lia. simpl.
  destruct (rd1_in linex 0) as [x0 Hx0]; [lia |]. rewrite Hx0. simpl.
  destruct (rd1_in liney 0) as [y0 Hy0]; [lia |]. rewrite Hy0. simpl.
  destruct (draw_field_line_ok x0 y0 xy_in nablax nablay (dec 2 (-5)) 100000
              NX_pos NY_pos xy_in_dims nablax_dims nablay_dims) as [line ->].
  simpl.
  rewrite (for_loop_first_err 1 (N_FIELD_LINES + 1) _ _ OutOfBounds); [done | lia |].
  unfold seed_step. simpl.
  rewrite (next_seed_exhausts integral' _ 1 0 Hlen); [| lia |].
  - simpl. rewrite (rd1_out linex M); [done | lia].
  - intros k v Hk Hv. rewrite (Hz k) in Hv by lia.
    injection Hv as <-. exact le_first_target.
Qed.

End ZeroFlux.

End FieldLineFacts.

(** ** Facts on loops: splitting and lockstep *)

Section LoopSplit.
Context {S : Type}.

(** The first iteration taken out of the loop. *)
Lemma for_loop_first lo hi (body : Z -> S -> result S) s :
  lo < hi ->
  for_loop lo hi body s = (s' <- body lo s ;; for_loop (lo + 1) hi body s').
Proof.
  intros Hlt. unfold for_loop.
  replace (Z.to_nat (hi - lo)) with (Datatypes.S (Z.to_nat (hi - (lo + 1)))) by lia.
  done.
Qed.

(** A loop whose iterations all return their state returns it. *)
Lemma for_loop_skip lo hi (body : Z -> S -> result S) s :
  (forall i, lo <= i < hi -> body i s = Ok s) -> for_loop lo hi body s = Ok s.
Proof.
  intros Hskip. destruct (Z.le_gt_cases lo hi) as [Hle | Hgt].
  - destruct (for_loop_inv (fun _ s' => s' = s) lo hi body s) as (s' & -> & ->);
      [done | done | | done].
    intros i s0 Hi ->. exists s. split; [by apply Hskip | done].
  - unfold for_loop. by replace (Z.to_nat (hi - lo)) with 0%nat by lia.
Qed.

End LoopSplit.

Section LoopSim.
Context {S1 S2 : Type}.

Lemma for_nat_sim (R : S1 -> S2 -> Prop) n lo
  (b1 : Z -> S1 -> result S1) (b2 : Z -> S2 -> result S2) s1 s2 :
  R s1 s2 ->
  (forall i a b, lo <= i < lo + Z.of_nat n -> R a b ->
     exists a' b', b1 i a = Ok a' /\ b2 i b = Ok b' /\ R a' b') ->
  exists a' b', for_nat n lo b1 s1 = Ok a' /\ for_nat n lo b2 s2 = Ok b' /\ R a' b'.
Proof.
  revert lo s1 s2. induction n as [| n IH]; intros lo s1 s2 H0 Hstep.
  - by exists s1, s2.
  - destruct (Hstep lo s1 s2) as (a & b & Ha & Hb & HR); [lia | done |].
    destruct (IH (lo + 1) a b) as (a' & b' & Ha' & Hb' & HR'); [done | |].
    + intros i a0 b0 Hi. apply Hstep. lia.
    + exists a', b'. simpl. rewrite Ha, Hb. simpl. done.
Qed.

(** Two loops over the same cells whose bodies keep a relation between
    their states end in related states. *)
Lemma grid_loop_sim (R : S1 -> S2 -> Prop) (li lj nx ny : Z)
  (b1 : Z -> Z -> S1 -> result S1) (b2 : Z -> Z -> S2 -> result S2) s1 s2 :
  R s1 s2 ->
  (forall i j a b, li <= i < nx -> lj <= j < ny -> R a b ->
     exists a' b', b1 i j a = Ok a' /\ b2 i j b = Ok b' /\ R a' b') ->
  exists a' b',
    for_loop li nx (fun i => for_loop lj ny (fun j => b1 i j)) s1 = Ok a'
    /\ for_loop li nx (fun i => for_loop lj ny (fun j => b2 i j)) s2 = Ok b'
    /\ R a' b'.
Proof.
  intros H0 Hcell. unfold for_loop at 1 3.
  apply for_nat_sim; [done |].
  intros i a b Hi HR. unfold for_loop.
  apply for_nat_sim; [done |].
  intros j a0 b0 Hj. apply Hcell; lia.
Qed.

End LoopSim.

(** ** Facts on the rescaling *)

Section RenormaliseFacts.
Context {T : Type} `{Arith T}.
Variables (NX NY : Z).
Variable c_sqrt : T -> T.

Lemma renormalise_cell_step stdv (xy_in : grid Z) (phi : grid T) i j :
  dims NX NY xy_in -> dims NX NY phi -> 0 <= i < NX -> 0 <= j < NY ->
  exists phi' s x,
    renormalise_cell stdv xy_in i j phi = Ok phi'
    /\ dims NX NY phi'
    /\ rd xy_in i j = Ok s /\ rd phi i j = Ok x
    /\ (forall a b, (a, b) <> (i, j) -> rd phi' a b = rd phi a b)
    /\ rd phi' i j = Ok (if s =? 0 then x else (x / stdv)%F).
Proof.
  intros Hds Hd Hi Hj. unfold renormalise_cell.
  destruct (rd_in xy_in NX NY i j Hds Hi Hj) as [s Hs]. rewrite Hs. simpl.
  destruct (rd_in phi NX NY i j Hd Hi Hj) as [x Hx].
  destruct (Z.eqb_spec s 0) as [-> | Hs0].
  - exists phi, 0, x. by split_and!.
  - rewrite Hx. simpl.
    destruct (wr_in phi NX NY i j (x / stdv)%F Hd Hi Hj) as [phi' Hw].
    exists phi', s, x. split_and!; try done.
    + by apply (wr_dims phi NX NY i j (x / stdv)%F).
    + intros a b Hab. by apply (rd_wr_other phi i j (x / stdv)%F).
    + destruct (Z.eqb_spec s 0); [done |]. by apply (rd_wr_same phi i j (x / stdv)%F).
Qed.

(** What [renormalise_field] computes, cell by cell. *)
Lemma renormalise_field_cells (phi : grid T) (xy_in : grid Z) (variance : T) :
  1 <= NX -> 1 <= NY -> dims NX NY xy_in -> dims NX NY phi ->
  exists phi',
    renormalise_field NX NY c_sqrt phi xy_in variance = Ok phi'
    /\ dims NX NY phi'
    /\ (forall a b s x, 1 <= a < NX -> 1 <= b < NY ->
          rd xy_in a b = Ok s -> rd phi a b = Ok x ->
          rd phi' a b = Ok (if s =? 0 then x else (x / c_sqrt variance)%F))
    /\ (forall a b, ~ (1 <= a /\ 1 <= b) -> rd phi' a b = rd phi a b).
Proof.
  intros Hx Hy Hds Hd. unfold renormalise_field.
  destruct (grid_loop_inv (fun i j (p : grid T) =>
      dims NX NY p
      /\ (forall a b s x, 1 <= a < NX -> 1 <= b < NY -> before i j a b ->
            rd xy_in a b = Ok s -> rd phi a b = Ok x ->
            rd p a b = Ok (if s =? 0 then x else (x / c_sqrt variance)%F))
      /\ (forall a b, ~ (1 <= a /\ 1 <= b /\ before i j a b) -> rd p a b = rd phi a b))
    1 1 NX NY (fun i j => renormalise_cell (c_sqrt variance) xy_in i j) phi)
    as (phi' & Hrun & Hd' & Hin & Hout); [lia | lia | | | |].
  - split_and!; [done | | done]. intros a b s x Ha Hb Hbf. unfold before in Hbf. lia.
  - intros i j p Hi Hj (Hp & Hin & Hout).
    destruct (renormalise_cell_step (c_sqrt variance) xy_in p i j Hds Hp
                ltac:(lia) ltac:(lia))
      as (p' & s & x & -> & Hp' & Hs & Hx0 & Hoth & Hnew).
    exists p'. split_and!; try done.
    + intros a b s' x' Ha Hb Hbf Hs' Hx'.
      destruct (decide ((a, b) = (i, j))) as [[= -> ->] | Hne].
      * rewrite Hnew. rewrite Hout in Hx0 by (unfold before; lia).
        assert (s' = s) as -> by congruence. assert (x' = x) as -> by congruence. done.
      * rewrite (Hoth a b Hne). apply Hin; try done.
        unfold before in *. assert (~ (a = i /\ b = j)) by (intros [-> ->]; done). lia.
    + intros a b Hab. destruct (decide ((a, b) = (i, j))) as [[= -> ->] | Hne].
      * exfalso. apply Hab. unfold before. lia.
      * rewrite (Hoth a b Hne). apply Hout. unfold before in *. lia.
  - intros i p Hi (Hp & Hin & Hout). split_and!; try done.
    + intros a b s x Ha Hb Hbf. apply Hin; try done. unfold before in *. lia.
    + intros a b Hab. apply Hout. unfold before in *. lia.
  - exists phi'. split_and!; try done.
    + intros a b s x Ha Hb. apply Hin; try done. unfold before. lia.
    + intros a b Hab. apply Hout. lia.
Qed.

(** [renormalise_field] returns; it divides by [sqrt(variance)] every
    cell of row and column 1 and above whose status is not 0, the
    boundary cells (status 2 and above) with the interior ones, and
    leaves the cells of status 0 and the whole of row 0 and column 0 as
    they were. *)
Theorem renormalise_field_rescales (phi : grid T) (xy_in : grid Z) (variance : T) :
  1 <= NX -> 1 <= NY -> dims NX NY xy_in -> dims NX NY phi ->
  exists phi',
    renormalise_field NX NY c_sqrt phi xy_in variance = Ok phi'
    /\ (forall a b s x, 1 <= a < NX -> 1 <= b < NY ->
          rd xy_in a b = Ok s -> s <> 0 -> rd phi a b = Ok x ->
          rd phi' a b = Ok (x / c_sqrt variance)%F)
    /\ (forall a b s, rd xy_in a b = Ok s -> s = 0 \/ a = 0 \/ b = 0 ->
          rd phi' a b = rd phi a b).
Proof.
  intros Hx Hy Hds Hd.
  destruct (renormalise_field_cells phi xy_in variance Hx Hy Hds Hd)
    as (phi' & Hrun & Hd' & Hin & Hout).
  exists phi'. split_and!; [done | |].
  - intros a b s x Ha Hb Hs Hs0 Hv. rewrite (Hin a b s x Ha Hb Hs Hv).
    destruct (Z.eqb_spec s 0); done.
  - intros a b s Hs Hcase.
    destruct (rd_Ok_range _ _ _ _ _ _ Hds Hs) as [Ha Hb].
    destruct (decide (1 <= a /\ 1 <= b)) as [[Ha1 Hb1] | Hn]; [| by apply Hout].
    destruct Hcase as [-> | Hcase]; [| lia].
    destruct (rd_in phi NX NY a b Hd Ha Hb) as [x Hv].
    rewrite (Hin a b 0 x ltac:(lia) ltac:(lia) Hs Hv). done.
Qed.

End RenormaliseFacts.

Section UnitVariance.
Context {T : Type} `{Arith T} `{!ExactArith T} `{!ExactField T}.
Variables (NX NY : Z).
Variable c_sqrt : T -> T.

Add Ring exact_ring_var : ea_ring.

Lemma square_of_quotient (x s : T) :
  s <> of_int 0 -> (x / s * (x / s) * (s * s))%F = (x * x)%F.
Proof.
  intros Hs.
  replace (x / s * (x / s) * (s * s))%F with ((x / s * s) * (x / s * s))%F by ring.
  by rewrite ef_div_mul.
Qed.

(** The rescaling does what it is for: [compute_variance] and
    [renormalise_field] visit the same cells (rows and columns from 1,
    status not 0), so a field divided by the square root of its variance
    has variance 1 (exact arithmetic in a field, exact square root,
    variance not 0). *)
Theorem renormalise_field_unit_variance (phi : grid T) (xy_in : grid Z) (var : T) :
  1 <= NX -> 1 <= NY -> dims NX NY xy_in -> dims NX NY phi ->
  compute_variance NX NY phi xy_in = Ok var ->
  var <> of_int 0 ->
  (c_sqrt var * c_sqrt var)%F = var ->
  exists phi',
    renormalise_field NX NY c_sqrt phi xy_in var = Ok phi'
    /\ compute_variance NX NY phi' xy_in = Ok (of_int 1).
Proof.
  intros Hx Hy Hds Hd Hvar Hnz Hsq.
  destruct (renormalise_field_cells NX NY c_sqrt phi xy_in var Hx Hy Hds Hd)
    as (phi' & Hrun & Hd' & Hin & _).
  exists phi'. split; [done |].
  assert (Hs : c_sqrt var <> of_int 0).
  { intros Hz. apply Hnz. rewrite <- Hsq, Hz. ring. }
  destruct (grid_loop_sim (fun st st' : Z * T =>
              0 <= fst st /\ fst st' = fst st /\ (snd st' * var)%F = snd st)
              1 1 NX NY (fun i j => variance_cell phi xy_in i j)
              (fun i j => variance_cell phi' xy_in i j) (0, of_int 0) (0, of_int 0))
    as ([n S] & [n' S'] & Hrun1 & Hrun2 & Hpos & Hn & HS).
  - split_and!; [done | done |]. simpl. ring.
  - intros i j [n S] [n' S'] Hi Hj (Hpos & Hn & HS). simpl in *. subst n'.
    unfold variance_cell.
    destruct (rd_in xy_in NX NY i j Hds ltac:(lia) ltac:(lia)) as [s Hst].
    destruct (rd_in phi NX NY i j Hd ltac:(lia) ltac:(lia)) as [x Hxv].
    rewrite Hst. simpl.
    destruct (Z.eqb_spec s 0) as [-> | Hs0].
    + exists (n, S), (n, S'). by split_and!.
    + rewrite (Hin i j s x Hi Hj Hst Hxv), Hxv. simpl.
      destruct (Z.eqb_spec s 0); [done |].
      eexists _, _. split_and!; [reflexivity | reflexivity | simpl; lia | done |]. simpl.
      rewrite <- HS, <- (square_of_quotient x (c_sqrt var) Hs), Hsq. ring.
  - simpl in *. subst n'.
    unfold compute_variance in *. rewrite Hrun1 in Hvar. rewrite Hrun2. simpl in *.
    injection Hvar as Hvar. f_equal.
    set (m := if n =? 0 then 1 else n) in *.
    assert (Hm : (of_int m : T) <> of_int 0).
    { apply ef_of_int_pos. subst m. destruct (Z.eqb_spec n 0); lia. }
    assert (HSm : S = (var * of_int m)%F).
    { rewrite <- Hvar. by rewrite ef_div_mul. }
    assert (HS' : S' = of_int m).
    { rewrite <- (ef_mul_div S' var Hnz), HS, HSm.
      replace (var * of_int m)%F with (of_int m * var)%F by ring.
      by apply ef_mul_div. }
    rewrite HS'.
    replace (of_int m : T) with (of_int 1 * of_int m)%F at 1 by ring.
    by apply ef_mul_div.
Qed.
End UnitVariance.

Section RenormaliseBinary64.
Variables (NX NY : Z).

(** Any double divided by [sqrt(0.0)] is an infinity or a NaN. *)
Lemma b64_div_sqrt_zero (x : float) :
  b64_finite (x / PrimFloat.sqrt 0)%float = false.
Proof.
  unfold b64_finite. rewrite div_spec.
  change (Prim2SF (PrimFloat.sqrt 0)) with (S754_zero false).
  by destruct (Prim2SF x).
Qed.

(** On binary64 a variance of 0.0 is not guarded against: the standard
    deviation is [sqrt(0.0) = 0.0] and every cell that
    [renormalise_field] rescales comes back as an infinity or, when it
    held a zero, as a NaN. *)
Theorem renormalise_field_zero_variance (phi : grid float) (xy_in : grid Z) :
  1 <= NX -> 1 <= NY -> dims NX NY xy_in -> dims NX NY phi ->
  exists phi',
    renormalise_field NX NY PrimFloat.sqrt phi xy_in 0%float = Ok phi'
    /\ (forall a b s, 1 <= a < NX -> 1 <= b < NY ->
          rd xy_in a b = Ok s -> s <> 0 ->
          exists v, rd phi' a b = Ok v /\ b64_finite v = false).
Proof.
  intros Hx Hy Hds Hd.
  destruct (renormalise_field_cells NX NY PrimFloat.sqrt phi xy_in 0%float
              Hx Hy Hds Hd) as (phi' & Hrun & Hd' & Hin & _).
  exists phi'. split; [done |].
  intros a b s Ha Hb Hs Hs0.
  destruct (rd_in phi NX NY a b Hd ltac:(lia) ltac:(lia)) as [x Hv].
  rewrite (Hin a b s x Ha Hb Hs Hv).
  destruct (Z.eqb_spec s 0); [done |].
  eexists. split; [reflexivity |]. apply b64_div_sqrt_zero.
Qed.

End RenormaliseBinary64.

(** ** Facts on the start of the run *)

Section Overwrite.
Context {T : Type} `{Arith T}.
Variables (NX NY : Z) (T_IN T_OUT : T).
Variable ij_to_xy : Z -> Z -> T * T.
Variable xy_in_billiard : T -> T -> Z.
Variable c_exp : T -> T.
Variable c_pow : T -> T -> T.

(** [init_gaussian] assigns every cell of both arrays: what it returns
    does not depend on what they held. *)
Lemma init_gaussian_overwrites x y mean amplitude scalex
  (phi phi0 : grid T) (xy_in xy_in0 : grid Z) :
  0 <= NX -> 0 <= NY ->
  dims NX NY phi -> dims NX NY xy_in -> dims NX NY phi0 -> dims NX NY xy_in0 ->
  init_gaussian NX NY T_IN T_OUT ij_to_xy xy_in_billiard c_exp c_pow
    x y mean amplitude scalex phi xy_in
  = init_gaussian NX NY T_IN T_OUT ij_to_xy xy_in_billiard c_exp c_pow
      x y mean amplitude scalex phi0 xy_in0.
Proof.
  intros Hx Hy Hd Hds Hd0 Hds0.
  destruct (init_gaussian_cells NX NY T_IN T_OUT ij_to_xy xy_in_billiard c_exp c_pow
              x y mean amplitude scalex phi xy_in Hx Hy Hd Hds)
    as (p & s & -> & Hp & Hs & Hall).
  destruct (init_gaussian_cells NX NY T_IN T_OUT ij_to_xy xy_in_billiard c_exp c_pow
              x y mean amplitude scalex phi0 xy_in0 Hx Hy Hd0 Hds0)
    as (p0 & s0 & -> & Hp0 & Hs0 & Hall0).
  f_equal. f_equal.
  - apply (grid_ext p0 p NX NY Hp0 Hp). intros i j Hi Hj.
    destruct (Hall i j Hi Hj) as [_ ->]. by destruct (Hall0 i j Hi Hj) as [_ ->].
  - apply (grid_ext s0 s NX NY Hs0 Hs). intros i j Hi Hj.
    destruct (Hall i j Hi Hj) as [-> _]. by destruct (Hall0 i j Hi Hj) as [-> _].
Qed.

End Overwrite.

Section Idempotence.
Context {T : Type} `{Arith T}.
Variables (NX NY : Z) (T_IN : T).
Variable ij_to_xy : Z -> Z -> T * T.
Variable xy_in_billiard : T -> T -> Z.

Local Abbreviation init_julia_set :=
  (init_julia_set NX NY T_IN ij_to_xy xy_in_billiard).

(** Reclassifying twice with the same Julia parameter is reclassifying
    once: the second call stores the same statuses and writes [T_IN]
    where the first one wrote it. *)
Theorem init_julia_set_idempotent (phi : grid T) (xy_in : grid Z) :
  0 <= NX -> 0 <= NY -> dims NX NY phi -> dims NX NY xy_in ->
  exists phi' xy_in',
    init_julia_set phi xy_in = Ok (phi', xy_in')
    /\ init_julia_set phi' xy_in' = Ok (phi', xy_in').
Proof.
  intros Hx Hy Hd Hds.
  destruct (init_julia_set_cells NX NY T_IN ij_to_xy xy_in_billiard phi xy_in
              Hx Hy Hd Hds) as (p & s & Hrun & Hp & Hs & Hall).
  destruct (init_julia_set_cells NX NY T_IN ij_to_xy xy_in_billiard p s
              Hx Hy Hp Hs) as (p' & s' & Hrun' & Hp' & Hs' & Hall').
  exists p, s. split; [done |]. rewrite Hrun'. f_equal. f_equal.
  - apply (grid_ext p p' NX NY Hp Hp'). intros i j Hi Hj.
    destruct (Hall i j Hi Hj) as (_ & Hset & _).
    destruct (Hall' i j Hi Hj) as (_ & Hset' & Hkeep').
    destruct (Z.le_gt_cases 2 (new_status ij_to_xy xy_in_billiard i j)) as [Hge | Hlt].
    + by rewrite (Hset Hge), (Hset' Hge).
    + apply Hkeep'. lia.
  - apply (grid_ext s s' NX NY Hs Hs'). intros i j Hi Hj.
    destruct (Hall i j Hi Hj) as (-> & _). by destruct (Hall' i j Hi Hj) as (-> & _).
Qed.

End Idempotence.

Section AnimationFacts.
Context {T : Type} `{Arith T}.
Variables (NX NY : Z) (T_IN T_OUT XMIN XMAX DT VISCOSITY : T) (NSTEPS : Z).
Variable ij_to_xy : Z -> Z -> T * T.
Variable xy_in_billiard : T -> T -> T -> T -> Z.
Variables (c_exp : T -> T) (c_pow : T -> T -> T) (c_cos c_sin : T -> T).

Local Abbreviation animation_init :=
  (animation_init NX NY T_IN T_OUT XMIN XMAX DT VISCOSITY NSTEPS ij_to_xy
     xy_in_billiard c_exp c_pow c_cos c_sin).

(** The arrays that [animation] allocates are not initialised, and the
    first call that touches them, [set_Julia_parameters(0, ...)], leaves
    the field wherever the status is below 2.  The call of
    [init_gaussian] that follows assigns every cell: the state from
    which the simulation starts does not depend on what [malloc]
    returned. *)
Theorem animation_init_ignores_allocation (phi phi0 : grid T) (xy_in xy_in0 : grid Z) :
  0 <= NX -> 0 <= NY ->
  dims NX NY phi -> dims NX NY xy_in -> dims NX NY phi0 -> dims NX NY xy_in0 ->
  is_Ok (animation_init phi xy_in)
  /\ animation_init phi xy_in = animation_init phi0 xy_in0.
Proof.
  intros Hx Hy Hd Hds Hd0 Hds0. unfold animation_init, set_Julia_parameters.
  cbv zeta.
  set (jx := (- dec 9 (-1) + dec 15 (-2) * c_cos (of_int 0 * DPI / of_int NSTEPS))%F).
  set (jy := (dec 15 (-2) * c_sin (of_int 0 * DPI / of_int NSTEPS))%F).
  destruct (init_julia_set_cells NX NY T_IN ij_to_xy (xy_in_billiard jx jy)
              phi xy_in Hx Hy Hd Hds) as (p & s & -> & Hp & Hs & _).
  destruct (init_julia_set_cells NX NY T_IN ij_to_xy (xy_in_billiard jx jy)
              phi0 xy_in0 Hx Hy Hd0 Hds0) as (p0 & s0 & -> & Hp0 & Hs0 & _).
  simpl.
  rewrite (init_gaussian_overwrites NX NY T_IN T_OUT ij_to_xy (xy_in_billiard jx jy)
             c_exp c_pow _ _ _ _ _ p p0 s s0) by done.
  split; [| done].
  destruct (init_gaussian_cells NX NY T_IN T_OUT ij_to_xy (xy_in_billiard jx jy)
              c_exp c_pow (- of_int 1)%F (of_int 0) (dec 1 (-1)) (of_int 0)
              (dec 1 (-2)) p0 s0 Hx Hy Hp0 Hs0) as (p' & s' & -> & _).
  simpl. by eexists.
Qed.

End AnimationFacts.

Section Binary64Facts.

(** A zero amplitude times a finite factor is a zero, of either sign. *)
Lemma b64_zero_mul (e : float) :
  b64_finite e = true -> exists s, Prim2SF (0 * e)%float = S754_zero s.
Proof.
  unfold b64_finite. intros He. rewrite mul_spec.
  change (Prim2SF 0%float) with (S754_zero false).
  destruct (Prim2SF e); try discriminate; simpl; by eexists.
Qed.

Lemma b64_zero_below (z : float) (s : bool) :
  Prim2SF z = S754_zero s -> (z <? dec 1 (-15))%F = true.
Proof.
  intros Hz. change ((z <? dec 1 (-15))%float = true).
  rewrite ltb_spec, Hz. by vm_compute.
Qed.

End Binary64Facts.

Section FlatStart.
Variables (NX NY : Z) (T_IN T_OUT : float).
Variable ij_to_xy : Z -> Z -> float * float.
Variable xy_in_billiard : float -> float -> Z.
Variable c_exp : float -> float.
Variable c_pow : float -> float -> float.

(** On binary64, with the amplitude 0.0 that [animation] passes, the
    Gaussian is absent: the product [amplitude*exp(...)] is a zero, the
    guard [module < 1.0e-15] replaces it, and every interior cell starts
    at [mean + 1.0e-15/scalex], whatever its position and the centre
    [(x, y)]. *)
Theorem init_gaussian_zero_amplitude (x y mean scalex : float)
  (phi : grid float) (xy_in : grid Z) :
  0 <= NX -> 0 <= NY -> dims NX NY phi -> dims NX NY xy_in ->
  (forall a b, 0 <= a < NX -> 0 <= b < NY ->
     b64_finite
       (c_exp (- ((fst (ij_to_xy a b) - x) * (fst (ij_to_xy a b) - x)
                  + (snd (ij_to_xy a b) - y) * (snd (ij_to_xy a b) - y))
               / (scalex * scalex))%F) = true) ->
  exists phi' xy_in',
    init_gaussian NX NY T_IN T_OUT ij_to_xy xy_in_billiard c_exp c_pow
      x y mean 0%float scalex phi xy_in = Ok (phi', xy_in')
    /\ (forall a b, 0 <= a < NX -> 0 <= b < NY -> rd xy_in' a b = Ok 1 ->
          rd phi' a b = Ok (mean + dec 1 (-15) / scalex)%F).
Proof.
  intros Hx Hy Hd Hds Hexp.
  destruct (init_gaussian_cells NX NY T_IN T_OUT ij_to_xy xy_in_billiard c_exp c_pow
              x y mean 0%float scalex phi xy_in Hx Hy Hd Hds)
    as (phi' & xy_in' & Hrun & _ & _ & Hall).
  exists phi', xy_in'. split; [done |].
  intros a b Ha Hb Hs. destruct (Hall a b Ha Hb) as [Hst ->].
  rewrite Hs in Hst. injection Hst as <-. f_equal.
  unfold initial_temperature. simpl.
  match goal with
  | |- context [PrimFloat.mul 0%float (c_exp ?v)] =>
      destruct (b64_zero_mul (c_exp v) (Hexp a b Ha Hb)) as [s Hz];
      pose proof (b64_zero_below _ s Hz) as Hlt
  end.
  simpl in Hlt. rewrite Hlt.
  done.
Qed.

End FlatStart.

(** ** Facts on the steps between two frames *)

Section FrameFacts.
Context {T : Type} `{Arith T}.
Variables (NX NY : Z).
Variable B_COND : bc_policy.
Variable FLOOR : bool.
Variables (VMAX SPEED : T).
Variables (intstep intstep1 : T).
Variable delta2 : Z -> Z -> T.

Local Abbreviation evolve_wave :=
  (evolve_wave NX NY B_COND FLOOR VMAX SPEED intstep intstep1 delta2).

(** One step, whatever [FLOOR]: the cells whose status is not 1 keep
    their value. *)
Lemma evolve_wave_keeps_others (xy_in : grid Z) (phi newphi : grid T) :
  grid_size_ok NX NY B_COND ->
  dims NX NY xy_in -> dims NX NY phi -> dims NX NY newphi ->
  exists phi',
    evolve_wave phi xy_in newphi = Ok phi'
    /\ dims NX NY phi'
    /\ (forall a b, rd xy_in a b <> Ok 1 -> rd phi' a b = rd phi a b).
Proof.
  intros Hsz Hds Hd Hdn. pose proof Hsz as (Hx & Hy & _).
  destruct (first_pass_frame NX NY B_COND FLOOR VMAX SPEED intstep intstep1 delta2
              xy_in phi newphi Hsz Hds Hd Hdn)
    as ([p n] & Hrun & Hp & Hn & Hfr). simpl in *.
  destruct (commit_pass_values NX NY xy_in n p Hx Hy Hds Hn Hp)
    as (phi' & Hrun' & Hd' & _ & Hout).
  exists phi'. unfold evolve_wave. rewrite Hrun. simpl.
  split_and!; try done.
  intros a b Hne. rewrite (Hout a b Hne). by apply Hfr.
Qed.

(** The [NVID] steps that [animation] takes between two frames return,
    whatever the boundary policy, the clamp and the content of the
    scratch arrays, and every cell whose status is not 1 comes out of
    them with the value it had: the boundary temperatures hold for the
    whole frame. *)
Theorem animation_evolve_frame (NVID : Z) (newphi : Z -> grid T)
  (xy_in : grid Z) (phi : grid T) :
  grid_size_ok NX NY B_COND -> 0 <= NVID ->
  dims NX NY xy_in -> dims NX NY phi -> (forall j, dims NX NY (newphi j)) ->
  exists phi',
    animation_evolve NX NY B_COND FLOOR VMAX SPEED intstep intstep1 delta2
      NVID newphi phi xy_in = Ok phi'
    /\ dims NX NY phi'
    /\ (forall a b s, rd xy_in a b = Ok s -> s <> 1 -> rd phi' a b = rd phi a b).
Proof.
  intros Hsz Hn Hds Hd Hdn. unfold animation_evolve.
  destruct (for_loop_inv (fun _ (p : grid T) =>
              dims NX NY p
              /\ (forall a b, rd xy_in a b <> Ok 1 -> rd p a b = rd phi a b))
              0 NVID (fun j p => evolve_wave p xy_in (newphi j)) phi)
    as (phi' & Hrun & Hd' & Hkeep); [done | done | |].
  - intros j p Hj [Hp Hkeep].
    destruct (evolve_wave_keeps_others xy_in p (newphi j) Hsz Hds Hp (Hdn j))
      as (p' & -> & Hp' & Hk).
    exists p'. split_and!; [done | done |].
    intros a b Hne. rewrite (Hk a b Hne). by apply Hkeep.
  - exists phi'. split_and!; [done | done |].
    intros a b s Hs Hs1. apply Hkeep. rewrite Hs. intros [= ?]. done.
Qed.

End FrameFacts.

(** A convex combination stays between the bounds of its terms. *)
Lemma Q_term (w v lo : Q) : (0 <= w -> lo <= v -> 0 <= w * (v - lo))%Q.
Proof. intros Hw Hv. apply Qmult_le_0_compat; lra. Qed.

Lemma Qc_convex_Q (x a b c d k s lo hi : Q) :
  (0 <= k -> s <= 1 -> k * (4 - s) <= 1 ->
  lo <= x <= hi -> lo <= a <= hi -> lo <= b <= hi -> lo <= c <= hi -> lo <= d <= hi ->
  lo <= x + k * (a + b + c + d - 4 * x - s * (a - x)) <= hi)%Q.
Proof.
  intros Hk Hs Hks Hx Ha Hb Hc Hd.
  assert (H1 : (0 <= k * (1 - s))%Q) by (apply Qmult_le_0_compat; lra).
  assert (H2 : (0 <= 1 - k * (4 - s))%Q) by lra.
  split.
  - pose proof (Q_term _ a lo H1 (proj1 Ha)).
    pose proof (Q_term _ b lo Hk (proj1 Hb)).
    pose proof (Q_term _ c lo Hk (proj1 Hc)).
    pose proof (Q_term _ d lo Hk (proj1 Hd)).
    pose proof (Q_term _ x lo H2 (proj1 Hx)).
    lra.
  - pose proof (Q_term _ (-a) (-hi) H1 ltac:(lra)).
    pose proof (Q_term _ (-b) (-hi) Hk ltac:(lra)).
    pose proof (Q_term _ (-c) (-hi) Hk ltac:(lra)).
    pose proof (Q_term _ (-d) (-hi) Hk ltac:(lra)).
    pose proof (Q_term _ (-x) (-hi) H2 ltac:(lra)).
    lra.
Qed.

Section MaximumPrinciple.
Variables (NX NY : Z).
Variable B_COND : bc_policy.
Variables (VMAX SPEED : Qc).
Variables (intstep intstep1 : Qc).
Variable delta2 : Z -> Z -> Qc.

Lemma Qc_convex (x a b c d lo hi : Qc) :
  (0 <= intstep -> SPEED <= 1 -> intstep * (of_int 4 - SPEED) <= 1 ->
   lo <= x <= hi -> lo <= a <= hi -> lo <= b <= hi -> lo <= c <= hi -> lo <= d <= hi ->
   lo <= x + intstep * (a + b + c + d - of_int 4 * x - SPEED * (a - x)) <= hi)%Qc.
Proof.
  unfold Qcle, Qcplus, Qcminus, Qcmult, Qcopp. simpl.
  rewrite !Qred_correct.
  intros. apply Qc_convex_Q; try done.
Qed.

Lemma stencil_value_bounded (phi : grid Qc) (lo hi : Qc) i j v :
  B_COND <> BC_ABSORBING ->
  (0 <= intstep)%Qc -> (SPEED <= 1)%Qc -> (intstep * (of_int 4 - SPEED) <= 1)%Qc ->
  (forall a b x, rd phi a b = Ok x -> (lo <= x <= hi)%Qc) ->
  stencil_value NX NY B_COND SPEED intstep intstep1 delta2 phi i j = Ok v ->
  (lo <= v <= hi)%Qc.
Proof.
  intros Hbc Hk Hs Hks Hb. unfold stencil_value.
  destruct (neighbours NX NY B_COND i j) as [[[iplus iminus] jplus] jminus].
  destruct (rd phi iplus j) as [a |] eqn:Ea; [simpl | discriminate].
  destruct (rd phi iminus j) as [b |] eqn:Eb; [simpl | discriminate].
  destruct (rd phi i jplus) as [c |] eqn:Ec; [simpl | discriminate].
  destruct (rd phi i jminus) as [d |] eqn:Ed; [simpl | discriminate].
  destruct (rd phi i j) as [x |] eqn:Ex; [simpl | discriminate].
  destruct B_COND; try done; simpl; intros [= <-];
    apply Qc_convex; eauto.
Qed.


Lemma evolve_wave_bounded (xy_in : grid Z) (phi newphi : grid Qc) (lo hi : Qc) :
  B_COND <> BC_ABSORBING ->
  0 < NX -> 0 < NY ->
  dims NX NY xy_in -> dims NX NY phi -> dims NX NY newphi ->
  (0 <= intstep)%Qc -> (SPEED <= 1)%Qc -> (intstep * (of_int 4 - SPEED) <= 1)%Qc ->
  (forall a b x, rd phi a b = Ok x -> (lo <= x <= hi)%Qc) ->
  exists phi',
    evolve_wave NX NY B_COND false VMAX SPEED intstep intstep1 delta2 phi xy_in newphi
    = Ok phi'
    /\ dims NX NY phi'
    /\ (forall a b x, rd phi' a b = Ok x -> (lo <= x <= hi)%Qc).
Proof.
  intros Hbc Hx Hy Hds Hd Hdn Hk Hs Hks Hb.
  destruct (evolve_wave_values NX NY B_COND false VMAX SPEED intstep intstep1
              delta2 xy_in phi newphi) as (phi' & Hrun & Hd' & Hin & Hout);
    [done | | done | done | done |].
  { unfold grid_size_ok. by split_and!. }
  exists phi'. split_and!; [done | done |].
  intros a b x Hv.
  destruct (rd_Ok_range _ _ _ _ _ _ Hd' Hv) as [Ha Hb'].
  destruct (rd_in xy_in NX NY a b Hds Ha Hb') as [s Hst].
  destruct (decide (s = 1)) as [-> | Hs1].
  - rewrite (Hin a b Hst) in Hv. by apply (stencil_value_bounded phi lo hi a b x).
  - rewrite Hout in Hv; [by apply (Hb a b) |]. rewrite Hst. intros [= ?]. done.
Qed.

(** The discrete maximum principle, in exact rational arithmetic: under
    the Dirichlet or the periodic policy with the clamp off, when
    [0 <= intstep], [SPEED <= 1] and [intstep * (4 - SPEED) <= 1], the
    [NVID] steps between two frames keep every cell between the least
    and the greatest value of the field they started from. *)
Theorem animation_evolve_maximum_principle (NVID : Z) (newphi : Z -> grid Qc)
  (xy_in : grid Z) (phi : grid Qc) (lo hi : Qc) :
  B_COND <> BC_ABSORBING ->
  0 < NX -> 0 < NY -> 0 <= NVID ->
  dims NX NY xy_in -> dims NX NY phi -> (forall j, dims NX NY (newphi j)) ->
  (0 <= intstep)%Qc -> (SPEED <= 1)%Qc -> (intstep * (of_int 4 - SPEED) <= 1)%Qc ->
  (forall a b x, rd phi a b = Ok x -> (lo <= x <= hi)%Qc) ->
  exists phi',
    animation_evolve NX NY B_COND false VMAX SPEED intstep intstep1 delta2
      NVID newphi phi xy_in = Ok phi'
    /\ (forall a b x, rd phi' a b = Ok x -> (lo <= x <= hi)%Qc).
Proof.
  intros Hbc Hx Hy Hn Hds Hd Hdn Hk Hs Hks Hb. unfold animation_evolve.
  destruct (for_loop_inv (fun _ (p : grid Qc) =>
              dims NX NY p /\ (forall a b x, rd p a b = Ok x -> (lo <= x <= hi)%Qc))
              0 NVID
              (fun j p => evolve_wave NX NY B_COND false VMAX SPEED intstep intstep1
                            delta2 p xy_in (newphi j)) phi)
    as (phi' & Hrun & _ & Hb'); [done | done | |].
  - intros j p Hj [Hp Hbp].
    destruct (evolve_wave_bounded xy_in p (newphi j) lo hi) as (p' & -> & Hp' & Hbp');
      try done.
    by exists p'.
  - by exists phi'.
Qed.

End MaximumPrinciple.

(** ** Conservation on the torus *)

Section SumFacts.
Context {T : Type} `{Arith T} `{!ExactArith T}.

Add Ring exact_ring_sum : ea_ring.

Lemma sum_to_ext n (f g : Z -> T) :
  (forall k, 0 <= k < Z.of_nat n -> f k = g k) -> sum_to n f = sum_to n g.
Proof.
  induction n as [| n IH]; intros Hfg; [done |]. simpl.
  rewrite IH, Hfg; [done | lia |]. intros k Hk. apply Hfg. lia.
Qed.

Lemma sum_to_add n (f g : Z -> T) :
  sum_to n (fun k => f k + g k)%F = (sum_to n f + sum_to n g)%F.
Proof. induction n as [| n IH]; simpl; [| rewrite IH]; ring. Qed.

Lemma sum_to_sub n (f g : Z -> T) :
  sum_to n (fun k => f k - g k)%F = (sum_to n f - sum_to n g)%F.
Proof. induction n as [| n IH]; simpl; [| rewrite IH]; ring. Qed.

Lemma sum_to_scale n (c : T) (f : Z -> T) :
  sum_to n (fun k => c * f k)%F = (c * sum_to n f)%F.
Proof. induction n as [| n IH]; simpl; [| rewrite IH]; ring. Qed.

(** The first term taken out of the sum. *)
Lemma sum_to_shift n (f : Z -> T) :
  sum_to (Datatypes.S n) f = (f 0 + sum_to n (fun k => f (k + 1)%Z))%F.
Proof.
  induction n as [| n IH].
  - simpl. change (Z.of_nat 0) with 0. ring.
  - change (sum_to (Datatypes.S (Datatypes.S n)) f)
      with (sum_to (Datatypes.S n) f + f (Z.of_nat (Datatypes.S n)))%F.
    rewrite IH. simpl.
    replace (Z.of_nat n + 1) with (Z.of_nat (Datatypes.S n)) by lia. ring.
Qed.

(** A sum over one turn of the torus does not see a rotation of the
    index, forward or backward. *)
Lemma sum_to_rotate_forward n (f : Z -> T) :
  sum_to n (fun k => f ((k + 1) mod Z.of_nat n)) = sum_to n f.
Proof.
  destruct n as [| n]; [done |].
  rewrite (sum_to_shift n f).
  change (sum_to (Datatypes.S n) (fun k => f ((k + 1) mod Z.of_nat (Datatypes.S n))))
    with (sum_to n (fun k => f ((k + 1) mod Z.of_nat (Datatypes.S n)))
          + f ((Z.of_nat n + 1) mod Z.of_nat (Datatypes.S n)))%F.
  replace ((Z.of_nat n + 1) mod Z.of_nat (Datatypes.S n)) with 0
    by (replace (Z.of_nat n + 1) with (Z.of_nat (Datatypes.S n)) by lia;
        by rewrite Z_mod_same_full).
  rewrite (sum_to_ext n _ (fun k => f (k + 1))); [ring |].
  intros k Hk. f_equal. apply Z.mod_small. lia.
Qed.

Lemma sum_to_rotate_backward n (f : Z -> T) :
  sum_to n (fun k => f ((k - 1) mod Z.of_nat n)) = sum_to n f.
Proof.
  destruct n as [| n]; [done |].
  rewrite (sum_to_shift n (fun k => f ((k - 1) mod Z.of_nat (Datatypes.S n)))).
  replace ((0 - 1) mod Z.of_nat (Datatypes.S n)) with (Z.of_nat n).
  2:{ apply (Z.mod_unique _ _ (-1)); lia. }
  rewrite (sum_to_ext n _ f); [simpl; ring |].
  intros k Hk. f_equal. replace (k + 1 - 1) with k by lia. apply Z.mod_small. lia.
Qed.

End SumFacts.

Section PeriodicNeighbours.
Variables (NX NY : Z).

(** The remainder of C is negative for [i - 1 = -1]; the guard that
    follows it adds a period, and what comes out is the index modulo
    the size. *)
Lemma wrap_backward (k n : Z) :
  0 <= k < n ->
  (if Z.rem (k - 1) n <? 0 then Z.rem (k - 1) n + n else Z.rem (k - 1) n)
  = (k - 1) mod n.
Proof.
  intros Hk. destruct (decide (k = 0)) as [-> | Hk0].
  - destruct (decide (n = 1)) as [-> | Hn1]; [done |].
    change (0 - 1) with (- (1)).
    rewrite Z.rem_opp_l, Z.rem_small by lia. simpl.
    apply (Z.mod_unique _ _ (-1)); lia.
  - rewrite Z.rem_mod_nonneg by lia.
    pose proof (Z.mod_pos_bound (k - 1) n ltac:(lia)).
    destruct (Z.ltb_spec ((k - 1) mod n) 0); [lia | done].
Qed.

Lemma neighbours_periodic i j :
  0 <= i < NX -> 0 <= j < NY ->
  neighbours NX NY BC_PERIODIC i j
  = ((i + 1) mod NX, (i - 1) mod NX, (j + 1) mod NY, (j - 1) mod NY).
Proof.
  intros Hi Hj. unfold neighbours. cbv zeta.
  rewrite (wrap_backward i NX Hi), (wrap_backward j NY Hj).
  by rewrite !Z.rem_mod_nonneg by lia.
Qed.

End PeriodicNeighbours.

Section Conservation.
Context {T : Type} `{Arith T} `{!ExactArith T}.
Variables (NX NY : Z).
Variables (VMAX SPEED : T).
Variables (intstep intstep1 : T).
Variable delta2 : Z -> Z -> T.

Add Ring exact_ring_heat : ea_ring.

Lemma cell_rd (g : grid T) i j v : rd g i j = Ok v -> cell g i j = v.
Proof. unfold cell. by intros ->. Qed.

Lemma stencil_value_periodic (phi : grid T) i j :
  dims NX NY phi -> 0 <= i < NX -> 0 <= j < NY ->
  stencil_value NX NY BC_PERIODIC SPEED intstep intstep1 delta2 phi i j
  = Ok (cell phi i j
        + intstep * (cell phi ((i + 1) mod NX) j + cell phi ((i - 1) mod NX) j
                     + cell phi i ((j + 1) mod NY) + cell phi i ((j - 1) mod NY)
                     - of_int 4 * cell phi i j
                     - SPEED * (cell phi ((i + 1) mod NX) j - cell phi i j)))%F.
Proof.
  intros Hd Hi Hj. unfold stencil_value.
  rewrite (neighbours_periodic NX NY i j Hi Hj).
  pose proof (Z.mod_pos_bound (i + 1) NX ltac:(lia)).
  pose proof (Z.mod_pos_bound (i - 1) NX ltac:(lia)).
  pose proof (Z.mod_pos_bound (j + 1) NY ltac:(lia)).
  pose proof (Z.mod_pos_bound (j - 1) NY ltac:(lia)).
  destruct (rd_in phi NX NY ((i + 1) mod NX) j Hd ltac:(lia) Hj) as [a Ha].
  destruct (rd_in phi NX NY ((i - 1) mod NX) j Hd ltac:(lia) Hj) as [b Hb].
  destruct (rd_in phi NX NY i ((j + 1) mod NY) Hd Hi ltac:(lia)) as [c Hc].
  destruct (rd_in phi NX NY i ((j - 1) mod NY) Hd Hi ltac:(lia)) as [d Hd'].
  destruct (rd_in phi NX NY i j Hd Hi Hj) as [x Hx].
  rewrite Ha, Hb, Hc, Hd', Hx. simpl.
  by rewrite (cell_rd _ _ _ _ Ha), (cell_rd _ _ _ _ Hb), (cell_rd _ _ _ _ Hc),
    (cell_rd _ _ _ _ Hd'), (cell_rd _ _ _ _ Hx).
Qed.

(** The sum of the updates is the update of the sums. *)
Lemma sum_to_stencil n (k q s : T) (f a b c d : Z -> T) :
  sum_to n (fun j => f j + k * (a j + b j + c j + d j - q * f j - s * (a j - f j)))%F
  = (sum_to n f
     + k * (sum_to n a + sum_to n b + sum_to n c + sum_to n d - q * sum_to n f
            - s * (sum_to n a - sum_to n f)))%F.
Proof. induction n as [| n IH]; simpl; [| rewrite IH]; ring. Qed.

(** With every cell interior, the periodic step conserves the sum of
    the field, whatever the integration step and the drift speed: the
    Laplacian and the drift are differences of the field with itself
    rotated around the torus (exact arithmetic, clamp off). *)
Theorem evolve_wave_periodic_conserves_heat (xy_in : grid Z) (phi newphi : grid T) :
  0 < NX -> 0 < NY ->
  dims NX NY xy_in -> dims NX NY phi -> dims NX NY newphi ->
  (forall a b, 0 <= a < NX -> 0 <= b < NY -> rd xy_in a b = Ok 1) ->
  exists phi',
    evolve_wave NX NY BC_PERIODIC false VMAX SPEED intstep intstep1 delta2
      phi xy_in newphi = Ok phi'
    /\ total_heat NX NY phi' = total_heat NX NY phi.
Proof.
  intros Hx Hy Hds Hd Hdn Hint.
  destruct (evolve_wave_values NX NY BC_PERIODIC false VMAX SPEED intstep intstep1
              delta2 xy_in phi newphi) as (phi' & Hrun & Hd' & Hin & _);
    [done | | done | done | done |].
  { unfold grid_size_ok. by split_and!. }
  exists phi'. split; [done |]. unfold total_heat.
  set (F := fun i j => cell phi i j).
  rewrite (sum_to_ext _ _ (fun i =>
             sum_to (Z.to_nat NY) (fun j => F i j)
             + intstep * (sum_to (Z.to_nat NY) (fun j => F ((i + 1) mod NX) j)
                          + sum_to (Z.to_nat NY) (fun j => F ((i - 1) mod NX) j)
                          + sum_to (Z.to_nat NY) (fun j => F i ((j + 1) mod NY))
                          + sum_to (Z.to_nat NY) (fun j => F i ((j - 1) mod NY))
                          - of_int 4 * sum_to (Z.to_nat NY) (fun j => F i j)
                          - SPEED * (sum_to (Z.to_nat NY) (fun j => F ((i + 1) mod NX) j)
                                     - sum_to (Z.to_nat NY) (fun j => F i j))))%F).
  2:{ intros i Hi. rewrite <- sum_to_stencil. apply sum_to_ext. intros j Hj.
      apply cell_rd. rewrite (Hin i j) by (apply Hint; lia).
      apply stencil_value_periodic; (done || lia). }
  rewrite (sum_to_stencil (Z.to_nat NX) intstep (of_int 4) SPEED
             (fun i => sum_to (Z.to_nat NY) (fun j => F i j))
             (fun i => sum_to (Z.to_nat NY) (fun j => F ((i + 1) mod NX) j))
             (fun i => sum_to (Z.to_nat NY) (fun j => F ((i - 1) mod NX) j))
             (fun i => sum_to (Z.to_nat NY) (fun j => F i ((j + 1) mod NY)))
             (fun i => sum_to (Z.to_nat NY) (fun j => F i ((j - 1) mod NY)))).
  set (G := fun i => sum_to (Z.to_nat NY) (fun j => F i j)).
  assert (H1 : sum_to (Z.to_nat NX) (fun i => G ((i + 1) mod NX))
               = sum_to (Z.to_nat NX) G).
  { rewrite <- (sum_to_rotate_forward (Z.to_nat NX) G).
    by rewrite Z2Nat.id by lia. }
  assert (H2 : sum_to (Z.to_nat NX) (fun i => G ((i - 1) mod NX))
               = sum_to (Z.to_nat NX) G).
  { rewrite <- (sum_to_rotate_backward (Z.to_nat NX) G).
    by rewrite Z2Nat.id by lia. }
  assert (H3 : sum_to (Z.to_nat NX)
                 (fun i => sum_to (Z.to_nat NY) (fun j => F i ((j + 1) mod NY)))
               = sum_to (Z.to_nat NX) G).
  { apply sum_to_ext. intros i Hi. unfold G.
    rewrite <- (sum_to_rotate_forward (Z.to_nat NY) (fun j => F i j)).
    by rewrite Z2Nat.id by lia. }
  assert (H4 : sum_to (Z.to_nat NX)
                 (fun i => sum_to (Z.to_nat NY) (fun j => F i ((j - 1) mod NY)))
               = sum_to (Z.to_nat NX) G).
  { apply sum_to_ext. intros i Hi. unfold G.
    rewrite <- (sum_to_rotate_backward (Z.to_nat NY) (fun j => F i j)).
    by rewrite Z2Nat.id by lia. }
  change (fun i => sum_to (Z.to_nat NY) (fun j => F ((i + 1) mod NX) j))
    with (fun i => G ((i + 1) mod NX)).
  change (fun i => sum_to (Z.to_nat NY) (fun j => F ((i - 1) mod NX) j))
    with (fun i => G ((i - 1) mod NX)).
  rewrite H1, H2, H3, H4. rewrite of_int_4. subst G F. cbv beta. ring.
Qed.

End Conservation.

(** ** Facts on the seed candidates *)

Section CandidateFacts.
Context {T : Type} `{Arith T}.
Variables (N_FIELD_LINES FIELD_LINE_FACTOR : Z).
Variable module2 : T -> T -> T.
Variables (c_sqrt c_cos c_sin : T -> T).

Local Abbreviation M := (N_FIELD_LINES * FIELD_LINE_FACTOR).
Local Abbreviation dangle := (DPI / of_int M)%F.
Local Abbreviation candidate_x :=
  (candidate_x N_FIELD_LINES FIELD_LINE_FACTOR c_sqrt c_cos).
Local Abbreviation candidate_y :=
  (candidate_y N_FIELD_LINES FIELD_LINE_FACTOR c_sqrt c_sin).
Local Abbreviation candidate_step := (candidate_step module2 c_sqrt c_cos c_sin).

Lemma wr1_step (a : list T) (n i : Z) (v : T) :
  length a = Z.to_nat n -> 0 <= i < n ->
  exists a', wr1 a i v = Ok a' /\ length a' = Z.to_nat n
             /\ rd1 a' i = Ok v /\ (forall k, k <> i -> rd1 a' k = rd1 a k).
Proof.
  intros Hlen Hi. destruct (wr1_in a i v) as [a' Ha']; [lia |].
  exists a'. split_and!; [done | | |].
  - by rewrite (wr1_length _ _ _ _ Ha').
  - by apply (rd1_wr1_same a i v).
  - intros k Hk. by apply (rd1_wr1_other a i v).
Qed.

(** The first call of [draw_wave] fills the three arrays: the candidates
    are the points of the ellipse at the multiples of [dangle],
    [distance[k]] is the chord from the candidate [k] to the next one,
    and the last entry closes the polygon on the candidate 0. *)
Theorem draw_wave_candidates_polygon (x2_0 y2_0 : T) (linex liney distance : list T) :
  2 <= M ->
  length linex = Z.to_nat M -> length liney = Z.to_nat M ->
  length distance = Z.to_nat M ->
  exists linex' liney' distance',
    draw_wave_candidates true N_FIELD_LINES FIELD_LINE_FACTOR module2
      c_sqrt c_cos c_sin true x2_0 y2_0 linex liney distance
    = Ok (false, (linex', liney', distance'))
    /\ (forall k, 0 <= k < M ->
          rd1 linex' k = Ok (candidate_x k) /\ rd1 liney' k = Ok (candidate_y k))
    /\ (forall k, 0 <= k < M - 1 ->
          rd1 distance' k
          = Ok (module2 (candidate_x (k + 1) - candidate_x k)
                        (candidate_y (k + 1) - candidate_y k))%F)
    /\ rd1 distance' (M - 1)
       = Ok (module2 (candidate_x (M - 1) - candidate_x 0) (candidate_y (M - 1)))%F.
Proof.
  intros HM Hlx Hly Hld. unfold draw_wave_candidates. cbn [andb]. cbv zeta.
  destruct (wr1_step linex M 0 (c_sqrt (dec 358 (-2))) Hlx ltac:(lia))
    as (lx0 & -> & Hlx0 & Hx0 & _).
  destruct (wr1_step liney M 0 (of_int 0) Hly ltac:(lia))
    as (ly0 & -> & Hly0 & Hy0 & _).
  cbn [bind].
  destruct (for_loop_inv (fun i (st : cand_state) =>
      length (cd_linex st) = Z.to_nat M /\ length (cd_liney st) = Z.to_nat M
      /\ length (cd_distance st) = Z.to_nat M
      /\ cd_x1 st = candidate_x (i - 1) /\ cd_y1 st = candidate_y (i - 1)
      /\ (1 < i -> cd_x2 st = candidate_x (i - 1) /\ cd_y2 st = candidate_y (i - 1))
      /\ (forall k, 0 <= k < i ->
            rd1 (cd_linex st) k = Ok (candidate_x k)
            /\ rd1 (cd_liney st) k = Ok (candidate_y k))
      /\ (forall k, 0 <= k < i - 1 ->
            rd1 (cd_distance st) k
            = Ok (module2 (candidate_x (k + 1) - candidate_x k)
                          (candidate_y (k + 1) - candidate_y k))%F))
    1 M (candidate_step dangle)
    {| cd_x1 := c_sqrt (dec 358 (-2)); cd_y1 := of_int 0;
       cd_x2 := x2_0; cd_y2 := y2_0;
       cd_linex := lx0; cd_liney := ly0; cd_distance := distance |})
    as (st & -> & Hl1 & Hl2 & Hl3 & _ & _ & Hlast & Hpts & Hds).
  - lia.
  - cbn [cd_linex cd_liney cd_distance cd_x1 cd_y1 cd_x2 cd_y2].
    split_and!; try done; try lia.
    intros k Hk. assert (k = 0) as -> by lia. done.
  - intros i st Hi (Hl1 & Hl2 & Hl3 & Hx1 & Hy1 & _ & Hpts & Hds).
    unfold candidate_step. cbv zeta.
    set (x2 := (c_sqrt (dec 358 (-2)) * c_cos (of_int i * dangle))%F).
    set (y2 := (c_sqrt (dec 118 (-2)) * c_sin (of_int i * dangle))%F).
    assert (Hcx : candidate_x i = x2).
    { unfold candidate_x. destruct (Z.eqb_spec i 0); [lia | done]. }
    assert (Hcy : candidate_y i = y2).
    { unfold candidate_y. destruct (Z.eqb_spec i 0); [lia | done]. }
    destruct (wr1_step (cd_linex st) M i x2 Hl1 ltac:(lia))
      as (lx & -> & Hlx' & Hxi & Hxo).
    destruct (wr1_step (cd_liney st) M i y2 Hl2 ltac:(lia))
      as (ly & -> & Hly' & Hyi & Hyo).
    destruct (wr1_step (cd_distance st) M (i - 1)
                (module2 (x2 - cd_x1 st) (y2 - cd_y1 st))%F Hl3 ltac:(lia))
      as (ds & -> & Hds' & Hdi & Hdo).
    cbn [bind]. eexists. split; [reflexivity |].
    cbn [cd_linex cd_liney cd_distance cd_x1 cd_y1 cd_x2 cd_y2].
    replace (i + 1 - 1) with i by lia.
    split_and!; try done.
    + intros k Hk. destruct (decide (k = i)) as [-> | Hne].
      * by rewrite Hxi, Hyi, Hcx, Hcy.
      * rewrite (Hxo k Hne), (Hyo k Hne). apply Hpts. lia.
    + intros k Hk. destruct (decide (k = i - 1)) as [-> | Hne].
      * rewrite Hdi. replace (i - 1 + 1) with i by lia.
        by rewrite Hcx, Hcy, Hx1, Hy1.
      * rewrite (Hdo k Hne). apply Hds. lia.
  - cbn [bind].
    destruct (wr1_step (cd_distance st) M (M - 1)
                (module2 (cd_x2 st - c_sqrt (dec 358 (-2))) (cd_y2 st))%F
                Hl3 ltac:(lia)) as (ds & -> & _ & Hdi & Hdo).
    cbn [bind]. eexists _, _, _. split; [reflexivity |].
    destruct (Hlast ltac:(lia)) as [Hx2 Hy2]. rewrite Hx2, Hy2 in Hdi.
    split_and!; [| | exact Hdi].
    + intros k Hk. by apply Hpts.
    + intros k Hk. rewrite (Hdo k) by lia. apply Hds. lia.
Qed.

End CandidateFacts.

(** ** Facts on the shape of a field line *)

Section FieldLineShape.
Context {T : Type} `{Arith T}.
Variables (NX NY : Z).
Variable xy_to_ij : T -> T -> Z * Z.
Variable xy_to_pos : T -> T -> T * T.
Variable c_sqrt : T -> T.

Local Abbreviation clamp_ij := (clamp_ij NX NY).
Local Abbreviation field_line_step :=
  (field_line_step NX NY xy_to_ij xy_to_pos c_sqrt).
Local Abbreviation draw_field_line :=
  (draw_field_line NX NY xy_to_ij xy_to_pos c_sqrt).

(** One step of the trace sends one vertex. *)
Lemma field_line_step_vertex (xy_in : grid Z) (nablax nablay : grid T) delta st :
  0 < NX -> 0 < NY ->
  dims NX NY xy_in -> dims NX NY nablax -> dims NX NY nablay ->
  exists st' p, field_line_step xy_in nablax nablay delta st = Ok st'
                /\ fl_i st' = fl_i st + 1
                /\ fl_out st' = p :: fl_out st.
Proof.
  intros Hx Hy Hds Hdx Hdy. unfold field_line_step.
  destruct (clamp_ij_range NX NY (xy_to_ij (fl_x1 st) (fl_y1 st)) Hx Hy) as [Hi Hj].
  set (ij := clamp_ij (xy_to_ij (fl_x1 st) (fl_y1 st))) in *.
  destruct (rd_in nablax NX NY (fst ij) (snd ij) Hdx ltac:(lia) ltac:(lia)) as [nabx ->].
  destruct (rd_in nablay NX NY (fst ij) (snd ij) Hdy ltac:(lia) ltac:(lia)) as [naby ->].
  destruct (rd_in xy_in NX NY (fst ij) (snd ij) Hds ltac:(lia) ltac:(lia)) as [s ->].
  simpl. eexists _, _. split; [reflexivity |]. split; reflexivity.
Qed.

(** The line strip starts at the given point; a positive budget always
    buys one step, and no line has more than [nsteps] steps. *)
Theorem draw_field_line_length (x y : T) (xy_in : grid Z) (nablax nablay : grid T)
  (delta : T) (nsteps : Z) :
  0 < NX -> 0 < NY ->
  dims NX NY xy_in -> dims NX NY nablax -> dims NX NY nablay ->
  exists rest,
    draw_field_line x y xy_in nablax nablay delta nsteps = Ok (xy_to_pos x y :: rest)
    /\ Z.of_nat (length rest) <= Z.max nsteps 0
    /\ (1 <= nsteps -> 1 <= Z.of_nat (length rest)).
Proof.
  intros Hx Hy Hds Hdx Hdy. unfold draw_field_line.
  destruct (while_loop_inv
              (fun st => 0 <= fl_i st <= Z.max nsteps 0
                         /\ (fl_i st = 0 -> fl_cont st = true)
                         /\ exists pre, fl_out st = pre ++ [xy_to_pos x y]
                                        /\ Z.of_nat (length pre) = fl_i st)
              (fun st => Z.to_nat (nsteps - fl_i st)) (Z.to_nat nsteps)
              (fun st => Ok (fl_cont st && (fl_i st <? nsteps)))
              (field_line_step xy_in nablax nablay delta)
              {| fl_x1 := x; fl_y1 := y; fl_i := 0; fl_cont := true;
                 fl_out := [xy_to_pos x y] |})
    as (st' & -> & (Hi & Hc & pre & Hout & Hlen) & Hstop).
  - simpl. split_and!; [lia | lia | done |]. by exists [].
  - simpl. lia.
  - intros st (Hi & Hc & pre & Hout & Hlen). eexists. split; [reflexivity |].
    intros [_ Hlt%Z.ltb_lt]%andb_true_iff.
    destruct (field_line_step_vertex xy_in nablax nablay delta st Hx Hy Hds Hdx Hdy)
      as (st' & p & Hst' & Hi' & Hout').
    exists st'. split_and!; [done | lia | lia | lia | | lia].
    exists (p :: pre). rewrite Hout', Hout. split; [done |]. simpl. lia.
  - simpl. rewrite Hout, rev_app_distr. simpl. exists (rev pre).
    rewrite length_rev. split_and!; [done | lia |].
    intros Hn. destruct (decide (fl_i st' = 0)) as [H0 | H0]; [| lia].
    injection Hstop as Hstop. rewrite (Hc H0), H0 in Hstop. simpl in Hstop.
    apply Z.ltb_ge in Hstop. lia.
Qed.

(** A trace that starts on a cell outside the domain, or where the
    gradient is below the threshold, takes one step and stops: the
    strip has two vertices, equal when it is the gradient that stopped
    the trace. *)
Theorem draw_field_line_stops_at_once (x y : T) (xy_in : grid Z)
  (nablax nablay : grid T) (delta : T) (nsteps : Z) (s : Z) (nabx naby : T) :
  1 <= nsteps ->
  rd nablax (fst (clamp_ij (xy_to_ij x y))) (snd (clamp_ij (xy_to_ij x y))) = Ok nabx ->
  rd nablay (fst (clamp_ij (xy_to_ij x y))) (snd (clamp_ij (xy_to_ij x y))) = Ok naby ->
  rd xy_in (fst (clamp_ij (xy_to_ij x y))) (snd (clamp_ij (xy_to_ij x y))) = Ok s ->
  s = 0 \/ (dec 1 (-14) <? nabx * nabx + naby * naby)%F = false ->
  exists p,
    draw_field_line x y xy_in nablax nablay delta nsteps = Ok [xy_to_pos x y; p]
    /\ ((dec 1 (-14) <? nabx * nabx + naby * naby)%F = false -> p = xy_to_pos x y).
Proof.
  intros Hn Hnx Hny Hs Hstop. unfold draw_field_line.
  destruct (Z.to_nat nsteps) as [| fuel] eqn:Hfuel; [lia |].
  destruct (Z.ltb_spec 0 nsteps) as [_ |]; [| lia].
  cbn [while_loop bind fl_cont fl_i andb].
  destruct (Z.ltb_spec 0 nsteps) as [_ |]; [| lia].
  unfold field_line_step at 1. cbn [fl_x1 fl_y1 fl_i fl_cont fl_out].
  rewrite Hnx, Hny, Hs. cbn [bind].
  destruct (dec 1 (-14) <? nabx * nabx + naby * naby)%F eqn:Hnorm.
  - destruct Hstop as [-> | ?]; [| done]. cbn [Z.eqb fst snd].
    destruct fuel; cbn [while_loop bind fl_cont andb fl_out]; eexists;
      (split; [reflexivity | done]).
  - cbn [fst snd]. replace (if s =? 0 then false else false) with false
      by (by destruct (s =? 0)).
    destruct fuel; cbn [while_loop bind fl_cont andb fl_out]; eexists;
      (split; [reflexivity | done]).
Qed.

End FieldLineShape.

(** ** Facts on the gradient of a square grid *)

Section GradientSquare.
Context {T : Type} `{Arith T}.
Variables (N : Z) (XMIN XMAX : T).

(** On a square grid the four neighbour indices are the clamped ones. *)
Lemma compute_gradient_cell_values dx (phi nablax nablay : grid T) i j :
  dims N N phi -> dims N N nablax -> dims N N nablay -> 0 <= i < N -> 0 <= j < N ->
  exists nablax' nablay' xp xm yp ym,
    compute_gradient_cell N N dx phi i j (nablax, nablay) = Ok (nablax', nablay')
    /\ dims N N nablax' /\ dims N N nablay'
    /\ (forall a b, (a, b) <> (i, j) ->
          rd nablax' a b = rd nablax a b /\ rd nablay' a b = rd nablay a b)
    /\ rd phi (Z.min (i + 1) (N - 1)) j = Ok xp
    /\ rd phi (Z.max (i - 1) 0) j = Ok xm
    /\ rd phi i (Z.min (j + 1) (N - 1)) = Ok yp
    /\ rd phi i (Z.max (j - 1) 0) = Ok ym
    /\ rd nablax' i j = Ok ((xp - xm) / dx)%F
    /\ rd nablay' i j = Ok ((yp - ym) / dx)%F.
Proof.
  intros Hd Hdx Hdy Hi Hj. unfold compute_gradient_cell. cbv zeta.
  replace (if i + 1 =? N then N - 1 else i + 1) with (Z.min (i + 1) (N - 1))
    by (destruct (Z.eqb_spec (i + 1) N); lia).
  replace (if i - 1 =? -1 then 0 else i - 1) with (Z.max (i - 1) 0)
    by (destruct (Z.eqb_spec (i - 1) (-1)); lia).
  replace (if j + 1 =? N then N - 1 else j + 1) with (Z.min (j + 1) (N - 1))
    by (destruct (Z.eqb_spec (j + 1) N); lia).
  replace (if j - 1 =? -1 then 0 else j - 1) with (Z.max (j - 1) 0)
    by (destruct (Z.eqb_spec (j - 1) (-1)); lia).
  destruct (rd_in phi N N (Z.min (i + 1) (N - 1)) j Hd ltac:(lia) Hj) as [xp Hxp].
  destruct (rd_in phi N N (Z.max (i - 1) 0) j Hd ltac:(lia) Hj) as [xm Hxm].
  destruct (rd_in phi N N i (Z.min (j + 1) (N - 1)) Hd Hi ltac:(lia)) as [yp Hyp].
  destruct (rd_in phi N N i (Z.max (j - 1) 0) Hd Hi ltac:(lia)) as [ym Hym].
  rewrite Hxp, Hxm, Hyp, Hym. simpl.
  destruct (wr_in nablax N N i j ((xp - xm) / dx)%F Hdx Hi Hj) as [nablax' Hwx].
  destruct (wr_in nablay N N i j ((yp - ym) / dx)%F Hdy Hi Hj) as [nablay' Hwy].
  rewrite Hwx. simpl. rewrite Hwy. simpl.
  exists nablax', nablay', xp, xm, yp, ym. split_and!; try done.
  - by apply (wr_dims nablax N N i j ((xp - xm) / dx)%F).
  - by apply (wr_dims nablay N N i j ((yp - ym) / dx)%F).
  - intros a b Hab. split.
    + by apply (rd_wr_other nablax i j ((xp - xm) / dx)%F).
    + by apply (rd_wr_other nablay i j ((yp - ym) / dx)%F).
  - by apply (rd_wr_same nablax i j ((xp - xm) / dx)%F).
  - by apply (rd_wr_same nablay i j ((yp - ym) / dx)%F).
Qed.

(** On a square grid [compute_gradient] returns, with at every cell the
    difference of the two clamped neighbours over [dx]. *)
Lemma compute_gradient_square_cells (phi nablax nablay : grid T) :
  0 <= N -> dims N N phi -> dims N N nablax -> dims N N nablay ->
  exists nablax' nablay',
    compute_gradient N N XMIN XMAX phi nablax nablay = Ok (nablax', nablay')
    /\ dims N N nablax' /\ dims N N nablay'
    /\ (forall i j, 0 <= i < N -> 0 <= j < N ->
          exists xp xm yp ym,
            rd phi (Z.min (i + 1) (N - 1)) j = Ok xp
            /\ rd phi (Z.max (i - 1) 0) j = Ok xm
            /\ rd phi i (Z.min (j + 1) (N - 1)) = Ok yp
            /\ rd phi i (Z.max (j - 1) 0) = Ok ym
            /\ rd nablax' i j = Ok ((xp - xm) / ((XMAX - XMIN) / of_int N))%F
            /\ rd nablay' i j = Ok ((yp - ym) / ((XMAX - XMIN) / of_int N))%F).
Proof.
  intros HN Hd Hdx Hdy. unfold compute_gradient.
  apply (grid_fill N N
           (fun i j => compute_gradient_cell N N ((XMAX - XMIN) / of_int N)%F phi i j)
           (fun i j (old new : result T) (newy : result T) =>
              exists xp xm yp ym,
                rd phi (Z.min (i + 1) (N - 1)) j = Ok xp
                /\ rd phi (Z.max (i - 1) 0) j = Ok xm
                /\ rd phi i (Z.min (j + 1) (N - 1)) = Ok yp
                /\ rd phi i (Z.max (j - 1) 0) = Ok ym
                /\ new = Ok ((xp - xm) / ((XMAX - XMIN) / of_int N))%F
                /\ newy = Ok ((yp - ym) / ((XMAX - XMIN) / of_int N))%F));
    try done.
  intros i j p x Hp Hx Hi Hj.
  destruct (compute_gradient_cell_values ((XMAX - XMIN) / of_int N)%F phi p x i j
              Hd Hp Hx Hi Hj)
    as (p' & x' & xp & xm & yp & ym & Hrun & Hp' & Hx' & Hoth & H1 & H2 & H3 & H4
        & H5 & H6).
  exists p', x'. split_and!; try done. by exists xp, xm, yp, ym.
Qed.

End GradientSquare.

Section GradientShape.
Context {T : Type} `{Arith T}.
Variables (NX NY : Z) (XMIN XMAX : T).

(** [compute_gradient] returns a gradient exactly when the grid is
    square: the guard of the upper neighbour compares with [NX], so it
    clamps at the right index when [NX = NY] and at no index of the last
    column otherwise. *)
Theorem compute_gradient_returns_iff_square (phi nablax nablay : grid T) :
  0 < NX -> 0 < NY ->
  dims NX NY phi -> dims NX NY nablax -> dims NX NY nablay ->
  is_Ok (compute_gradient NX NY XMIN XMAX phi nablax nablay) <-> NX = NY.
Proof.
  intros Hx Hy Hd Hdx Hdy. split.
  - intros [r Hr]. destruct (decide (NX = NY)) as [| Hne]; [done |]. exfalso.
    revert Hr. unfold compute_gradient.
    rewrite (for_loop_err 0 NX _ _ 0 OutOfBounds); [discriminate | lia | | lia].
    intros st. apply (for_loop_err 0 NY _ _ (NY - 1)); [lia | |].
    + intros st'. by apply compute_gradient_cell_top.
    + intros j st' e _. apply compute_gradient_cell_err.
  - intros <-.
    destruct (compute_gradient_square_cells NX XMIN XMAX phi nablax nablay)
      as (gx & gy & Hrun & _); try done; [lia |].
    by eexists.
Qed.

End GradientShape.

Section GradientSlope.
Context {T : Type} `{Arith T} `{!ExactArith T}.
Variables (N : Z) (XMIN XMAX : T).

Add Ring exact_ring_slope : ea_ring.

(** The centred difference is divided by [dx], like the one-sided
    differences of the two border rows: on a field that rises by [a]
    from each row to the next, the gradient reported inside the grid is
    [(a + a)/dx], twice the one reported on the borders (square grid,
    exact arithmetic). *)
Theorem compute_gradient_centred_difference_not_halved
  (phi nablax nablay : grid T) (a : T) :
  2 <= N ->
  dims N N phi -> dims N N nablax -> dims N N nablay ->
  (forall i j x x', 0 <= i < N - 1 -> 0 <= j < N ->
     rd phi i j = Ok x -> rd phi (i + 1) j = Ok x' -> x' = (x + a)%F) ->
  exists nablax' nablay',
    compute_gradient N N XMIN XMAX phi nablax nablay = Ok (nablax', nablay')
    /\ (forall i j, 0 < i < N - 1 -> 0 <= j < N ->
          rd nablax' i j = Ok ((a + a) / ((XMAX - XMIN) / of_int N))%F)
    /\ (forall i j, i = 0 \/ i = N - 1 -> 0 <= j < N ->
          rd nablax' i j = Ok (a / ((XMAX - XMIN) / of_int N))%F).
Proof.
  intros HN Hd Hdx Hdy Hrise.
  destruct (compute_gradient_square_cells N XMIN XMAX phi nablax nablay
              ltac:(lia) Hd Hdx Hdy) as (gx & gy & Hrun & _ & _ & Hall).
  exists gx, gy. split_and!; [done | |].
  - intros i j Hi Hj.
    destruct (Hall i j ltac:(lia) Hj) as (xp & xm & _ & _ & Hxp & Hxm & _ & _ & -> & _).
    replace (Z.min (i + 1) (N - 1)) with (i + 1) in Hxp by lia.
    replace (Z.max (i - 1) 0) with (i - 1) in Hxm by lia.
    destruct (rd_in phi N N i j Hd ltac:(lia) Hj) as [x Hx].
    assert (H1 : xp = (x + a)%F) by (apply (Hrise i j x xp); (lia || done)).
    assert (H2 : x = (xm + a)%F).
    { apply (Hrise (i - 1) j xm x); try (lia || done).
      by replace (i - 1 + 1) with i by lia. }
    do 2 f_equal. rewrite H1, H2. ring.
  - intros i j Hi Hj.
    destruct (Hall i j ltac:(lia) Hj) as (xp & xm & _ & _ & Hxp & Hxm & _ & _ & -> & _).
    do 2 f_equal. destruct Hi as [-> | ->].
    + replace (Z.min (0 + 1) (N - 1)) with (0 + 1) in Hxp by lia.
      replace (Z.max (0 - 1) 0) with 0 in Hxm by lia.
      rewrite (Hrise 0 j xm xp) by (lia || done). ring.
    + replace (Z.min (N - 1 + 1) (N - 1)) with (N - 1 - 1 + 1) in Hxp by lia.
      replace (Z.max (N - 1 - 1) 0) with (N - 1 - 1) in Hxm by lia.
      rewrite (Hrise (N - 1 - 1) j xm xp) by (lia || done). ring.
Qed.

End GradientSlope.

(** ** The variance and the border of the grid *)

Section VarianceBorder.
Context {T : Type} `{Arith T}.
Variables (NX NY : Z).

(** The loops of [compute_variance] start at 1.  When row 0 and column
    0 hold no cell of the domain (status 0 all along them), nothing is
    missed: the result is the mean of the squares over the whole grid. *)
Theorem compute_variance_complete_when_border_outside
  (phi : grid T) (xy_in : grid Z) :
  0 < NX -> 0 < NY ->
  (forall j, 0 <= j < NY -> rd xy_in 0 j = Ok 0) ->
  (forall i, 0 <= i < NX -> rd xy_in i 0 = Ok 0) ->
  compute_variance NX NY phi xy_in = variance_over_grid NX NY phi xy_in.
Proof.
  intros Hx Hy Hrow Hcol. unfold compute_variance, variance_over_grid.
  rewrite (for_loop_first 0 NX) by done.
  rewrite (for_loop_skip 0 NY).
  2:{ intros j Hj. unfold variance_cell. by rewrite (Hrow j Hj). }
  simpl. f_equal.
  apply for_loop_ext. intros i st Hi.
  rewrite (for_loop_first 0 NY) by done.
  unfold variance_cell at 2. by rewrite (Hcol i) by lia.
Qed.

End VarianceBorder.

(** ** Steady states *)

Section SteadyState.
Context {T : Type} `{Arith T} `{!ExactArith T} `{!ExactField T}.
Variables (NX NY : Z).
Variable B_COND : bc_policy.
Variables (VMAX SPEED : T).
Variables (intstep intstep1 : T).
Variable delta2 : Z -> Z -> T.

Add Ring exact_ring_steady : ea_ring.

Local Abbreviation neighbours := (neighbours NX NY B_COND).
Local Abbreviation update_rate := (update_rate NX NY B_COND SPEED).

Lemma stencil_value_rate (phi : grid T) i j :
  B_COND <> BC_ABSORBING ->
  dims NX NY phi -> 0 <= i < NX -> 0 <= j < NY ->
  stencil_value NX NY B_COND SPEED intstep intstep1 delta2 phi i j
  = Ok (cell phi i j + intstep * update_rate phi i j)%F.
Proof.
  intros Hbc Hd Hi Hj. unfold stencil_value, update_rate.
  destruct (neighbours i j) as [[[iplus iminus] jplus] jminus] eqn:Hn.
  destruct (neighbours_range NX NY B_COND i j _ _ _ _ Hi Hj Hn)
    as (Hip & Him & Hjp & Hjm).
  destruct (rd_in phi NX NY iplus j Hd Hip Hj) as [a Ha].
  destruct (rd_in phi NX NY iminus j Hd Him Hj) as [b Hb].
  destruct (rd_in phi NX NY i jplus Hd Hi Hjp) as [c Hc].
  destruct (rd_in phi NX NY i jminus Hd Hi Hjm) as [d Hd0].
  destruct (rd_in phi NX NY i j Hd Hi Hj) as [x Hx].
  rewrite Ha, Hb, Hc, Hd0, Hx. simpl.
  replace (negb (bc_eqb B_COND BC_ABSORBING)) with true by (by destruct B_COND).
  unfold cell. by rewrite Ha, Hb, Hc, Hd0, Hx.
Qed.

Lemma rate_zero (x k e : T) :
  k <> of_int 0 -> (x + k * e)%F = x <-> e = of_int 0.
Proof.
  intros Hk. split.
  - intros Hx. assert (Hz : (e * k)%F = (of_int 0 * k)%F).
    { replace (e * k)%F with (x + k * e - x)%F by ring. rewrite Hx. ring. }
    by rewrite <- (ef_mul_div e k Hk), Hz, ef_mul_div.
  - intros ->. ring.
Qed.

(** The steady states of the step are the fields on which the
    five-point Laplacian balances the drift at every interior cell; with
    no drift, the discrete harmonic fields (exact arithmetic in a field,
    Dirichlet or periodic policy, clamp off, [intstep] not 0). *)
Theorem evolve_wave_fixed_point_iff_balanced (xy_in : grid Z) (phi newphi : grid T) :
  B_COND <> BC_ABSORBING ->
  intstep <> of_int 0 ->
  0 < NX -> 0 < NY ->
  dims NX NY xy_in -> dims NX NY phi -> dims NX NY newphi ->
  evolve_wave NX NY B_COND false VMAX SPEED intstep intstep1 delta2 phi xy_in newphi
  = Ok phi
  <-> (forall i j, rd xy_in i j = Ok 1 -> update_rate phi i j = of_int 0).
Proof.
  intros Hbc Hk Hx Hy Hds Hd Hdn.
  destruct (evolve_wave_values NX NY B_COND false VMAX SPEED intstep intstep1
              delta2 xy_in phi newphi) as (phi' & Hrun & Hd' & Hin & Hout);
    [done | | done | done | done |].
  { unfold grid_size_ok. by split_and!. }
  rewrite Hrun. split.
  - intros [= ->] i j Hs.
    destruct (rd_Ok_range _ _ _ _ _ _ Hds Hs) as [Hi Hj].
    pose proof (Hin i j Hs) as Hv.
    rewrite (stencil_value_rate phi i j Hbc Hd Hi Hj) in Hv.
    destruct (rd_in phi NX NY i j Hd Hi Hj) as [x Hxv].
    rewrite Hxv in Hv. injection Hv as Hv.
    unfold cell in Hv at 1. rewrite Hxv in Hv.
    by apply (rate_zero x intstep).
  - intros Hbal. f_equal. apply (grid_ext phi phi' NX NY Hd Hd').
    intros i j Hi Hj.
    destruct (rd_in xy_in NX NY i j Hds Hi Hj) as [s Hs].
    destruct (decide (s = 1)) as [-> | Hs1].
    + rewrite (Hin i j Hs), (stencil_value_rate phi i j Hbc Hd Hi Hj).
      rewrite (Hbal i j Hs).
      destruct (rd_in phi NX NY i j Hd Hi Hj) as [x Hxv].
      unfold cell. rewrite Hxv. f_equal. ring.
    + apply Hout. rewrite Hs. intros [= ?]. done.
Qed.

End SteadyState.

(** ** Binary64: a NaN spreads *)

Section NaNFacts.

Lemma b64_nan_spec (f : float) : b64_nan f = true <-> Prim2SF f = S754_nan.
Proof. unfold b64_nan. destruct (Prim2SF f); split; (done || discriminate). Qed.

Lemma b64_nan_add (x y : float) :
  b64_nan x = true \/ b64_nan y = true -> b64_nan (x + y)%float = true.
Proof.
  rewrite !b64_nan_spec, add_spec.
  intros [-> | ->]; [done |]. by destruct (Prim2SF x).
Qed.

Lemma b64_nan_sub (x y : float) :
  b64_nan x = true \/ b64_nan y = true -> b64_nan (x - y)%float = true.
Proof.
  rewrite !b64_nan_spec, sub_spec.
  intros [-> | ->]; [done |]. by destruct (Prim2SF x).
Qed.

Lemma b64_nan_mul (x y : float) :
  b64_nan x = true \/ b64_nan y = true -> b64_nan (x * y)%float = true.
Proof.
  rewrite !b64_nan_spec, mul_spec.
  intros [-> | ->]; [done |]. by destruct (Prim2SF x).
Qed.

End NaNFacts.

Section NaNSpreads.
Variables (NX NY : Z).
Variable B_COND : bc_policy.
Variables (VMAX SPEED : float).
Variables (intstep intstep1 : float).
Variable delta2 : Z -> Z -> float.

(** The update of a cell is a NaN as soon as the cell or one of its
    four neighbours is. *)
Lemma update_nan (a b c d x : float) :
  b64_nan a = true \/ b64_nan b = true \/ b64_nan c = true \/ b64_nan d = true
  \/ b64_nan x = true ->
  b64_nan (x + intstep * (a + b + c + d - of_int 4 * x - SPEED * (a - x)))%F = true.
Proof.
  intros Hnan. apply b64_nan_add.
  destruct Hnan as [Ha | [Hb | [Hc | [Hd | Hx]]]]; [right .. | by left];
    apply b64_nan_mul; right; apply b64_nan_sub; left; apply b64_nan_sub; left;
    apply b64_nan_add.
  - left. apply b64_nan_add. left. apply b64_nan_add. by left.
  - left. apply b64_nan_add. left. apply b64_nan_add. by right.
  - left. apply b64_nan_add. by right.
  - by right.
Qed.

(** On binary64 a NaN spreads: under the Dirichlet or the periodic
    policy with the clamp off, a cell of status 1 that holds a NaN, or
    one of whose four neighbours does, holds a NaN after the step,
    whatever the integration step and the drift speed. *)
Theorem evolve_wave_nan_spreads (xy_in : grid Z) (phi newphi : grid float)
  (i j iplus iminus jplus jminus a b : Z) (x : float) :
  B_COND <> BC_ABSORBING ->
  0 < NX -> 0 < NY ->
  dims NX NY xy_in -> dims NX NY phi -> dims NX NY newphi ->
  rd xy_in i j = Ok 1 ->
  neighbours NX NY B_COND i j = (iplus, iminus, jplus, jminus) ->
  In (a, b) [(iplus, j); (iminus, j); (i, jplus); (i, jminus); (i, j)] ->
  rd phi a b = Ok x -> b64_nan x = true ->
  exists phi' v,
    evolve_wave NX NY B_COND false VMAX SPEED intstep intstep1 delta2
      phi xy_in newphi = Ok phi'
    /\ rd phi' i j = Ok v /\ b64_nan v = true.
Proof.
  intros Hbc Hx Hy Hds Hd Hdn Hs Hn Hin Hv Hnan.
  destruct (evolve_wave_values NX NY B_COND false VMAX SPEED intstep intstep1
              delta2 xy_in phi newphi) as (phi' & Hrun & Hd' & Hval & _);
    [done | | done | done | done |].
  { unfold grid_size_ok. by split_and!. }
  exists phi'. rewrite (Hval i j Hs). unfold stencil_value. rewrite Hn.
  destruct (rd_Ok_range _ _ _ _ _ _ Hds Hs) as [Hi Hj].
  destruct (neighbours_range NX NY B_COND i j _ _ _ _ Hi Hj Hn)
    as (Hip & Him & Hjp & Hjm).
  destruct (rd_in phi NX NY iplus j Hd Hip Hj) as [a0 Ha0].
  destruct (rd_in phi NX NY iminus j Hd Him Hj) as [b0 Hb0].
  destruct (rd_in phi NX NY i jplus Hd Hi Hjp) as [c0 Hc0].
  destruct (rd_in phi NX NY i jminus Hd Hi Hjm) as [d0 Hd0].
  destruct (rd_in phi NX NY i j Hd Hi Hj) as [x0 Hx0].
  rewrite Ha0, Hb0, Hc0, Hd0, Hx0. simpl.
  replace (negb (bc_eqb B_COND BC_ABSORBING)) with true by (by destruct B_COND).
  eexists. split_and!; [done | reflexivity |].
  apply update_nan.
  simpl in Hin.
  destruct Hin as [[= <- <-] | [[= <- <-] | [[= <- <-] | [[= <- <-] | [[= <- <-] | []]]]]];
    [ left | right; left | do 2 right; left | do 3 right; left | do 4 right ];
    congruence.
Qed.

End NaNSpreads.

(** ** The seeding pass and the read past the end *)

Section LoopMono.
Context {S : Type}.

(** A loop whose body is replaced by one that returns wherever the
    first returned, and the same state, returns what it returned. *)
Lemma for_nat_Ok_mono n lo (body body' : Z -> S -> result S) s r :
  (forall i s0 s1, body i s0 = Ok s1 -> body' i s0 = Ok s1) ->
  for_nat n lo body s = Ok r -> for_nat n lo body' s = Ok r.
Proof.
  intros Hmono. revert lo s. induction n as [| n IH]; intros lo s; [done |].
  simpl. destruct (body lo s) as [s1 |] eqn:Hb; [simpl | discriminate].
  rewrite (Hmono lo s s1 Hb). simpl. apply IH.
Qed.

End LoopMono.

Section OverreadFacts.
Context {A : Type}.

Lemma rd1_over_in (a : list A) (over : A) i :
  0 <= i <= Z.of_nat (length a) -> is_Ok (rd1_over a over i).
Proof.
  intros Hi. unfold rd1_over.
  destruct (Z.eqb_spec i (Z.of_nat (length a))); [by eexists |].
  apply rd1_in. lia.
Qed.

(** Inside the array the two reads agree. *)
Lemma rd1_over_agrees (a : list A) (over : A) i v :
  rd1 a i = Ok v -> rd1_over a over i = Ok v.
Proof.
  intros Hv. unfold rd1_over.
  destruct (Z.eqb_spec i (Z.of_nat (length a))) as [-> | Hne]; [| done].
  rewrite rd1_out in Hv by lia. discriminate.
Qed.

(** One past the end the read gives what the memory holds there. *)
Lemma rd1_over_end (a : list A) (over : A) :
  rd1_over a over (Z.of_nat (length a)) = Ok over.
Proof. unfold rd1_over. by rewrite Z.eqb_refl. Qed.

End OverreadFacts.

Section SeedingOverread.
Context {T : Type} `{Arith T}.
Variables (NX NY : Z).
Variables (N_FIELD_LINES FIELD_LINE_FACTOR : Z).
Variable xy_to_ij : T -> T -> Z * Z.
Variable xy_to_pos : T -> T -> T * T.
Variable module2 : T -> T -> T.
Variable c_sqrt : T -> T.
Variables (x_over y_over : T).

Local Abbreviation M := (N_FIELD_LINES * FIELD_LINE_FACTOR).
Local Abbreviation seed_step_over :=
  (seed_step_over NX NY N_FIELD_LINES FIELD_LINE_FACTOR xy_to_ij xy_to_pos c_sqrt
     x_over y_over).
Local Abbreviation draw_wave_field_lines_over :=
  (draw_wave_field_lines_over NX NY N_FIELD_LINES FIELD_LINE_FACTOR xy_to_ij
     xy_to_pos module2 c_sqrt x_over y_over).

Lemma seed_step_over_agrees (xy_in : grid Z) (nablax nablay : grid T)
  (linex liney integral : list T) (deltaintens : T) (j : Z) (st st' : seed_state) :
  seed_step NX NY N_FIELD_LINES FIELD_LINE_FACTOR xy_to_ij xy_to_pos c_sqrt xy_in
    nablax nablay linex liney integral deltaintens j st = Ok st' ->
  seed_step_over xy_in nablax nablay linex liney integral deltaintens j st = Ok st'.
Proof.
  unfold seed_step, seed_step_over.
  destruct (next_seed _ _ _ _ _ _) as [i |]; [simpl | discriminate].
  destruct (rd1 linex i) as [x |] eqn:Hx; [simpl | discriminate].
  rewrite (rd1_over_agrees _ _ _ _ Hx). simpl.
  destruct (rd1 liney i) as [y |] eqn:Hy; [simpl | discriminate].
  rewrite (rd1_over_agrees _ _ _ _ Hy). simpl. done.
Qed.

(** Wherever the seeding pass returns without leaving its arrays, the
    pass with the overread returns the same: the two differ only where
    the first stops on [OutOfBounds]. *)
Lemma draw_wave_field_lines_over_agrees (xy_in : grid Z) (nablax nablay : grid T)
  (linex liney distance integral : list T) r :
  draw_wave_field_lines NX NY N_FIELD_LINES FIELD_LINE_FACTOR xy_to_ij xy_to_pos
    module2 c_sqrt xy_in nablax nablay linex liney distance integral = Ok r ->
  draw_wave_field_lines_over xy_in nablax nablay linex liney distance integral
  = Ok r.
Proof.
  unfold draw_wave_field_lines, draw_wave_field_lines_over.
  destruct (for_loop 0 M _ integral) as [integral' |]; [simpl | discriminate].
  destruct (rd1 integral' (M - 1)) as [total |]; [simpl | discriminate].
  destruct (rd1 linex 0) as [x |]; [simpl | discriminate].
  destruct (rd1 liney 0) as [y |]; [simpl | discriminate].
  destruct (draw_field_line _ _ _ _ _ x y _ _ _ _ _) as [line |];
    [simpl | discriminate].
  destruct (for_loop 1 _ (seed_step _ _ _ _ _ _ _ _ _ _ _ _ _ _) _) as [st |] eqn:Hst;
    [simpl | discriminate].
  intros Hr. unfold for_loop in *.
  rewrite (for_nat_Ok_mono _ _ _
             (seed_step_over xy_in nablax nablay linex liney integral'
                (total / of_int N_FIELD_LINES)%F) _ st
             (fun j s0 s1 => seed_step_over_agrees _ _ _ _ _ _ _ j s0 s1) Hst).
  simpl. exact Hr.
Qed.

Section WellFormed.
(** The static arrays have the sizes of their declarations, the grids
    the size of the configuration, and the seed candidates map into the
    grid. *)
Variables (xy_in : grid Z) (nablax nablay : grid T).
Variables (linex liney distance integral : list T).

Hypothesis N_pos : 0 < N_FIELD_LINES.
Hypothesis F_pos : 0 < FIELD_LINE_FACTOR.
Hypothesis NX_pos : 0 < NX.
Hypothesis NY_pos : 0 < NY.
Hypothesis xy_in_dims : dims NX NY xy_in.
Hypothesis nablax_dims : dims NX NY nablax.
Hypothesis nablay_dims : dims NX NY nablay.
Hypothesis linex_length : length linex = Z.to_nat M.
Hypothesis liney_length : length liney = Z.to_nat M.
Hypothesis distance_length : length distance = Z.to_nat M.
Hypothesis integral_length : length integral = Z.to_nat (M + 1).
Hypothesis candidates_in_grid : forall i x y,
  rd1 linex i = Ok x -> rd1 liney i = Ok y ->
  0 <= fst (xy_to_ij x y) < NX /\ 0 <= snd (xy_to_ij x y) < NY.

Lemma candidates_pos : 0 < M.
Proof. lia. Qed.

(** The loop that fills [integral] stays inside the arrays. *)
Lemma integral_loop_ok :
  exists integral',
    for_loop 0 M
      (integral_step xy_to_ij module2 nablax nablay linex liney distance)
      integral = Ok integral'
    /\ length integral' = Z.to_nat (M + 1).
Proof.
  pose proof candidates_pos as HM.
  apply (for_loop_inv (fun (_ : Z) (a : list T) => length a = Z.to_nat (M + 1)));
    [lia | done |].
  intros i a Hi Hlen. unfold integral_step.
  destruct (rd1_in linex i) as [x Hx]; [lia |]. rewrite Hx. simpl.
  destruct (rd1_in liney i) as [y Hy]; [lia |]. rewrite Hy. simpl.
  destruct (candidates_in_grid i x y Hx Hy) as [Ha Hb].
  destruct (rd_in nablax NX NY _ _ nablax_dims Ha Hb) as [nabx ->].
  destruct (rd_in nablay NX NY _ _ nablay_dims Ha Hb) as [naby ->].
  simpl.
  destruct (rd1_in distance i) as [d ->]; [lia |]. simpl.
  destruct (Z.ltb_spec 0 i) as [Hi0 | Hi0].
  - destruct (rd1_in a (i - 1)) as [prev ->]; [lia |]. simpl.
    destruct (wr1_in a i (prev + module2 nabx naby * d)%F) as [a' Ha']; [lia |].
    exists a'. split; [done |]. by rewrite (wr1_length _ _ _ _ Ha').
  - destruct (wr1_in a i (module2 nabx naby * d)%F) as [a' Ha']; [lia |].
    exists a'. split; [done |]. by rewrite (wr1_length _ _ _ _ Ha').
Qed.

(** The search for a seed returns an index between the one it starts
    from and [N_FIELD_LINES*FIELD_LINE_FACTOR]: [integral] has one entry
    more than the candidates, so the read of the condition is inside. *)
Lemma next_seed_ok (a : list T) (deltaintens : T) (j i : Z) :
  length a = Z.to_nat (M + 1) ->
  0 <= i <= M ->
  exists i', next_seed N_FIELD_LINES FIELD_LINE_FACTOR a deltaintens j i = Ok i'
             /\ i <= i' <= M.
Proof.
  intros Hlen Hi. pose proof candidates_pos as HM. unfold next_seed.
  destruct (while_loop_inv (fun i' => i <= i' <= M)
              (fun i' => Z.to_nat (M - i')) (Z.to_nat M)
              (fun i' => v <- rd1 a i' ;;
                 Ok ((v <=? of_int j * deltaintens)%F && (i' <? M)))
              (fun i' => Ok (i' + 1)) i) as (i' & -> & Hi' & _).
  - lia.
  - lia.
  - intros i' Hi'. destruct (rd1_in a i') as [v Hv]; [lia |].
    rewrite Hv. simpl. eexists. split; [reflexivity |].
    intros [_ Hlt%Z.ltb_lt]%andb_true_iff.
    exists (i' + 1). split; [done |]. split; lia.
  - by exists i'.
Qed.

Lemma seed_step_over_ok (a : list T) (deltaintens : T) (j : Z) (st : seed_state) :
  length a = Z.to_nat (M + 1) ->
  0 <= sd_i st <= M ->
  exists st', seed_step_over xy_in nablax nablay linex liney a deltaintens j st
              = Ok st'
              /\ sd_i st <= sd_i st' <= M
              /\ sd_counter st' = sd_counter st + 1
              /\ exists line, sd_lines st' = (sd_i st', line) :: sd_lines st.
Proof.
  intros Hlen Hi. unfold seed_step_over.
  destruct (next_seed_ok a deltaintens j (sd_i st) Hlen Hi) as (i' & -> & Hi').
  simpl.
  destruct (rd1_over_in linex x_over i') as [x ->]; [lia |]. simpl.
  destruct (rd1_over_in liney y_over i') as [y ->]; [lia |]. simpl.
  destruct (draw_field_line_ok NX NY xy_to_ij xy_to_pos c_sqrt x y xy_in nablax
              nablay (dec 2 (-5)) 100000 NX_pos NY_pos xy_in_dims nablax_dims
              nablay_dims) as [line ->].
  simpl. eexists. split; [reflexivity |]. simpl.
  split_and!; [lia | lia | done | by exists line].
Qed.

(** The whole pass: it returns, and the record of its calls. *)
Lemma draw_wave_field_lines_over_run :
  exists r,
    draw_wave_field_lines_over xy_in nablax nablay linex liney distance integral
    = Ok r
    /\ snd (fst r) = N_FIELD_LINES
    /\ length (snd r) = Z.to_nat (N_FIELD_LINES + 1)
    /\ seeds_in_order (snd r)
    /\ (exists line, head (snd r) = Some (0, line))
    /\ (forall p, elem_of p (snd r) -> 0 <= fst p <= M).
Proof.
  pose proof candidates_pos as HM. unfold draw_wave_field_lines_over.
  destruct integral_loop_ok as (integral' & -> & Hlen). simpl.
  destruct (rd1_in integral' (M - 1)) as [total ->]; [lia |]. simpl.
  destruct (rd1_in linex 0) as [x0 ->]; [lia |]. simpl.
  destruct (rd1_in liney 0) as [y0 ->]; [lia |]. simpl.
  destruct (draw_field_line_ok NX NY xy_to_ij xy_to_pos c_sqrt x0 y0 xy_in nablax
              nablay (dec 2 (-5)) 100000 NX_pos NY_pos xy_in_dims nablax_dims
              nablay_dims) as [line ->].
  simpl.
  destruct (for_loop_inv (fun j st =>
              0 <= sd_i st <= M
              /\ sd_counter st = j - 1
              /\ exists asc line0,
                   sd_lines st = rev ((0, line0) :: asc)
                   /\ length asc = Z.to_nat (j - 1)
                   /\ seeds_in_order ((0, line0) :: asc)
                   /\ (forall p, elem_of p ((0, line0) :: asc) ->
                         0 <= fst p <= sd_i st))
              1 (N_FIELD_LINES + 1)
              (seed_step_over xy_in nablax nablay linex liney integral'
                 (total / of_int N_FIELD_LINES)%F)
              {| sd_i := 0; sd_counter := 0; sd_lines := [(0, line)] |})
    as (st & -> & Hi & Hc & asc & line0 & Hlines & Hasc & Hord & Hle).
  - lia.
  - simpl. split; [lia |]. split; [done |]. exists [], line.
    split_and!; [done | done | |].
    + intros k k' p q Hp Hq Hk.
      destruct k, k'; simpl in *; try done. by simplify_eq.
    + intros p Hp%list_elem_of_singleton. subst p. simpl. lia.
  - intros j st Hj (Hi & Hc & asc & line0 & Hlines & Hasc & Hord & Hle).
    destruct (seed_step_over_ok integral' (total / of_int N_FIELD_LINES)%F j st
                Hlen Hi) as (st' & -> & Hi' & Hc' & line' & Hlines').
    exists st'. split; [done |]. split; [lia |]. split; [lia |].
    exists (asc ++ [(sd_i st', line')]), line0. split_and!.
    + rewrite Hlines', Hlines.
      change ((0, line0) :: asc ++ [(sd_i st', line')])
        with (((0, line0) :: asc) ++ [(sd_i st', line')]).
      by rewrite rev_app_distr.
    + rewrite length_app. simpl. lia.
    + intros k k' p q Hp Hq Hk.
      change ((0, line0) :: asc ++ [(sd_i st', line')])
        with (((0, line0) :: asc) ++ [(sd_i st', line')]) in Hp, Hq.
      apply lookup_app_Some in Hp, Hq.
      destruct Hp as [Hp | [Hkl Hp]], Hq as [Hq | [Hkl' Hq]].
      * by apply (Hord k k').
      * apply list_lookup_singleton_Some in Hq as [_ <-]. simpl.
        assert (elem_of p ((0, line0) :: asc)) as Hel
          by (by eapply list_elem_of_lookup_2).
        specialize (Hle p Hel). lia.
      * apply lookup_lt_Some in Hq. lia.
      * apply list_lookup_singleton_Some in Hp as [_ <-].
        apply list_lookup_singleton_Some in Hq as [_ <-]. done.
    + intros p Hp.
      change ((0, line0) :: asc ++ [(sd_i st', line')])
        with (((0, line0) :: asc) ++ [(sd_i st', line')]) in Hp.
      apply elem_of_app in Hp as [Hp | Hp%list_elem_of_singleton].
      * specialize (Hle p Hp). lia.
      * subst p. simpl. lia.
  - simpl. eexists. split; [reflexivity |]. simpl.
    rewrite Hlines, rev_involutive. split_and!.
    + lia.
    + simpl. lia.
    + done.
    + by exists line0.
    + intros p Hp. specialize (Hle p Hp). lia.
Qed.

(** The seeding pass of [draw_wave], with the read one past the end of
    [linex] and [liney] giving whatever the memory holds there: for
    every gradient and every content of the static arrays the pass
    returns, with [counter = N_FIELD_LINES] after [N_FIELD_LINES + 1]
    calls of [draw_field_line], the mandatory first line and one for
    each configured line.  When no search ends past the candidates,
    this is what [draw_wave_field_lines] returns. *)
Theorem draw_wave_field_lines_over_count :
  exists r,
    draw_wave_field_lines_over xy_in nablax nablay linex liney distance integral
    = Ok r
    /\ snd (fst r) = N_FIELD_LINES
    /\ length (snd r) = Z.to_nat (N_FIELD_LINES + 1)
    /\ (forall r', draw_wave_field_lines NX NY N_FIELD_LINES FIELD_LINE_FACTOR xy_to_ij
                    xy_to_pos module2 c_sqrt xy_in nablax nablay linex liney distance
                    integral = Ok r' -> r' = r).
Proof.
  destruct draw_wave_field_lines_over_run as (r & Hr & Hc & Hl & _).
  exists r. split_and!; [done | done | done |].
  intros r' Hr'. apply draw_wave_field_lines_over_agrees in Hr'.
  rewrite Hr in Hr'. by injection Hr'.
Qed.

(** The seeds are taken in order around the ellipse: in the same pass,
    the indices handed to [draw_field_line] start at 0, never decrease
    from one line to the next (the search resumes from the previous
    seed and only moves forward) and never exceed
    [N_FIELD_LINES*FIELD_LINE_FACTOR], the index one past the last
    candidate.  When no search ends past the candidates, the pass is
    [draw_wave_field_lines] and every seed is a candidate. *)
Theorem draw_wave_field_lines_over_seeds_in_order :
  exists r,
    draw_wave_field_lines_over xy_in nablax nablay linex liney distance integral
    = Ok r
    /\ seeds_in_order (snd r)
    /\ (exists line, head (snd r) = Some (0, line))
    /\ (forall p, elem_of p (snd r) -> 0 <= fst p <= M)
    /\ (forall r', draw_wave_field_lines NX NY N_FIELD_LINES FIELD_LINE_FACTOR xy_to_ij
                    xy_to_pos module2 c_sqrt xy_in nablax nablay linex liney distance
                    integral = Ok r' -> r' = r).
Proof.
  destruct draw_wave_field_lines_over_run as (r & Hr & _ & _ & Ho & Hh & Hb).
  exists r. split_and!; [done | done | done | done |].
  intros r' Hr'. apply draw_wave_field_lines_over_agrees in Hr'.
  rewrite Hr in Hr'. by injection Hr'.
Qed.

End WellFormed.

End SeedingOverread.

(** ** Worked instances *)

(** On binary64 the decimal literals of the source are the values of
    [dec]: 0.75, 1.0e-15, 1.0e-14, 1.0e-9, 0.00002 and the DT of the
    configuration, 0.000004. *)
Example dec_binary64 :
  dec 75 (-2) = 0.75%float
  /\ dec 1 (-15) = 0x1.203af9ee75616p-50%float
  /\ dec 1 (-14) = 0x1.6849b86a12b9bp-47%float
  /\ dec 1 (-9) = 0x1.12e0be826d695p-30%float
  /\ dec 2 (-5) = 0x1.4f8b588e368f1p-16%float
  /\ dec 4 (-6) = 0x1.0c6f7a0b5ed8dp-18%float.
Proof. repeat split; vm_compute; reflexivity. Qed.

Lemma Qc_of_int_add (a b : Z) :
  Q2Qc (inject_Z (a + b)) = (Q2Qc (inject_Z a) + Q2Qc (inject_Z b))%Qc.
Proof.
  unfold Qcplus. apply Q2Qc_eq_iff. simpl. rewrite !Qred_correct.
  rewrite inject_Z_plus. reflexivity.
Qed.

#[export] Instance Qc_exact : ExactArith Qc := {|
  ea_ring := Qcrt;
  ea_of_int_add := Qc_of_int_add
|}.



Lemma evolve_wave_frame_witness :
  exists phi',
    evolve_wave 3 3 BC_PERIODIC true 4%float 0%float 0.25%float 0.5%float
      (fun _ _ => 0%float) field_3x3 status_3x3
      (replicate 3 (replicate 3 0%float)) = Ok phi'
    /\ dims 3 3 phi'
    /\ (forall a b s, rd status_3x3 a b = Ok s -> s <> 1 ->
          rd phi' a b = rd field_3x3 a b).
Proof.
  apply (evolve_wave_frame (T := float) 3 3 BC_PERIODIC true 4%float 0%float
           0.25%float 0.5%float (fun _ _ => 0%float) status_3x3 field_3x3
           (replicate 3 (replicate 3 0%float))).
  - unfold grid_size_ok. split; [lia |]. split; [lia | discriminate].
  - split; [reflexivity | repeat constructor].
  - split; [reflexivity | repeat constructor].
  - apply (dims_replicate 3 3); lia.
Defined.

(** C7. Absorbing policy, 3 x 3 grid of interior cells, one hot cell in
    the middle, [intstep = 0.25], [intstep1 = 0.5], and a stack that
    holds zero where [delta2] lives.  The four border cells next to the
    middle relax toward it (0.5), as specified.  The middle cell
    keeps its value 1: the explicit-Euler Laplacian update, which the
    Dirichlet policy applies to the same field, gives 0 there. *)
Lemma evolve_wave_absorbing_bulk_skips_laplacian :
  evolve_wave 3 3 BC_ABSORBING false 10%float 0%float 0.25%float 0.5%float
    (fun _ _ => 0%float) hot_centre_3x3 interior_3x3
    (replicate 3 (replicate 3 0%float))
  = Ok [[0; 0.5; 0]; [0.5; 1; 0.5]; [0; 0.5; 0]]%float
  /\ evolve_wave 3 3 BC_DIRICHLET false 10%float 0%float 0.25%float 0.5%float
       (fun _ _ => 0%float) hot_centre_3x3 interior_3x3
       (replicate 3 (replicate 3 0%float))
     = Ok [[0; 0.25; 0]; [0.25; 0; 0.25]; [0; 0.25; 0]]%float.
Proof. split; vm_compute; reflexivity. Qed.

(** C8. [FLOOR] on, [VMAX = 10], Dirichlet policy, 2 x 2 grid of
    interior cells holding 20 everywhere.  The clamp is written into
    [phi], which the final copy of [newphi] then overwrites: every cell
    ends above [VMAX] (and the clamped values, read as neighbours by
    the cells visited later, have moved the field). *)
Lemma evolve_wave_floor_not_enforced :
  evolve_wave 2 2 BC_DIRICHLET true 10%float 0%float 0.25%float 0.5%float
    (fun _ _ => 0%float) (replicate 2 (replicate 2 20%float)) interior_2x2
    (replicate 2 (replicate 2 0%float))
  = Ok [[20; 17.5]; [17.5; 15]]%float
  /\ (10 <? 20)%float = true /\ (10 <? 17.5)%float = true
  /\ (10 <? 15)%float = true.
Proof. repeat split; vm_compute; reflexivity. Qed.

(** C3. The configured grid, a field that is constant: no gradient comes
    back, the read of [phi[0][720]] is outside the row. *)
Lemma compute_gradient_out_of_bounds_witness :
  compute_gradient 1280 720 (-2)%float 2%float
    (replicate (Z.to_nat 1280) (replicate (Z.to_nat 720) 1%float))
    (replicate (Z.to_nat 1280) (replicate (Z.to_nat 720) 0%float))
    (replicate (Z.to_nat 1280) (replicate (Z.to_nat 720) 0%float))
  = Err OutOfBounds.
Proof.
  apply (compute_gradient_out_of_bounds (T := float) 1280 720).
  - lia.
  - lia.
  - lia.
  - apply dims_replicate; lia.
Defined.

(** C4. A 2 x 2 grid of interior cells whose only non-zero value, 3,
    sits in the first row: [compute_variance] starts both loops at 1,
    sees one cell and returns 0, while the mean of the squares over the
    four cells is 9/4. *)
Lemma compute_variance_misses_first_row_and_column :
  compute_variance 2 2 [[3; 0]; [0; 0]]%float interior_2x2 = Ok 0%float
  /\ variance_over_grid 2 2 [[3; 0]; [0; 0]]%float interior_2x2 = Ok 2.25%float.
Proof. split; vm_compute; reflexivity. Qed.

(** C5, as stated, fails on [init_julia_set]: with [T_IN = 2] (the
    other configuration that the source keeps in a comment) the cell
    (1, 1), of the second shell (status 3), is given 2 and not
    2 * pow(0.75, 3 - 2) = 1.5. *)
Lemma init_julia_set_flat_temperature :
  exists phi' xy_in',
    init_julia_set 2 2 2%float (sample_ij_to_xy 2 2) sample_classifier
      field_2x2 status_zero_2x2 = Ok (phi', xy_in')
    /\ rd xy_in' 1 1 = Ok 3
    /\ rd phi' 1 1 = Ok 2%float
    /\ 2%float <> (2 * b64_pow (dec 75 (-2)) (of_int (3 - 2)))%float.
Proof.
  exists [[5; 6]; [2; 2]]%float, [[0; 1]; [2; 3]].
  split_and!; [vm_compute; reflexivity | reflexivity | reflexivity |].
  intros E. apply (f_equal (fun v => PrimFloat.ltb v 2%float)) in E.
  vm_compute in E. discriminate.
Qed.

Lemma graded_boundary_temperature_witness :
  (exists phi' xy_in',
     init_gaussian 2 2 2%float 0%float (sample_ij_to_xy 2 2) sample_classifier
       b64_exp b64_pow (-1)%float 0%float (dec 1 (-1)) 0%float (dec 1 (-2))
       field_2x2 status_zero_2x2 = Ok (phi', xy_in')
     /\ (forall a b s, 0 <= a < 2 -> 0 <= b < 2 ->
           rd xy_in' a b = Ok s -> 2 <= s ->
           rd phi' a b = Ok (2 * b64_pow (dec 75 (-2)) (of_int (s - 2)))%float))
  /\ (exists phi' xy_in',
        init_julia_set 2 2 2%float (sample_ij_to_xy 2 2) sample_classifier
          field_2x2 status_zero_2x2 = Ok (phi', xy_in')
        /\ (forall a b s, 0 <= a < 2 -> 0 <= b < 2 ->
              rd xy_in' a b = Ok s -> 2 <= s -> rd phi' a b = Ok 2%float)).
Proof.
  refine (graded_boundary_temperature (T := float) 2 2 2%float 0%float
            (sample_ij_to_xy 2 2) sample_classifier b64_exp b64_pow
            (-1)%float 0%float (dec 1 (-1)) 0%float (dec 1 (-2))
            field_2x2 status_zero_2x2 _ _ _ _).
  - lia.
  - lia.
  - split; [reflexivity | repeat constructor].
  - split; [reflexivity | repeat constructor].
Defined.

Lemma init_julia_set_keeps_field_witness :
  exists phi' xy_in',
    init_julia_set 2 2 2%float (sample_ij_to_xy 2 2) sample_classifier
      field_2x2 status_zero_2x2 = Ok (phi', xy_in')
    /\ (forall a b, 0 <= a < 2 -> 0 <= b < 2 ->
          rd xy_in' a b
          = Ok (new_status (sample_ij_to_xy 2 2) sample_classifier a b))
    /\ (forall a b s, 0 <= a < 2 -> 0 <= b < 2 ->
          rd xy_in' a b = Ok s -> s < 2 -> rd phi' a b = rd field_2x2 a b).
Proof.
  apply (init_julia_set_keeps_field (T := float) 2 2 2%float
           (sample_ij_to_xy 2 2) sample_classifier field_2x2 status_zero_2x2).
  - lia.
  - lia.
  - split; [reflexivity | repeat constructor].
  - split; [reflexivity | repeat constructor].
Defined.

(** A trace that starts outside the plotted rectangle. *)
Lemma draw_field_line_in_bounds_witness :
  (forall ij, 0 <= fst (clamp_ij 3 3 ij) <= 3 - 1
              /\ 0 <= snd (clamp_ij 3 3 ij) <= 3 - 1)
  /\ exists line,
       draw_field_line 3 3 (sample_xy_to_ij 3 3) (fun x y => (x, y))
         PrimFloat.sqrt 5%float 5%float status_3x3 field_3x3 field_3x3
         0.5%float 6 = Ok line.
Proof.
  apply (draw_field_line_in_bounds (T := float) 3 3 (sample_xy_to_ij 3 3)
           (fun x y => (x, y)) PrimFloat.sqrt 5%float 5%float status_3x3
           field_3x3 field_3x3 0.5%float 6).
  - lia.
  - lia.
  - split; [reflexivity | repeat constructor].
  - split; [reflexivity | repeat constructor].
  - split; [reflexivity | repeat constructor].
Defined.

(** C6 on the configured sizes: 200 lines, 20000 seed candidates, a
    1280 x 720 gradient that is zero everywhere. *)
Lemma draw_wave_field_lines_seed_past_end_witness :
  draw_wave_field_lines 1280 720 200 100 (sample_xy_to_ij 1280 720)
    (fun x y => (x, y)) sample_module2 PrimFloat.sqrt
    (replicate (Z.to_nat 1280) (replicate (Z.to_nat 720) 1))
    (replicate (Z.to_nat 1280) (replicate (Z.to_nat 720) (of_int 0)))
    (replicate (Z.to_nat 1280) (replicate (Z.to_nat 720) (of_int 0)))
    (replicate (Z.to_nat (200 * 100)) (PrimFloat.sqrt (dec 358 (-2))))
    (replicate (Z.to_nat (200 * 100)) (of_int 0))
    (replicate (Z.to_nat (200 * 100)) (dec 5 (-4)))
    (replicate (Z.to_nat (200 * 100 + 1)) (of_int 0))
  = Err OutOfBounds.
Proof.
  apply (draw_wave_field_lines_seed_past_end (T := float)).
  - lia.
  - lia.
  - lia.
  - lia.
  - apply dims_replicate; lia.
  - apply dims_replicate; lia.
  - apply dims_replicate; lia.
  - apply length_replicate.
  - apply length_replicate.
  - apply length_replicate.
  - apply length_replicate.
  - intros i x y Hx%rd1_replicate_inv Hy%rd1_replicate_inv. subst x y.
    assert (E : sample_xy_to_ij 1280 720 (PrimFloat.sqrt (dec 358 (-2))) (of_int 0)
                = (1245, 360)) by (vm_compute; reflexivity).
    rewrite E. simpl. lia.
  - intros a b Ha Hb. by apply rd_replicate.
  - intros a b Ha Hb. by apply rd_replicate.
  - intros i d Hd%rd1_replicate_inv. subst d. vm_compute. reflexivity.
  - vm_compute. reflexivity.
  - vm_compute. reflexivity.
Defined.

(** *** Further instances *)

(** On binary64, with the configured grid, integration step and drift
    speed: the field that holds everywhere the value [init_gaussian]
    gives the interior is returned bit for bit by one Dirichlet step,
    whatever the status grid.  The identity of one cell is computed;
    [evolve_wave_uniform] carries it to the 1280 x 720 cells. *)
Example evolve_wave_uniform_binary64 (xy_in : grid Z) (newphi : grid float) :
  dims 1280 720 xy_in -> dims 1280 720 newphi ->
  evolve_wave 1280 720 BC_DIRICHLET false (of_int 10) (of_int 0) b64_intstep
    b64_intstep1 (fun _ _ => of_int 0)
    (replicate (Z.to_nat 1280) (replicate (Z.to_nat 720) b64_interior))
    xy_in newphi
  = Ok (replicate (Z.to_nat 1280) (replicate (Z.to_nat 720) b64_interior)).
Proof.
  intros Hds Hdn.
  apply (evolve_wave_uniform 1280 720 (of_int 10) (of_int 0) b64_intstep
           b64_intstep1 (fun _ _ => of_int 0) xy_in _ newphi b64_interior).
  - vm_compute. reflexivity.
  - lia.
  - lia.
  - exact Hds.
  - apply dims_replicate; lia.
  - exact Hdn.
  - intros a b Ha Hb. by apply rd_replicate.
Qed.

(** A run of the seeding pass that stays inside the arrays: three lines
    over six candidates.  The cumulative integral is
    0.5, 1.5, 4.5, 5.5, 6.5, 6.70..., the seeds are the candidates 2, 2
    and 5, after the mandatory candidate 0. *)
Example draw_wave_field_lines_seeds :
  match
    draw_wave_field_lines 3 3 3 2 (sample_xy_to_ij 3 3) (fun x y => (x, y))
      (fun _ _ => 1%float) PrimFloat.sqrt outside_3x3 field_3x3 field_3x3
      [1; 0; -1; 0; 1; 0]%float [0; 1; 0; -1; 0.5; 0.5]%float
      [0.5; 1; 3; 1; 1; 0x1.9fdba5e603e91p-3]%float
      (replicate 7 0%float)
  with
  | Ok (_, counter, lines) => Some (counter, map fst lines)
  | Err _ => None
  end = Some (3, [0; 2; 2; 5]).
Proof. vm_compute. reflexivity. Qed.

Lemma evolve_wave_reads_snapshot_witness :
  exists phi',
    evolve_wave 3 3 BC_PERIODIC false 4%float 0%float 0.25%float 0.5%float
      (fun _ _ => 0%float) field_3x3 status_3x3
      (replicate 3 (replicate 3 0%float)) = Ok phi'
    /\ (forall a b, rd status_3x3 a b = Ok 1 ->
          rd phi' a b
          = stencil_value 3 3 BC_PERIODIC 0%float 0.25%float 0.5%float
              (fun _ _ => 0%float) field_3x3 a b).
Proof.
  apply (evolve_wave_reads_snapshot (T := float) 3 3 BC_PERIODIC false 4%float
           0%float 0.25%float 0.5%float (fun _ _ => 0%float) status_3x3
           field_3x3 (replicate 3 (replicate 3 0%float))).
  - reflexivity.
  - unfold grid_size_ok. split; [lia |]. split; [lia | discriminate].
  - split; [reflexivity | repeat constructor].
  - split; [reflexivity | repeat constructor].
  - apply (dims_replicate 3 3); lia.
Defined.

Lemma evolve_wave_absorbing_witness :
  exists phi',
    evolve_wave 3 3 BC_ABSORBING false 10%float 0%float 0.25%float 0.5%float
      (fun _ _ => 0%float) hot_centre_3x3 interior_3x3
      (replicate 3 (replicate 3 0%float)) = Ok phi'
    /\ (forall i j x, 0 < i < 3 - 1 -> 0 < j < 3 - 1 ->
          rd interior_3x3 i j = Ok 1 -> rd hot_centre_3x3 i j = Ok x ->
          rd phi' i j = Ok (x - 0.25%float * 0%float)%F)
    /\ (forall i j x p, 0 <= i < 3 -> 0 <= j < 3 ->
          ~ (0 < i < 3 - 1 /\ 0 < j < 3 - 1) ->
          rd interior_3x3 i j = Ok 1 -> rd hot_centre_3x3 i j = Ok x ->
          rd hot_centre_3x3 (fst (inward 3 3 i j)) (snd (inward 3 3 i j)) = Ok p ->
          rd phi' i j = Ok (x - 0.5%float * (x - p))%F).
Proof.
  apply (evolve_wave_absorbing (T := float) 3 3 10%float 0%float 0.25%float
           0.5%float (fun _ _ => 0%float) interior_3x3 hot_centre_3x3
           (replicate 3 (replicate 3 0%float))).
  - lia.
  - lia.
  - split; [reflexivity | repeat constructor].
  - split; [reflexivity | repeat constructor].
  - apply (dims_replicate 3 3); lia.
Defined.

Lemma compute_variance_ignores_first_row_and_column_witness :
  compute_variance 2 2 [[3; 4]; [5; 0]]%float interior_2x2
  = compute_variance 2 2 [[0; 0]; [0; 0]]%float interior_2x2.
Proof.
  apply (compute_variance_ignores_first_row_and_column (T := float) 2 2).
  intros i j Hi Hj.
  destruct (decide (i = 1)) as [-> | Hi1]; [destruct (decide (j = 1)) as [-> | Hj1] |].
  - reflexivity.
  - rewrite !(rd_out _ 2 2 1 j); [reflexivity | | lia | | lia];
      (split; [reflexivity | repeat constructor]).
  - rewrite !(rd_out _ 2 2 i j); [reflexivity | | lia | | lia];
      (split; [reflexivity | repeat constructor]).
Defined.

Lemma Qc_div_zero (x : Qc) : (of_int 0 / x)%F = of_int 0.
Proof. apply Qcmult_0_l. Qed.

Lemma compute_gradient_constant_square_witness :
  exists nablax' nablay',
    compute_gradient 2 2 (of_int (-2)) (of_int 2)
      (replicate 2 (replicate 2 (Q2Qc (3 # 4))))
      (replicate 2 (replicate 2 (of_int 1)))
      (replicate 2 (replicate 2 (of_int 1))) = Ok (nablax', nablay')
    /\ (forall a b, 0 <= a < 2 -> 0 <= b < 2 ->
          rd nablax' a b = Ok (of_int 0) /\ rd nablay' a b = Ok (of_int 0)).
Proof.
  apply (compute_gradient_constant_square (T := Qc) 2 (of_int (-2)) (of_int 2)
           Qc_div_zero _ _ _ (Q2Qc (3 # 4))).
  - lia.
  - apply (dims_replicate 2 2); lia.
  - apply (dims_replicate 2 2); lia.
  - apply (dims_replicate 2 2); lia.
  - intros a b Ha Hb. apply (rd_replicate 2 2); lia.
Defined.

Lemma compute_variance_empty_domain_witness :
  compute_variance 2 2 field_2x2 [[1; 2]; [1; 0]] = Ok (of_int 0 / of_int 1)%F.
Proof.
  apply (compute_variance_empty_domain (T := float) 2 2).
  - lia.
  - lia.
  - intros i j Hi Hj. assert (i = 1) as -> by lia. assert (j = 1) as -> by lia.
    reflexivity.
Defined.


(** The rationals are a field of characteristic zero. *)
Lemma Qc_div_mul (a b : Qc) : b <> of_int 0 -> (a / b * b)%F = a.
Proof.
  intros Hb. change ((a / b * b)%Qc = a). rewrite Qcmult_comm.
  by apply Qcmult_div_r.
Qed.

Lemma Qc_mul_div (a b : Qc) : b <> of_int 0 -> (a * b / b)%F = a.
Proof. intros Hb. change ((a * b / b)%Qc = a). by apply Qcdiv_mult_l. Qed.

Lemma Qc_of_int_pos (n : Z) : 0 < n -> (of_int n : Qc) <> of_int 0.
Proof.
  intros Hn E. apply Q2Qc_eq_iff in E. unfold Qeq in E. simpl in E. lia.
Qed.

#[export] Instance Qc_exact_field : ExactField Qc := {|
  ef_div_mul := Qc_div_mul;
  ef_mul_div := Qc_mul_div;
  ef_of_int_pos := Qc_of_int_pos
|}.

(** The indices of a 2 x 2 or of a 3 x 3 grid, one by one. *)
Ltac index2 a := assert (a = 0 \/ a = 1) as [-> | ->] by lia.
Ltac index3 a := assert (a = 0 \/ a = 1 \/ a = 2) as [-> | [-> | ->]] by lia.

Lemma renormalise_field_rescales_witness :
  exists phi',
    renormalise_field 3 3 PrimFloat.sqrt field_3x3 status_3x3 4%float = Ok phi'
    /\ (forall a b s x, 1 <= a < 3 -> 1 <= b < 3 ->
          rd status_3x3 a b = Ok s -> s <> 0 -> rd field_3x3 a b = Ok x ->
          rd phi' a b = Ok (x / PrimFloat.sqrt 4)%float)
    /\ (forall a b s, rd status_3x3 a b = Ok s -> s = 0 \/ a = 0 \/ b = 0 ->
          rd phi' a b = rd field_3x3 a b).
Proof.
  refine (renormalise_field_rescales (T := float) 3 3 PrimFloat.sqrt field_3x3
            status_3x3 4%float _ _ _ _).
  - lia.
  - lia.
  - split; [reflexivity | repeat constructor].
  - split; [reflexivity | repeat constructor].
Defined.

Lemma renormalise_field_unit_variance_witness :
  exists phi',
    renormalise_field 3 3 Qc_sqrt squares_3x3 status_3x3 (of_int 25) = Ok phi'
    /\ compute_variance 3 3 phi' status_3x3 = Ok (of_int 1).
Proof.
  apply (renormalise_field_unit_variance (T := Qc) 3 3 Qc_sqrt squares_3x3
           status_3x3 (of_int 25)).
  - lia.
  - lia.
  - split; [reflexivity | repeat constructor].
  - split; [reflexivity | repeat constructor].
  - vm_compute. f_equal. apply Qc_is_canon. reflexivity.
  - intros E. apply Q2Qc_eq_iff in E. discriminate E.
  - apply Qc_is_canon. reflexivity.
Defined.

Lemma renormalise_field_zero_variance_witness :
  exists phi',
    renormalise_field 3 3 PrimFloat.sqrt field_3x3 status_3x3 0%float = Ok phi'
    /\ (forall a b s, 1 <= a < 3 -> 1 <= b < 3 ->
          rd status_3x3 a b = Ok s -> s <> 0 ->
          exists v, rd phi' a b = Ok v /\ b64_finite v = false).
Proof.
  apply (renormalise_field_zero_variance 3 3 field_3x3 status_3x3).
  - lia.
  - lia.
  - split; [reflexivity | repeat constructor].
  - split; [reflexivity | repeat constructor].
Defined.

Lemma animation_init_ignores_allocation_witness :
  is_Ok (animation_init 2 2 0%float 2%float (-2)%float 2%float (dec 4 (-6)) 10%float
           4500 (sample_ij_to_xy 2 2) sample_julia_classifier b64_exp b64_pow
           sample_cos sample_sin field_2x2 status_zero_2x2)
  /\ animation_init 2 2 0%float 2%float (-2)%float 2%float (dec 4 (-6)) 10%float
       4500 (sample_ij_to_xy 2 2) sample_julia_classifier b64_exp b64_pow
       sample_cos sample_sin field_2x2 status_zero_2x2
     = animation_init 2 2 0%float 2%float (-2)%float 2%float (dec 4 (-6)) 10%float
         4500 (sample_ij_to_xy 2 2) sample_julia_classifier b64_exp b64_pow
         sample_cos sample_sin (replicate 2 (replicate 2 nan)) status_2x2.
Proof.
  apply (animation_init_ignores_allocation (T := float) 2 2 0%float 2%float
           (-2)%float 2%float (dec 4 (-6)) 10%float 4500 (sample_ij_to_xy 2 2)
           sample_julia_classifier b64_exp b64_pow sample_cos sample_sin
           field_2x2 (replicate 2 (replicate 2 nan)) status_zero_2x2 status_2x2).
  - lia.
  - lia.
  - split; [reflexivity | repeat constructor].
  - split; [reflexivity | repeat constructor].
  - apply (dims_replicate 2 2); lia.
  - split; [reflexivity | repeat constructor].
Defined.

Lemma init_gaussian_zero_amplitude_witness :
  exists phi' xy_in',
    init_gaussian 2 2 0%float 2%float (sample_ij_to_xy 2 2) sample_classifier
      b64_exp b64_pow (-1)%float 0%float (dec 1 (-1)) 0%float (dec 1 (-2))
      field_2x2 status_zero_2x2 = Ok (phi', xy_in')
    /\ (forall a b, 0 <= a < 2 -> 0 <= b < 2 -> rd xy_in' a b = Ok 1 ->
          rd phi' a b = Ok (dec 1 (-1) + dec 1 (-15) / dec 1 (-2))%F).
Proof.
  refine (init_gaussian_zero_amplitude 2 2 0%float 2%float (sample_ij_to_xy 2 2)
            sample_classifier b64_exp b64_pow (-1)%float 0%float (dec 1 (-1))
            (dec 1 (-2)) field_2x2 status_zero_2x2 _ _ _ _ _).
  - lia.
  - lia.
  - split; [reflexivity | repeat constructor].
  - split; [reflexivity | repeat constructor].
  - intros a b Ha Hb. index2 a; index2 b; vm_compute; reflexivity.
Defined.

Lemma animation_evolve_frame_witness :
  exists phi',
    animation_evolve 3 3 BC_PERIODIC true 4%float 0%float 0.25%float 0.5%float
      (fun _ _ => 0%float) 50 (fun _ => replicate 3 (replicate 3 0%float))
      field_3x3 status_3x3 = Ok phi'
    /\ dims 3 3 phi'
    /\ (forall a b s, rd status_3x3 a b = Ok s -> s <> 1 ->
          rd phi' a b = rd field_3x3 a b).
Proof.
  apply (animation_evolve_frame (T := float) 3 3 BC_PERIODIC true 4%float 0%float
           0.25%float 0.5%float (fun _ _ => 0%float) 50
           (fun _ => replicate 3 (replicate 3 0%float)) status_3x3 field_3x3).
  - unfold grid_size_ok. split; [lia |]. split; [lia | discriminate].
  - lia.
  - split; [reflexivity | repeat constructor].
  - split; [reflexivity | repeat constructor].
  - intros j. apply (dims_replicate 3 3); lia.
Defined.

Lemma animation_evolve_maximum_principle_witness :
  exists phi',
    animation_evolve 3 3 BC_DIRICHLET false (of_int 10) (of_int 0)
      (Q2Qc (128 # 3125)) (Q2Qc (1 # 8)) (fun _ _ => of_int 0) 50
      (fun _ => replicate 3 (replicate 3 (of_int 0))) hot_centre_Qc status_3x3
    = Ok phi'
    /\ (forall a b x, rd phi' a b = Ok x -> (of_int 0 <= x <= of_int 1)%Qc).
Proof.
  apply (animation_evolve_maximum_principle 3 3 BC_DIRICHLET (of_int 10) (of_int 0)
           (Q2Qc (128 # 3125)) (Q2Qc (1 # 8)) (fun _ _ => of_int 0) 50
           (fun _ => replicate 3 (replicate 3 (of_int 0))) status_3x3 hot_centre_Qc
           (of_int 0) (of_int 1)).
  - discriminate.
  - lia.
  - lia.
  - lia.
  - split; [reflexivity | repeat constructor].
  - split; [reflexivity | repeat constructor].
  - intros j. apply (dims_replicate 3 3); lia.
  - vm_compute. discriminate.
  - vm_compute. discriminate.
  - vm_compute. discriminate.
  - intros a b x Hx.
    assert (Hr : 0 <= a < 3 /\ 0 <= b < 3).
    { apply (rd_Ok_range hot_centre_Qc 3 3 a b x); [| done].
      split; [reflexivity | repeat constructor]. }
    destruct Hr as [Ha Hb].
    index3 a; index3 b; injection Hx as <-; split; vm_compute; discriminate.
Defined.

Lemma evolve_wave_periodic_conserves_heat_witness :
  exists phi',
    evolve_wave 3 3 BC_PERIODIC false (of_int 10) (Q2Qc (1 # 2))
      (Q2Qc (128 # 3125)) (Q2Qc (1 # 8)) (fun _ _ => of_int 0)
      squares_3x3 interior_3x3 (replicate 3 (replicate 3 (of_int 0))) = Ok phi'
    /\ total_heat 3 3 phi' = total_heat 3 3 squares_3x3.
Proof.
  apply (evolve_wave_periodic_conserves_heat (T := Qc) 3 3 (of_int 10) (Q2Qc (1 # 2))
           (Q2Qc (128 # 3125)) (Q2Qc (1 # 8)) (fun _ _ => of_int 0)
           interior_3x3 squares_3x3 (replicate 3 (replicate 3 (of_int 0)))).
  - lia.
  - lia.
  - split; [reflexivity | repeat constructor].
  - split; [reflexivity | repeat constructor].
  - apply (dims_replicate 3 3); lia.
  - intros a b Ha Hb. index3 a; index3 b; reflexivity.
Defined.

Lemma draw_wave_candidates_polygon_witness :
  exists linex' liney' distance',
    draw_wave_candidates true 2 2 sample_module2 PrimFloat.sqrt sample_cos sample_sin
      true nan nan (replicate 4 0%float) (replicate 4 0%float) (replicate 4 0%float)
    = Ok (false, (linex', liney', distance'))
    /\ (forall k, 0 <= k < 2 * 2 ->
          rd1 linex' k = Ok (candidate_x 2 2 PrimFloat.sqrt sample_cos k)
          /\ rd1 liney' k = Ok (candidate_y 2 2 PrimFloat.sqrt sample_sin k))
    /\ (forall k, 0 <= k < 2 * 2 - 1 ->
          rd1 distance' k
          = Ok (sample_module2
                  (candidate_x 2 2 PrimFloat.sqrt sample_cos (k + 1)
                   - candidate_x 2 2 PrimFloat.sqrt sample_cos k)
                  (candidate_y 2 2 PrimFloat.sqrt sample_sin (k + 1)
                   - candidate_y 2 2 PrimFloat.sqrt sample_sin k))%F)
    /\ rd1 distance' (2 * 2 - 1)
       = Ok (sample_module2
               (candidate_x 2 2 PrimFloat.sqrt sample_cos (2 * 2 - 1)
                - candidate_x 2 2 PrimFloat.sqrt sample_cos 0)
               (candidate_y 2 2 PrimFloat.sqrt sample_sin (2 * 2 - 1)))%F.
Proof.
  refine (draw_wave_candidates_polygon (T := float) 2 2 sample_module2
            PrimFloat.sqrt sample_cos sample_sin nan nan (replicate 4 0%float)
            (replicate 4 0%float) (replicate 4 0%float) _ _ _ _).
  - lia.
  - reflexivity.
  - reflexivity.
  - reflexivity.
Defined.

Lemma draw_field_line_length_witness :
  exists rest,
    draw_field_line 3 3 (sample_xy_to_ij 3 3) (fun x y => (x, y)) PrimFloat.sqrt
      (-1)%float 0%float interior_3x3 field_3x3 field_3x3 (dec 2 (-5)) 8
    = Ok (((-1)%float, 0%float) :: rest)
    /\ Z.of_nat (length rest) <= Z.max 8 0
    /\ (1 <= 8 -> 1 <= Z.of_nat (length rest)).
Proof.
  apply (draw_field_line_length (T := float) 3 3 (sample_xy_to_ij 3 3)
           (fun x y => (x, y)) PrimFloat.sqrt (-1)%float 0%float interior_3x3
           field_3x3 field_3x3 (dec 2 (-5)) 8).
  - lia.
  - lia.
  - split; [reflexivity | repeat constructor].
  - split; [reflexivity | repeat constructor].
  - split; [reflexivity | repeat constructor].
Defined.

Lemma draw_field_line_stops_at_once_witness :
  exists p,
    draw_field_line 3 3 (sample_xy_to_ij 3 3) (fun x y => (x, y)) PrimFloat.sqrt
      (-1)%float 0%float outside_3x3 field_3x3 field_3x3 (dec 2 (-5)) 100000
    = Ok [((-1)%float, 0%float); p]
    /\ ((dec 1 (-14) <? 2 * 2 + 2 * 2)%float = false -> p = ((-1)%float, 0%float)).
Proof.
  refine (draw_field_line_stops_at_once (T := float) 3 3 (sample_xy_to_ij 3 3)
            (fun x y => (x, y)) PrimFloat.sqrt (-1)%float 0%float outside_3x3
            field_3x3 field_3x3 (dec 2 (-5)) 100000 0 2%float 2%float _ _ _ _ _).
  - lia.
  - vm_compute. reflexivity.
  - vm_compute. reflexivity.
  - vm_compute. reflexivity.
  - left. reflexivity.
Defined.

Lemma compute_gradient_returns_iff_square_witness :
  is_Ok (compute_gradient 3 3 (-2)%float 2%float field_3x3
           (replicate 3 (replicate 3 0%float)) (replicate 3 (replicate 3 0%float)))
  <-> 3 = 3.
Proof.
  apply (compute_gradient_returns_iff_square (T := float) 3 3 (-2)%float 2%float
           field_3x3 (replicate 3 (replicate 3 0%float))
           (replicate 3 (replicate 3 0%float))).
  - lia.
  - lia.
  - split; [reflexivity | repeat constructor].
  - apply (dims_replicate 3 3); lia.
  - apply (dims_replicate 3 3); lia.
Defined.

Lemma compute_gradient_centred_difference_not_halved_witness :
  exists nablax' nablay',
    compute_gradient 3 3 (of_int (-2)) (of_int 2) rising_3x3
      (replicate 3 (replicate 3 (of_int 0))) (replicate 3 (replicate 3 (of_int 0)))
    = Ok (nablax', nablay')
    /\ (forall i j, 0 < i < 3 - 1 -> 0 <= j < 3 ->
          rd nablax' i j
          = Ok ((of_int 1 + of_int 1) / ((of_int 2 - of_int (-2)) / of_int 3))%F)
    /\ (forall i j, i = 0 \/ i = 3 - 1 -> 0 <= j < 3 ->
          rd nablax' i j = Ok (of_int 1 / ((of_int 2 - of_int (-2)) / of_int 3))%F).
Proof.
  apply (compute_gradient_centred_difference_not_halved (T := Qc) 3 (of_int (-2))
           (of_int 2) rising_3x3 (replicate 3 (replicate 3 (of_int 0)))
           (replicate 3 (replicate 3 (of_int 0))) (of_int 1)).
  - lia.
  - split; [reflexivity | repeat constructor].
  - apply (dims_replicate 3 3); lia.
  - apply (dims_replicate 3 3); lia.
  - intros i j x x' Hi Hj Hx Hx'.
    index2 i; index3 j; injection Hx as <-; injection Hx' as <-;
      apply Qc_is_canon; reflexivity.
Defined.

Lemma init_julia_set_idempotent_witness :
  exists phi' xy_in',
    init_julia_set 2 2 2%float (sample_ij_to_xy 2 2) sample_classifier
      field_2x2 status_zero_2x2 = Ok (phi', xy_in')
    /\ init_julia_set 2 2 2%float (sample_ij_to_xy 2 2) sample_classifier
         phi' xy_in' = Ok (phi', xy_in').
Proof.
  apply (init_julia_set_idempotent (T := float) 2 2 2%float (sample_ij_to_xy 2 2)
           sample_classifier field_2x2 status_zero_2x2).
  - lia.
  - lia.
  - split; [reflexivity | repeat constructor].
  - split; [reflexivity | repeat constructor].
Defined.

Lemma compute_variance_complete_when_border_outside_witness :
  compute_variance 3 3 field_3x3 status_inner_3x3
  = variance_over_grid 3 3 field_3x3 status_inner_3x3.
Proof.
  apply (compute_variance_complete_when_border_outside (T := float) 3 3 field_3x3
           status_inner_3x3).
  - lia.
  - lia.
  - intros j Hj. index3 j; reflexivity.
  - intros i Hi. index3 i; reflexivity.
Defined.

Lemma evolve_wave_nan_spreads_witness :
  exists phi' v,
    evolve_wave 3 3 BC_DIRICHLET false 10%float 0%float b64_intstep b64_intstep1
      (fun _ _ => 0%float) nan_centre_3x3 interior_3x3
      (replicate 3 (replicate 3 0%float)) = Ok phi'
    /\ rd phi' 0 1 = Ok v /\ b64_nan v = true.
Proof.
  apply (evolve_wave_nan_spreads 3 3 BC_DIRICHLET 10%float 0%float b64_intstep
           b64_intstep1 (fun _ _ => 0%float) interior_3x3 nan_centre_3x3
           (replicate 3 (replicate 3 0%float)) 0 1 1 0 2 0 1 1 nan).
  - discriminate.
  - lia.
  - lia.
  - split; [reflexivity | repeat constructor].
  - split; [reflexivity | repeat constructor].
  - apply (dims_replicate 3 3); lia.
  - reflexivity.
  - reflexivity.
  - left. reflexivity.
  - reflexivity.
  - reflexivity.
Defined.

Lemma evolve_wave_fixed_point_iff_balanced_witness :
  evolve_wave 3 3 BC_DIRICHLET false (of_int 10) (of_int 0) (Q2Qc (128 # 3125))
    (Q2Qc (1 # 8)) (fun _ _ => of_int 0) rising_3x3 status_centre_3x3
    (replicate 3 (replicate 3 (of_int 0))) = Ok rising_3x3
  <-> (forall i j, rd status_centre_3x3 i j = Ok 1 ->
         update_rate 3 3 BC_DIRICHLET (of_int 0) rising_3x3 i j = of_int 0).
Proof.
  apply (evolve_wave_fixed_point_iff_balanced (T := Qc) 3 3 BC_DIRICHLET (of_int 10)
           (of_int 0) (Q2Qc (128 # 3125)) (Q2Qc (1 # 8)) (fun _ _ => of_int 0)
           status_centre_3x3 rising_3x3 (replicate 3 (replicate 3 (of_int 0)))).
  - discriminate.
  - intros E. apply Q2Qc_eq_iff in E. discriminate E.
  - lia.
  - lia.
  - split; [reflexivity | repeat constructor].
  - split; [reflexivity | repeat constructor].
  - apply (dims_replicate 3 3); lia.
Defined.

Lemma interleaved_3x3_schedule : schedule 3 3 interleaved_3x3.
Proof.
  split.
  - intros i j. unfold interleaved_3x3. rewrite !elem_of_cons, elem_of_nil. split.
    + intros Hin. destruct_or!; simplify_eq; lia.
    + intros [Hi Hj]. index3 i; index3 j; tauto.
  - simpl. rewrite !Forall_cons, !Forall_nil. simpl. lia.
Qed.

(** Corners and middle of status 1, [FLOOR] on with [VMAX = 4], the
    three rows taking turns: the cell in the middle reads boundary
    cells only. *)
Lemma evolve_wave_sched_unclamped_witness :
  exists phi',
    evolve_wave_sched 3 3 BC_DIRICHLET true 4%float 0%float 0.25%float 0.5%float
      (fun _ _ => 0%float) interleaved_3x3 field_3x3 status_chequer_3x3
      (replicate 3 (replicate 3 0%float)) = Ok phi'
    /\ rd phi' 1 1
       = stencil_value 3 3 BC_DIRICHLET 0%float 0.25%float 0.5%float
           (fun _ _ => 0%float) field_3x3 1 1.
Proof.
  refine (evolve_wave_sched_unclamped (T := float) 3 3 BC_DIRICHLET true 4%float
            0%float 0.25%float 0.5%float (fun _ _ => 0%float) interleaved_3x3
            status_chequer_3x3 field_3x3 (replicate 3 (replicate 3 0%float))
            1 1 2 0 2 0 _ _ _ _ _ _ _ _ _ _ _).
  - unfold grid_size_ok. split; [lia |]. split; [lia | discriminate].
  - exact interleaved_3x3_schedule.
  - split; [reflexivity | repeat constructor].
  - split; [reflexivity | repeat constructor].
  - apply (dims_replicate 3 3); lia.
  - reflexivity.
  - reflexivity.
  - left. discriminate.
  - left. discriminate.
  - left. discriminate.
  - left. discriminate.
Defined.

(** On that input the cell in the middle comes back at 5 and the
    corner (2, 2) at 8, both above [VMAX = 4]. *)
Example evolve_wave_sched_interleaved :
  evolve_wave_sched 3 3 BC_DIRICHLET true 4%float 0%float 0.25%float 0.5%float
    (fun _ _ => 0%float) interleaved_3x3 field_3x3 status_chequer_3x3
    (replicate 3 (replicate 3 0%float))
  = Ok [[2; 2; 3.5]; [4; 5; 6]; [6.5; 8; 8]]%float.
Proof. vm_compute. reflexivity. Qed.

Lemma evolve_wave_sched_floor_off_witness :
  exists phi',
    evolve_wave_sched 3 3 BC_PERIODIC false 4%float 0%float 0.25%float 0.5%float
      (fun _ _ => 0%float) interleaved_3x3 field_3x3 status_3x3
      (replicate 3 (replicate 3 0%float)) = Ok phi'
    /\ evolve_wave 3 3 BC_PERIODIC false 4%float 0%float 0.25%float 0.5%float
         (fun _ _ => 0%float) field_3x3 status_3x3
         (replicate 3 (replicate 3 0%float)) = Ok phi'.
Proof.
  refine (evolve_wave_sched_floor_off (T := float) 3 3 BC_PERIODIC false 4%float
            0%float 0.25%float 0.5%float (fun _ _ => 0%float) interleaved_3x3
            status_3x3 field_3x3 (replicate 3 (replicate 3 0%float))
            _ _ _ _ _ _).
  - reflexivity.
  - unfold grid_size_ok. split; [lia |]. split; [lia | discriminate].
  - exact interleaved_3x3_schedule.
  - split; [reflexivity | repeat constructor].
  - split; [reflexivity | repeat constructor].
  - apply (dims_replicate 3 3); lia.
Defined.

(** With [FLOOR] on the schedule shows in the result.  On the uniform
    field 20 with every cell of status 1 and [VMAX = 10], the cell
    (0, 0) comes back at 20 when its row is run first, and at 17.5 when
    the row below is run first: its neighbour (1, 0) has been clamped
    to 10 by then. *)
Example evolve_wave_sched_floor_on :
  evolve_wave_sched 2 2 BC_DIRICHLET true (of_int 10) (of_int 0) (Q2Qc (1 # 4))
    (Q2Qc (1 # 8)) (fun _ _ => of_int 0) [(0, 0); (0, 1); (1, 0); (1, 1)]
    (replicate 2 (replicate 2 (of_int 20 : Qc))) interior_2x2
    (replicate 2 (replicate 2 (of_int 0)))
  = Ok [[of_int 20; Q2Qc (35 # 2)]; [Q2Qc (35 # 2); of_int 15]]
  /\ evolve_wave_sched 2 2 BC_DIRICHLET true (of_int 10) (of_int 0) (Q2Qc (1 # 4))
       (Q2Qc (1 # 8)) (fun _ _ => of_int 0) [(1, 0); (1, 1); (0, 0); (0, 1)]
       (replicate 2 (replicate 2 (of_int 20 : Qc))) interior_2x2
       (replicate 2 (replicate 2 (of_int 0)))
     = Ok [[Q2Qc (35 # 2); of_int 15]; [of_int 20; Q2Qc (35 # 2)]].
Proof. split; vm_compute; reflexivity. Qed.

Ltac index6 a :=
  assert (a = 0 \/ a = 1 \/ a = 2 \/ a = 3 \/ a = 4 \/ a = 5)
    as [-> | [-> | [-> | [-> | [-> | ->]]]]] by lia.

Lemma rd1_Ok_lt {A : Type} (a : list A) i v :
  rd1 a i = Ok v -> 0 <= i < Z.of_nat (length a).
Proof.
  intros [Hi Hv]%rd1_Ok. apply lookup_lt_Some in Hv. lia.
Qed.

(** Three lines over six candidates on a 3 x 3 grid; the memory past
    the candidates holds a point outside the plotted rectangle. *)
Lemma draw_wave_field_lines_over_count_witness :
  exists r,
    draw_wave_field_lines_over 3 3 3 2 (sample_xy_to_ij 3 3) (fun x y => (x, y))
      sample_module2 PrimFloat.sqrt 7%float (-3)%float outside_3x3 field_3x3
      field_3x3 [1; 0; -1; 0; 1; 0]%float [0; 1; 0; -1; 0.5; 0.5]%float
      [0.5; 1; 3; 1; 1; 0.25]%float (replicate 7 0%float) = Ok r
    /\ snd (fst r) = 3
    /\ length (snd r) = Z.to_nat (3 + 1)
    /\ (forall r',
          draw_wave_field_lines 3 3 3 2 (sample_xy_to_ij 3 3) (fun x y => (x, y))
            sample_module2 PrimFloat.sqrt outside_3x3 field_3x3 field_3x3
            [1; 0; -1; 0; 1; 0]%float [0; 1; 0; -1; 0.5; 0.5]%float
            [0.5; 1; 3; 1; 1; 0.25]%float (replicate 7 0%float) = Ok r' ->
          r' = r).
Proof.
  refine (draw_wave_field_lines_over_count (T := float) 3 3 3 2 (sample_xy_to_ij 3 3)
            (fun x y => (x, y)) sample_module2 PrimFloat.sqrt 7%float (-3)%float
            outside_3x3 field_3x3 field_3x3 _ _ _ _ _ _ _ _ _ _ _ _ _ _ _ _).
  - lia.
  - lia.
  - lia.
  - lia.
  - split; [reflexivity | repeat constructor].
  - split; [reflexivity | repeat constructor].
  - split; [reflexivity | repeat constructor].
  - reflexivity.
  - reflexivity.
  - reflexivity.
  - reflexivity.
  - intros i x y Hx Hy. pose proof (rd1_Ok_lt _ _ _ Hx) as Hi. simpl in Hi.
    index6 i; vm_compute in Hx, Hy; injection Hx as <-; injection Hy as <-;
      vm_compute; repeat split; discriminate.
Defined.

(** That run: the seeds are the candidates 0, 2 and 4, and for the last
    line the index 6, one past the candidates; the line starts from the
    point read there, and the guards of [draw_field_line] bring it to
    the cell (2, 0).  [draw_wave_field_lines] stops on the read. *)
Example draw_wave_field_lines_over_seeds :
  match
    draw_wave_field_lines_over 3 3 3 2 (sample_xy_to_ij 3 3) (fun x y => (x, y))
      sample_module2 PrimFloat.sqrt 7%float (-3)%float outside_3x3 field_3x3
      field_3x3 [1; 0; -1; 0; 1; 0]%float [0; 1; 0; -1; 0.5; 0.5]%float
      [0.5; 1; 3; 1; 1; 0.25]%float (replicate 7 0%float)
  with
  | Ok (_, counter, lines) => Some (counter, map fst lines)
  | Err _ => None
  end = Some (3, [0; 2; 4; 6])
  /\ draw_wave_field_lines 3 3 3 2 (sample_xy_to_ij 3 3) (fun x y => (x, y))
       sample_module2 PrimFloat.sqrt outside_3x3 field_3x3 field_3x3
       [1; 0; -1; 0; 1; 0]%float [0; 1; 0; -1; 0.5; 0.5]%float
       [0.5; 1; 3; 1; 1; 0.25]%float (replicate 7 0%float)
     = Err OutOfBounds.
Proof. split; vm_compute; reflexivity. Qed.

(** A pass that stays inside the arrays (a flux of density 1 and a last
    arc cut short): the seeds are the candidates 0, 2, 2 and 5. *)
Lemma draw_wave_field_lines_over_seeds_in_order_witness :
  exists r,
    draw_wave_field_lines_over 3 3 3 2 (sample_xy_to_ij 3 3) (fun x y => (x, y))
      (fun _ _ => 1%float) PrimFloat.sqrt 0%float 0%float outside_3x3 field_3x3
      field_3x3 [1; 0; -1; 0; 1; 0]%float [0; 1; 0; -1; 0.5; 0.5]%float
      [0.5; 1; 3; 1; 1; 0x1.9fdba5e603e91p-3]%float (replicate 7 0%float) = Ok r
    /\ seeds_in_order (snd r)
    /\ (exists line, head (snd r) = Some (0, line))
    /\ (forall p, elem_of p (snd r) -> 0 <= fst p <= 3 * 2)
    /\ (forall r',
          draw_wave_field_lines 3 3 3 2 (sample_xy_to_ij 3 3) (fun x y => (x, y))
            (fun _ _ => 1%float) PrimFloat.sqrt outside_3x3 field_3x3 field_3x3
            [1; 0; -1; 0; 1; 0]%float [0; 1; 0; -1; 0.5; 0.5]%float
            [0.5; 1; 3; 1; 1; 0x1.9fdba5e603e91p-3]%float (replicate 7 0%float)
          = Ok r' ->
          r' = r).
Proof.
  refine (draw_wave_field_lines_over_seeds_in_order (T := float) 3 3 3 2
            (sample_xy_to_ij 3 3) (fun x y => (x, y)) (fun _ _ => 1%float)
            PrimFloat.sqrt 0%float 0%float outside_3x3 field_3x3 field_3x3
            _ _ _ _ _ _ _ _ _ _ _ _ _ _ _ _).
  - lia.
  - lia.
  - lia.
  - lia.
  - split; [reflexivity | repeat constructor].
  - split; [reflexivity | repeat constructor].
  - split; [reflexivity | repeat constructor].
  - reflexivity.
  - reflexivity.
  - reflexivity.
  - reflexivity.
  - intros i x y Hx Hy. pose proof (rd1_Ok_lt _ _ _ Hx) as Hi. simpl in Hi.
    index6 i; vm_compute in Hx, Hy; injection Hx as <-; injection Hy as <-;
      vm_compute; repeat split; discriminate.
Defined.
